(** * ZetaStitcher, [stitcher/filematrix.py]: the tile catalog

    A shallow embedding of the module [filematrix.py]: the file-name parser
    [parse_file_name], the catalog loader [FileMatrix.load_dir], the slice
    graph [FileMatrix.slices], the grouping generators [tiles_along_dir],
    [tiles_along_X], [tiles_along_Y], and [FileMatrix.full_height].

    Conventions of the embedding.
    - Python [int]s are unbounded integers [Z]; [str]s are [string]s of
      8-bit characters.
    - A raised exception is a value of [exn]; a computation that may raise
      has type [result A].
    - A [pandas.DataFrame] is a list of labelled rows, in row order; the
      pandas and networkx operations the module calls are modelled after
      their documented behaviour and named after the call they stand for.
    - A generator is a state with a resume function; iterating it to
      exhaustion gives the trace of yielded items and the way it ended.

    The file has three parts: the embedding of the module, the vocabulary
    of the statements, and the properties with their proofs. *)

From Stdlib Require Import List ZArith Bool Ascii String Lia Arith.
From Stdlib Require Import Permutation Sorted.
Import ListNotations.

Local Open Scope string_scope.
Local Open Scope Z_scope.
Local Open Scope list_scope.

(* ================================================================== *)
(** ** Exceptions *)

(** The exception classes the module raises or meets, each with [args[0]]. *)
Inductive exn : Type :=
| ValueError (msg : string)
| RuntimeError (msg : string)
| KeyError (msg : string)
| TypeError (msg : string)
| IndexError (msg : string)
| OSError (msg : string).

Definition result (A : Type) : Type := (exn + A)%type.

Definition ret {A : Type} (a : A) : result A := inr a.
Definition raise {A : Type} (e : exn) : result A := inl e.

Definition bind {A B : Type} (m : result A) (f : A -> result B) : result B :=
  match m with
  | inl e => inl e
  | inr a => f a
  end.

Notation "x <- m ;; k" := (bind m (fun x => k))
  (at level 61, m at next level, right associativity).

(** [e.args[0]] *)
Definition args0 (e : exn) : string :=
  match e with
  | ValueError m | RuntimeError m | KeyError m | TypeError m
  | IndexError m | OSError m => m
  end.

(** [except (RuntimeError, ValueError)]: the classes the handlers of
    [load_dir] catch. *)
Definition caught (e : exn) : bool :=
  match e with
  | ValueError _ | RuntimeError _ => true
  | _ => false
  end.

(* ================================================================== *)
(** ** Strings, [os.path] *)

Definition slash : ascii := "/"%char.
Definition newline : ascii := "010"%char.

Fixpoint has_sep (p : string) : bool :=
  match p with
  | EmptyString => false
  | String c rest => if Ascii.eqb c slash then true else has_sep rest
  end.

(** [os.path.basename(p)] on POSIX: what follows the last ['/']. *)
Fixpoint basename (p : string) : string :=
  match p with
  | EmptyString => EmptyString
  | String c rest =>
      if has_sep rest then basename rest
      else if Ascii.eqb c slash then rest else p
  end.

Fixpoint ends_with_sep (p : string) : bool :=
  match p with
  | EmptyString => false
  | String c EmptyString => Ascii.eqb c slash
  | String _ rest => ends_with_sep rest
  end.

(** [os.path.join(a, b)] on POSIX, two components. *)
Definition path_join (a b : string) : string :=
  match b with
  | String c _ =>
      if Ascii.eqb c slash then b
      else if (String.eqb a "" || ends_with_sep a)%bool then (a ++ b)%string
      else (a ++ "/" ++ b)%string
  | EmptyString =>
      if (String.eqb a "" || ends_with_sep a)%bool then a else (a ++ "/")%string
  end.

(* ================================================================== *)
(** ** Regular expressions: the fragment of [re] the module uses *)

Module Re.

(** Character classes: [.], [\d] and a literal character. *)
Inductive cclass : Type :=
| Dot
| Digit
| Chr (c : ascii).

Definition is_digit (c : ascii) : bool :=
  let n := nat_of_ascii c in
  (Nat.leb 48 n && Nat.leb n 57)%bool.

Definition cclass_matches (cl : cclass) (c : ascii) : bool :=
  match cl with
  | Dot => negb (Ascii.eqb c newline)
  | Digit => is_digit c
  | Chr d => Ascii.eqb c d
  end.

(** Pattern items: one character of a class, a greedy [cl*], and a
    capturing group [(cl+)] around a greedy repetition. *)
Inductive node : Type :=
| One (cl : cclass)
| Star (cl : cclass)
| CapPlus (cl : cclass).

(** A pattern; [anchored] is a leading [^]. *)
Record pattern : Type := mkPattern {
  anchored : bool;
  body : list node
}.

Section Matcher.
Context {R : Type}.

(** Greedy [cl*]: take as many characters as the class allows, then
    give back one at a time until the continuation succeeds. *)
Fixpoint star (cl : cclass) (k : list ascii -> option R)
         (s : list ascii) : option R :=
  match s with
  | c :: s' =>
      if cclass_matches cl c then
        match star cl k s' with
        | Some r => Some r
        | None => k s
        end
      else k s
  | [] => k []
  end.

(** The same, remembering the characters taken (a capturing group). *)
Fixpoint star_cap (cl : cclass)
         (k : list ascii -> list ascii -> option R)
         (taken : list ascii) (s : list ascii) : option R :=
  match s with
  | c :: s' =>
      if cclass_matches cl c then
        match star_cap cl k (taken ++ [c]) s' with
        | Some r => Some r
        | None => k taken s
        end
      else k taken s
  | [] => k taken []
  end.
End Matcher.

(** Backtracking match of the items [p] at the head of [s]; the result
    is the list of captured groups, in order of their opening. *)
Fixpoint match_here (p : list node) (caps : list (list ascii))
         (s : list ascii) : option (list (list ascii)) :=
  match p with
  | [] => Some caps
  | One cl :: p' =>
      match s with
      | c :: s' =>
          if cclass_matches cl c then match_here p' caps s' else None
      | [] => None
      end
  | Star cl :: p' => star cl (fun s' => match_here p' caps s') s
  | CapPlus cl :: p' =>
      match s with
      | c :: s' =>
          if cclass_matches cl c then
            star_cap cl (fun g s'' => match_here p' (caps ++ [g]) s'')
                     [c] s'
          else None
      | [] => None
      end
  end.

(** Leftmost match at any offset. *)
Fixpoint search_from (p : list node) (s : list ascii)
  : option (list (list ascii)) :=
  match match_here p [] s with
  | Some caps => Some caps
  | None =>
      match s with
      | [] => None
      | _ :: s' => search_from p s'
      end
  end.

(** [re.search(pattern, s)]; the groups of the match, or [None]. *)
Definition search (p : pattern) (s : string) : option (list (list ascii)) :=
  let l := list_ascii_of_string s in
  if anchored p then match_here (body p) [] l else search_from (body p) l.

Definition lit (s : string) : list node :=
  map (fun c => One (Chr c)) (list_ascii_of_string s).

Definition captures (n : node) : nat :=
  match n with
  | CapPlus _ => 1
  | _ => 0
  end.

Definition group_count (p : list node) : nat :=
  list_sum (map captures p).

End Re.

(** ['^.*x_(\d+).*y_(\d+).*z_(\d+).*'] *)
Definition pattern_xyz : Re.pattern :=
  Re.mkPattern true
    ([Re.Star Re.Dot] ++ Re.lit "x_" ++ [Re.CapPlus Re.Digit]
     ++ [Re.Star Re.Dot] ++ Re.lit "y_" ++ [Re.CapPlus Re.Digit]
     ++ [Re.Star Re.Dot] ++ Re.lit "z_" ++ [Re.CapPlus Re.Digit]
     ++ [Re.Star Re.Dot]).

(** ['^(\d+)_(\d+)_(\d+)'] *)
Definition pattern_triple : Re.pattern :=
  Re.mkPattern true
    ([Re.CapPlus Re.Digit] ++ Re.lit "_" ++ [Re.CapPlus Re.Digit]
     ++ Re.lit "_" ++ [Re.CapPlus Re.Digit]).

(** [int(s)] for a string of decimal digits. *)
Definition int_of_digits (ds : list ascii) : Z :=
  fold_left (fun acc c => 10 * acc + (Z.of_nat (nat_of_ascii c) - 48)) ds 0.

(** [parse_file_name(file_name)]: the stage coordinates [x, y, z]. *)
Definition parse_file_name (file_name : string) : result (list Z) :=
  let file_name := basename file_name in
  let m := Re.search pattern_xyz file_name in
  let m := match m with
           | None => Re.search pattern_triple file_name
           | Some _ => m
           end in
  match m with
  | None => raise (ValueError ("Invalid name " ++ file_name)%string)
  | Some groups => ret (map int_of_digits groups)
  end.

(* ================================================================== *)
(** ** Table cells, tiles and rows *)

(** An element of the flat list [flist], and a cell of the table: an
    [int] or a [str]. *)
Inductive cell : Type :=
| CInt (z : Z)
| CStr (s : string).

(** A record of the table before [Z_end] is added (seven columns). *)
Module Tile.
Record t : Type := mk {
  X : BinNums.Z;
  Y : BinNums.Z;
  Z : BinNums.Z;
  nfrms : BinNums.Z;
  ysize : BinNums.Z;
  xsize : BinNums.Z;
  filename : string
}.
End Tile.

(** A record of [data_frame]: columns [X], [Y], [Z], [nfrms], [ysize],
    [xsize], [filename], [Z_end]. *)
Module Row.
Record t : Type := mk {
  X : BinNums.Z;
  Y : BinNums.Z;
  Z : BinNums.Z;
  nfrms : BinNums.Z;
  ysize : BinNums.Z;
  xsize : BinNums.Z;
  filename : string;
  Z_end : BinNums.Z
}.
End Row.

(** A frame: rows in row order, each with its index label. *)
Definition frame (A : Type) : Type := list (nat * A).

Definition data_frame : Type := frame Row.t.

Definition labels {A : Type} (df : frame A) : list nat := map fst df.

(** The columns of [data_frame], by name. *)
Inductive column : Type :=
| ColX | ColY | ColZ | ColNfrms | ColYsize | ColXsize | ColFilename | ColZend.

Definition column_of_name (name : string) : option column :=
  if String.eqb name "X" then Some ColX
  else if String.eqb name "Y" then Some ColY
  else if String.eqb name "Z" then Some ColZ
  else if String.eqb name "nfrms" then Some ColNfrms
  else if String.eqb name "ysize" then Some ColYsize
  else if String.eqb name "xsize" then Some ColXsize
  else if String.eqb name "filename" then Some ColFilename
  else if String.eqb name "Z_end" then Some ColZend
  else None.

Definition cell_at (c : column) (r : Row.t) : cell :=
  match c with
  | ColX => CInt (Row.X r)
  | ColY => CInt (Row.Y r)
  | ColZ => CInt (Row.Z r)
  | ColNfrms => CInt (Row.nfrms r)
  | ColYsize => CInt (Row.ysize r)
  | ColXsize => CInt (Row.xsize r)
  | ColFilename => CStr (Row.filename r)
  | ColZend => CInt (Row.Z_end r)
  end.

(** Order of the values of one column: integers by value, strings
    lexicographically.  A column holds one kind of cell, so the mixed
    cases are never compared. *)
Definition cell_compare (a b : cell) : comparison :=
  match a, b with
  | CInt x, CInt y => Z.compare x y
  | CStr x, CStr y => String.compare x y
  | CInt _, CStr _ => Lt
  | CStr _, CInt _ => Gt
  end.

(** Lexicographic order of key tuples. *)
Fixpoint key_compare (k1 k2 : list cell) : comparison :=
  match k1, k2 with
  | [], [] => Eq
  | [], _ :: _ => Lt
  | _ :: _, [] => Gt
  | a :: k1', b :: k2' =>
      match cell_compare a b with
      | Eq => key_compare k1' k2'
      | c => c
      end
  end.

(* ================================================================== *)
(** ** [DataFrame.sort_values] and [DataFrame.groupby] *)

Section Sorting.
Context {A K : Type}.
Variable key : A -> K.
Variable cmp : K -> K -> comparison.

(** [ascending=True] compares keys by [cmp]; [ascending=False] by the
    opposite order. *)
Definition directed (ascending : bool) (a b : K) : comparison :=
  if ascending then cmp a b else cmp b a.

(** Insert [x], which preceded every row of [l] in the input, before
    the first row whose key is not smaller. *)
Fixpoint insert_row (ascending : bool) (x : nat * A) (l : frame A)
  : frame A :=
  match l with
  | [] => [x]
  | y :: l' =>
      match directed ascending (key (snd x)) (key (snd y)) with
      | Gt => y :: insert_row ascending x l'
      | _ => x :: y :: l'
      end
  end.

(** [df.sort_values(by, ascending=flag)] with several keys: a stable
    sort on the key tuple, every key in the direction of the one flag;
    the rows keep their labels. *)
Definition sort_values (ascending : bool) (df : frame A) : frame A :=
  fold_right (insert_row ascending) [] df.
End Sorting.

Section Grouping.
Context {A : Type}.
Variable key : A -> cell.

Fixpoint insert_key (k : cell) (l : list cell) : list cell :=
  match l with
  | [] => [k]
  | y :: l' =>
      match cell_compare k y with
      | Lt => k :: y :: l'
      | Eq => y :: l'
      | Gt => y :: insert_key k l'
      end
  end.

(** The distinct values of the grouping column, ascending. *)
Definition group_keys (df : frame A) : list cell :=
  fold_right insert_key [] (map (fun r => key (snd r)) df).

Definition has_key (k : cell) (r : nat * A) : bool :=
  match cell_compare (key (snd r)) k with
  | Eq => true
  | _ => false
  end.

(** Iterating [df.groupby(col)] (default [sort=True]): one pair
    [(name, group)] for each distinct value of the column, by ascending
    value; a group holds the rows with that value, in the order of
    [df]. *)
Definition groupby (df : frame A) : list (cell * frame A) :=
  map (fun k => (k, filter (has_key k) df)) (group_keys df).
End Grouping.

(** [df.loc[labels]]: the rows with the given labels, in the order of
    [labels]; a label that is not in the index raises [KeyError]. *)
Fixpoint loc {A : Type} (df : frame A) (ls : list nat) : result (frame A) :=
  match ls with
  | [] => ret []
  | l :: ls' =>
      match find (fun r => Nat.eqb (fst r) l) df with
      | None => raise (KeyError "label not in index")
      | Some r => rest <- loc df ls' ;; ret (r :: rest)
      end
  end.

(** [l[start::step]] *)
Fixpoint slice_step {A : Type} (step : nat) (skip : nat) (l : list A)
  : list A :=
  match l with
  | [] => []
  | x :: l' =>
      match skip with
      | O => x :: slice_step step (step - 1) l'
      | S n => slice_step step n l'
      end
  end.

Definition slice_from {A : Type} (start step : nat) (l : list A) : list A :=
  slice_step step start l.

(* ================================================================== *)
(** ** [FileMatrix.load_dir] *)

(** One step of [os.walk(dir)]: [(root, dirs, files)]. *)
Record walk_entry : Type := mkEntry {
  w_root : string;
  w_dirs : list string;
  w_files : list string
}.

(** What [load_dir] changes while it walks: the flat list [flist] and the
    lines given to [logger.error]. *)
Record load_state : Type := mkLoad {
  flist : list cell;
  logged : list string
}.

Definition log_error (msg : string) (st : load_state) : load_state :=
  mkLoad (flist st) (logged st ++ [msg]).

(** The dict [data]: the seven columns cut out of the flat list. *)
Record columns : Type := mkColumns {
  data_X : list cell;
  data_Y : list cell;
  data_Z : list cell;
  data_nfrms : list cell;
  data_ysize : list cell;
  data_xsize : list cell;
  data_filename : list cell
}.

Definition same_length (d : columns) : bool :=
  let n := List.length (data_X d) in
  (Nat.eqb (List.length (data_Y d)) n
   && Nat.eqb (List.length (data_Z d)) n
   && Nat.eqb (List.length (data_nfrms d)) n
   && Nat.eqb (List.length (data_ysize d)) n
   && Nat.eqb (List.length (data_xsize d)) n
   && Nat.eqb (List.length (data_filename d)) n)%bool.

(** One record of the table.  The six numeric columns hold [int]s and
    the column [filename] holds [str]s; a cell of the other kind is
    refused here (pandas would fail on it at the sort or at the sum). *)
Definition tile_of_cells (x y z n ys xs f : cell) : result Tile.t :=
  match x, y, z, n, ys, xs, f with
  | CInt x, CInt y, CInt z, CInt n, CInt ys, CInt xs, CStr f =>
      ret (Tile.mk x y z n ys xs f)
  | _, _, _, _, _, _, _ =>
      raise (TypeError "column of mixed types")
  end.

Fixpoint zip_columns (xs ys zs ns yss xss fs : list cell)
  : result (list Tile.t) :=
  match xs, ys, zs, ns, yss, xss, fs with
  | x :: xs, y :: ys, z :: zs, n :: ns, s :: yss, t :: xss, f :: fs =>
      r <- tile_of_cells x y z n s t f ;;
      rest <- zip_columns xs ys zs ns yss xss fs ;;
      ret (r :: rest)
  | _, _, _, _, _, _, _ => ret []
  end.

(** [pd.DataFrame(data)]: columns of unequal length are refused; the
    rows are numbered from 0. *)
Definition DataFrame (d : columns) : result (frame Tile.t) :=
  if same_length d then
    rows <- zip_columns (data_X d) (data_Y d) (data_Z d) (data_nfrms d)
                        (data_ysize d) (data_xsize d) (data_filename d) ;;
    ret (combine (seq 0 (List.length rows)) rows)
  else raise (ValueError "arrays must all be same length").

(** [df['Z_end'] = df['Z'] + df['nfrms']] *)
Definition add_Z_end (t : Tile.t) : Row.t :=
  Row.mk (Tile.X t) (Tile.Y t) (Tile.Z t) (Tile.nfrms t) (Tile.ysize t)
         (Tile.xsize t) (Tile.filename t) (Tile.Z t + Tile.nfrms t).

Definition key_ZYX (t : Tile.t) : list cell :=
  [CInt (Tile.Z t); CInt (Tile.Y t); CInt (Tile.X t)].

Section Load.

(** The collaborator [InputFile] (module [inputfile], not part of this
    file): opening [name] and reading [nfrms], [ysize], [xsize] either
    gives the three integers or raises. *)
Variable InputFile : string -> result (Z * Z * Z).

(** The nested function [parse_and_append(name, flist)]. *)
Definition parse_and_append (name : string) (st : load_state)
  : result load_state :=
  let body :=
    fields <- parse_file_name name ;;
    dims <- InputFile name ;;
    let '(nfrms, ysize, xsize) := dims in
    ret (fields ++ [nfrms; ysize; xsize]) in
  match body with
  | inr fields =>
      ret (mkLoad (flist st ++ map CInt fields ++ [CStr name]) (logged st))
  | inl e =>
      if caught e then ret (log_error (args0 e) st) else raise e
  end.

(** The loop [for f in files] of one directory. *)
Fixpoint load_files (root : string) (files : list string) (st : load_state)
  : result load_state :=
  match files with
  | [] => ret st
  | f :: files' =>
      match parse_and_append (path_join root f) st with
      | inr st' => load_files root files' st'
      | inl e =>
          if caught e then load_files root files' (log_error (args0 e) st)
          else raise e
      end
  end.

(** The body of [for root, dirs, files in os.walk(dir)]. *)
Definition load_entry (entry : walk_entry) (st : load_state)
  : result load_state :=
  let root := w_root entry in
  if String.eqb (basename root) "" then load_files root (w_files entry) st
  else
    match parse_and_append root st with
    | inr st' => ret st'
    | inl e =>
        if caught e then
          load_files root (w_files entry) (log_error (args0 e) st)
        else raise e
    end.

Fixpoint load_walk (walk : list walk_entry) (st : load_state)
  : result load_state :=
  match walk with
  | [] => ret st
  | entry :: walk' => st' <- load_entry entry st ;; load_walk walk' st'
  end.

Definition data_of (fl : list cell) : columns :=
  mkColumns (slice_from 0 7 fl) (slice_from 1 7 fl) (slice_from 2 7 fl)
            (slice_from 3 7 fl) (slice_from 4 7 fl) (slice_from 5 7 fl)
            (slice_from 6 7 fl).

(** The table built from the flat list (lines 99 to 106). *)
Definition frame_of_flist (fl : list cell) : result data_frame :=
  df <- DataFrame (data_of fl) ;;
  let df := sort_values key_ZYX key_compare true df in
  ret (map (fun r => (fst r, add_Z_end (snd r))) df).

(** [load_dir], given what [os.walk] yields: the table and the log. *)
Definition load_dir (walk : list walk_entry)
  : result (data_frame * list string) :=
  st <- load_walk walk (mkLoad [] []) ;;
  df <- frame_of_flist (flist st) ;;
  ret (df, logged st).

End Load.

(* ================================================================== *)
(** ** [networkx.Graph] and connected components *)

Definition mem (n : nat) (l : list nat) : bool := existsb (Nat.eqb n) l.

(** An undirected graph: nodes in insertion order, edges as added. *)
Record Graph : Type := mkGraph {
  nodes : list nat;
  edges : list (nat * nat)
}.

Definition empty_graph : Graph := mkGraph [] [].

Definition add_node (n : nat) (G : Graph) : Graph :=
  if mem n (nodes G) then G else mkGraph (nodes G ++ [n]) (edges G).

Definition add_edge (u v : nat) (G : Graph) : Graph :=
  let G := add_node v (add_node u G) in
  mkGraph (nodes G) (edges G ++ [(u, v)]).

Definition add_edges_from (pairs : list (nat * nat)) (G : Graph) : Graph :=
  fold_left (fun G e => add_edge (fst e) (snd e) G) pairs G.

(** [G[v]]: the neighbours of [v]. *)
Definition neighbors (G : Graph) (v : nat) : list nat :=
  flat_map (fun e =>
              if Nat.eqb (fst e) v then [snd e]
              else if Nat.eqb (snd e) v then [fst e] else [])
           (edges G).

(** One level of [_plain_bfs]: every node of the level that was not seen
    is marked and its neighbours go to the next level. *)
Fixpoint visit_level (G : Graph) (level seen next : list nat)
  : list nat * list nat :=
  match level with
  | [] => (seen, next)
  | v :: level' =>
      if mem v seen then visit_level G level' seen next
      else visit_level G level' (seen ++ [v]) (next ++ neighbors G v)
  end.

(** [_plain_bfs(G, source)], level by level; [fuel] bounds the number of
    levels. *)
Fixpoint plain_bfs (fuel : nat) (G : Graph) (seen level : list nat)
  : list nat :=
  match fuel with
  | O => seen
  | S fuel' =>
      match level with
      | [] => seen
      | _ :: _ =>
          let '(seen', next) := visit_level G level seen [] in
          plain_bfs fuel' G seen' next
      end
  end.

(** The component of [v]; a level that marks no node ends the search, so
    there are at most as many levels as nodes, plus one. *)
Definition component_of (G : Graph) (v : nat) : list nat :=
  plain_bfs (S (List.length (nodes G))) G [] [v].

(** [nx.connected_components(G)]: one component for each node of [G], in
    node order, that no earlier component holds. *)
Fixpoint components_from (G : Graph) (vs seen : list nat)
  : list (list nat) :=
  match vs with
  | [] => []
  | v :: vs' =>
      if mem v seen then components_from G vs' seen
      else
        let c := component_of G v in
        c :: components_from G vs' (seen ++ c)
  end.

(** [nx.connected_component_subgraphs(G)], each subgraph given by its
    [nodes()]: the nodes of [G] that the component holds.  networkx does
    not fix the order of [nodes()]; they are taken here in the order of
    [G], which only matters to the order of rows of equal sort keys. *)
Definition connected_component_subgraphs (G : Graph) : list (list nat) :=
  map (fun c => filter (fun n => mem n c) (nodes G))
      (components_from G (nodes G) []).

(* ================================================================== *)
(** ** [FileMatrix.slices] *)

(** The rows [u] with [u.Z <= row.Z] and [u.Z_end >= row.Z_end]. *)
Definition enclosing (row : Row.t) (r : nat * Row.t) : bool :=
  (Z.leb (Row.Z (snd r)) (Row.Z row)
   && Z.geb (Row.Z_end (snd r)) (Row.Z_end row))%bool.

(** The body of the second loop of [slices] for one row. *)
Definition link_row (df : data_frame) (row : Row.t) (G : Graph)
  : result Graph :=
  let view := filter (enclosing row) df in
  let idx := labels view in
  let pairs := combine idx (tl idx) in
  let G := add_edges_from pairs G in
  match idx with
  | [] => raise (IndexError "index 0 is out of bounds")
  | first :: _ => ret (add_edge first (last idx first) G)
  end.

Fixpoint link_rows (df : data_frame) (rows : data_frame) (G : Graph)
  : result Graph :=
  match rows with
  | [] => ret G
  | r :: rows' => G' <- link_row df (snd r) G ;; link_rows df rows' G'
  end.

Definition slice_graph (df : data_frame) : result Graph :=
  let G := fold_left (fun G r => add_node (fst r) G) df empty_graph in
  link_rows df df G.

(** [slices]: the node lists of the connected components. *)
Definition slices (df : data_frame) : result (list (list nat)) :=
  G <- slice_graph df ;;
  ret (connected_component_subgraphs G).

(* ================================================================== *)
(** ** The generator [tiles_along_dir] *)

(** The tuple sent to the generator: [(sort keys, ascending, group key)]. *)
Definition got_t : Type := (list string * bool * string)%type.

Fixpoint resolve (names : list string) : result (list column) :=
  match names with
  | [] => ret []
  | n :: names' =>
      match column_of_name n with
      | None => raise (KeyError n)
      | Some c => cs <- resolve names' ;; ret (c :: cs)
      end
  end.

Definition row_key (cs : list column) (r : Row.t) : list cell :=
  map (fun c => cell_at c r) cs.

(** [self.data_frame.loc[s.nodes()].sort_values(got[0],
    ascending=got[1]).groupby(got[2])], as the list of its groups. *)
Definition view (df : data_frame) (s : list nat) (got : got_t)
  : result (list data_frame) :=
  let '(by_, ascending, group_key) := got in
  sub <- loc df s ;;
  cs <- resolve by_ ;;
  let sorted := sort_values (row_key cs) key_compare ascending sub in
  match column_of_name group_key with
  | None => raise (KeyError group_key)
  | Some c => ret (map snd (groupby (cell_at c) sorted))
  end.

(** What a generator of groups yields: a group, or [None]. *)
Definition item : Type := option data_frame.

(** Where [tiles_along_dir] is suspended. *)
Inductive gen_state : Type :=
| GenStart
    (* not started *)
| GenAwait (s : list nat) (rest : list (list nat))
    (* at [got = yield], in the iteration of slice [s] *)
| GenGroups (groups : list data_frame) (rest : list (list nat)).
    (* at [yield group]; [groups] are still to come *)

Inductive step : Type :=
| Yielded (it : item) (st : gen_state)
| Stopped
| Raised (e : exn).

(** The head of the loop [for s in self.slices]. *)
Definition next_slice (rest : list (list nat)) : step :=
  match rest with
  | [] => Stopped
  | s :: rest' => Yielded None (GenAwait s rest')
  end.

(** The head of the loop [for name, group in view]. *)
Definition next_group (groups : list data_frame) (rest : list (list nat))
  : step :=
  match groups with
  | g :: groups' => Yielded (Some g) (GenGroups groups' rest)
  | [] => next_slice rest
  end.

(** [g.send(v)]; [next(g)] is [g.send(None)]. *)
Definition send (df : data_frame) (st : gen_state) (v : option got_t)
  : step :=
  match st with
  | GenStart =>
      match v with
      | Some _ =>
          Raised (TypeError
                    "can't send non-None value to a just-started generator")
      | None =>
          match slices df with
          | inl e => Raised e
          | inr ss => next_slice ss
          end
      end
  | GenAwait s rest =>
      match v with
      | None => Raised (TypeError "'NoneType' object is not subscriptable")
      | Some got =>
          match view df s got with
          | inl e => Raised e
          | inr groups => next_group groups rest
          end
      end
  | GenGroups groups rest => next_group groups rest
  end.

(** How iterating a generator to exhaustion ends. *)
Inductive ending : Type :=
| Exhausted
| Failed (e : exn).

(** The items a generator yields, and its end. *)
Definition trace : Type := (list item * ending)%type.

(** [yield from g]: the items of [g] are passed on, [g] being resumed
    with [None]; [None] is out of fuel. *)
Fixpoint yield_from (fuel : nat) (df : data_frame) (st : gen_state)
  : option trace :=
  match fuel with
  | O => None
  | S fuel' =>
      match send df st None with
      | Yielded it st' =>
          match yield_from fuel' df st' with
          | Some (items, e) => Some (it :: items, e)
          | None => None
          end
      | Stopped => Some ([], Exhausted)
      | Raised e => Some ([], Failed e)
      end
  end.

Section Generators.

(** Whether a [StopIteration] that escapes a generator body becomes a
    [RuntimeError] (PEP 479, the rule from Python 3.7 on) or ends the
    generator silently (the rule before). *)
Variable generator_stop : bool.

Definition stop_iteration_escapes : trace :=
  if generator_stop
  then ([], Failed (RuntimeError "generator raised StopIteration"))
  else ([], Exhausted).

(** The common body of [tiles_along_X] and [tiles_along_Y]:
    [g = self.tiles_along_dir; next(g); yield g.send(got);
     yield from g]. *)
Definition drive (fuel : nat) (df : data_frame) (got : got_t)
  : option trace :=
  match send df GenStart None with
  | Stopped => Some stop_iteration_escapes
  | Raised e => Some ([], Failed e)
  | Yielded _ g1 =>
      match send df g1 (Some got) with
      | Stopped => Some stop_iteration_escapes
      | Raised e => Some ([], Failed e)
      | Yielded it g2 =>
          match yield_from fuel df g2 with
          | Some (items, e) => Some (it :: items, e)
          | None => None
          end
      end
  end.

(** A group has at least one row, so a catalog of [n] rows yields at
    most [n] groups, one [None] and the end. *)
Definition enough (df : data_frame) : nat := S (S (List.length df)).

Definition tiles_along_X (df : data_frame) (ascending_tiles_X : bool)
  : option trace :=
  drive (enough df) df (["Z"; "X"; "Y"], ascending_tiles_X, "Y").

Definition tiles_along_Y (df : data_frame) (ascending_tiles_Y : bool)
  : option trace :=
  drive (enough df) df (["Z"; "Y"; "X"], ascending_tiles_Y, "X").

(* ================================================================ *)
(** ** [FileMatrix.full_height] *)

(** [group[name]] *)
Definition getitem (group : data_frame) (name : string)
  : result (list cell) :=
  match column_of_name name with
  | None => raise (KeyError name)
  | Some c => ret (map (fun r => cell_at c (snd r)) group)
  end.

(** The numbers of a series; arithmetic on strings is refused. *)
Fixpoint numbers (l : list cell) : result (list Z) :=
  match l with
  | [] => ret []
  | CInt z :: l' => zs <- numbers l' ;; ret (z :: zs)
  | CStr _ :: _ => raise (TypeError "unsupported operand type(s)")
  end.

(** [Series.diff()]: [NaN] (here [None]) for the first element, then
    the successive differences. *)
Fixpoint diff_from (prev : Z) (l : list Z) : list (option Z) :=
  match l with
  | [] => []
  | z :: l' => Some (z - prev) :: diff_from z l'
  end.

Definition diff (l : list Z) : list (option Z) :=
  match l with
  | [] => []
  | z :: l' => None :: diff_from z l'
  end.

(** [rint]: 0 for [NaN], else the nearest integer; the numbers met
    here are integral. *)
Definition rint (x : option Z) : Z :=
  match x with
  | None => 0
  | Some z => z
  end.

Definition sum (l : list Z) : Z := fold_left Z.add l 0.

Fixpoint minus (a b : list Z) : list Z :=
  match a, b with
  | x :: a', y :: b' => (x - y) :: minus a' b'
  | _, _ => []
  end.

(** [group.iloc[0][name]] *)
Definition iloc0 (group : data_frame) (name : string) : result Z :=
  match group with
  | [] => raise (IndexError "single positional indexer is out-of-bounds")
  | r :: _ =>
      match column_of_name name with
      | None => raise (KeyError name)
      | Some c =>
          match cell_at c (snd r) with
          | CInt z => ret z
          | CStr _ => raise (TypeError "unsupported operand type(s)")
          end
      end
  end.

(** The body of the loop of [gen()] for one item of [tiles_along_Y];
    [ypos] is the name of the column read for the position, ['Ys'] in
    the source. *)
Definition column_height (ypos : string) (it : item) : result Z :=
  match it with
  | None => raise (TypeError "'NoneType' object is not subscriptable")
  | Some group =>
      ysize <- (c <- getitem group "ysize" ;; numbers c) ;;
      Ys <- (c <- getitem group ypos ;; numbers c) ;;
      let overlap_sum := sum (minus ysize (map rint (diff Ys))) in
      first_ysize <- iloc0 group "ysize" ;;
      let overlap_sum := overlap_sum - first_ysize in
      first_Ys <- iloc0 group ypos ;;
      ret (rint (Some (sum ysize - overlap_sum + first_Ys)))
  end.

(** The heights [gen()] yields, up to the first that raises. *)
Fixpoint heights (ypos : string) (items : list item) : result (list Z) :=
  match items with
  | [] => ret []
  | it :: items' =>
      h <- column_height ypos it ;;
      hs <- heights ypos items' ;;
      ret (h :: hs)
  end.

(** [max(x for x in gen())] *)
Definition max_of (hs : list Z) : result Z :=
  match hs with
  | [] => raise (ValueError "max() arg is an empty sequence")
  | h :: hs' => ret (fold_left Z.max hs' h)
  end.

Definition full_height_on (ypos : string) (df : data_frame)
           (ascending_tiles_Y : bool) : option (result Z) :=
  match tiles_along_Y df ascending_tiles_Y with
  | None => None
  | Some (items, e) =>
      Some (hs <- heights ypos items ;;
            match e with
            | Failed e => raise e
            | Exhausted => max_of hs
            end)
  end.

(** [full_height] reads the column ['Ys']. *)
Definition full_height (df : data_frame) (ascending_tiles_Y : bool)
  : option (result Z) :=
  full_height_on "Ys" df ascending_tiles_Y.

End Generators.

(* ================================================================== *)
(** * Vocabulary of the statements *)

(** ** What a pattern accepts *)

Definition of_class (cl : Re.cclass) (a : list ascii) : Prop :=
  Forall (fun c => Re.cclass_matches cl c = true) a.

(** The strings of which a prefix matches the items [p]. *)
Fixpoint accepts (p : list Re.node) (s : list ascii) : Prop :=
  match p with
  | [] => True
  | Re.One cl :: p' =>
      exists c s',
        s = c :: s' /\ Re.cclass_matches cl c = true /\ accepts p' s'
  | Re.Star cl :: p' =>
      exists a b, s = a ++ b /\ of_class cl a /\ accepts p' b
  | Re.CapPlus cl :: p' =>
      exists a b, s = a ++ b /\ a <> [] /\ of_class cl a /\ accepts p' b
  end.

(** A run of one decimal digit or more. *)
Definition digits (d : list ascii) : Prop :=
  d <> [] /\ Forall (fun c => Re.is_digit c = true) d.

Definition one_line (l : list ascii) : Prop :=
  Forall (fun c => c <> newline) l.

(** A base name with [x_<digits>], later [y_<digits>], later
    [z_<digits>], the characters before each on one line. *)
Definition xyz_named (s : list ascii) : Prop :=
  exists p dx m1 dy m2 dz q,
    s = p ++ list_ascii_of_string "x_" ++ dx
          ++ m1 ++ list_ascii_of_string "y_" ++ dy
          ++ m2 ++ list_ascii_of_string "z_" ++ dz ++ q
    /\ digits dx /\ digits dy /\ digits dz
    /\ one_line p /\ one_line m1 /\ one_line m2.

(** A base name that begins with [<digits>_<digits>_<digits>]. *)
Definition triple_named (s : list ascii) : Prop :=
  exists d1 d2 d3 q,
    s = d1 ++ list_ascii_of_string "_" ++ d2
           ++ list_ascii_of_string "_" ++ d3 ++ q
    /\ digits d1 /\ digits d2 /\ digits d3.

(** ** Candidates, survivors and the table they make *)

(** The seven elements one tile puts on the flat list. *)
Definition cells_of_tile (t : Tile.t) : list cell :=
  [CInt (Tile.X t); CInt (Tile.Y t); CInt (Tile.Z t); CInt (Tile.nfrms t);
   CInt (Tile.ysize t); CInt (Tile.xsize t); CStr (Tile.filename t)].

Definition tile_of_fields (fields : list Z) (dims : Z * Z * Z)
           (name : string) : Tile.t :=
  let '(nfrms, ysize, xsize) := dims in
  Tile.mk (nth 0 fields 0) (nth 1 fields 0) (nth 2 fields 0)
          nfrms ysize xsize name.

(** The paths [load_dir] hands to [parse_and_append]. *)
Definition entry_candidates (entry : walk_entry) : list string :=
  if String.eqb (basename (w_root entry)) ""
  then map (path_join (w_root entry)) (w_files entry)
  else [w_root entry].

Definition candidates (walk : list walk_entry) : list string :=
  flat_map entry_candidates walk.

Section Candidates.

(** The collaborator [InputFile], as in [load_dir]. *)
Variable InputFile : string -> result (Z * Z * Z).

(** What one candidate path becomes: a tile, or the exception of its
    parse or of its metadata read. *)
Definition candidate_tile (name : string) : result Tile.t :=
  fields <- parse_file_name name ;;
  dims <- InputFile name ;;
  ret (tile_of_fields fields dims name).

(** The tile a candidate adds to the catalog, and the line it logs. *)
Definition survivor (name : string) : list Tile.t :=
  match candidate_tile name with
  | inr t => [t]
  | inl _ => []
  end.

Definition complaint (name : string) : list string :=
  match candidate_tile name with
  | inr _ => []
  | inl e => [args0 e]
  end.

Definition survivors (names : list string) : list Tile.t :=
  flat_map survivor names.

Definition complaints (names : list string) : list string :=
  flat_map complaint names.

Definition extend (names : list string) (st : load_state) : load_state :=
  mkLoad (flist st ++ List.concat (map cells_of_tile (survivors names)))
         (logged st ++ complaints names).

Definition reader_handled : Prop :=
  forall name e, InputFile name = inl e -> caught e = true.

End Candidates.

(** The table of a list of tiles: numbered in traversal order, sorted
    by [(Z, Y, X)], with [Z_end]. *)
Definition table_of (ts : list Tile.t) : data_frame :=
  map (fun r => (fst r, add_Z_end (snd r)))
      (sort_values key_ZYX key_compare true
                   (combine (seq 0 (List.length ts)) ts)).

(** ** Orders *)

(** What the sorting and grouping lemmas ask of an order given by a
    three-way comparison. *)
Class CompareOrder {K : Type} (cmp : K -> K -> comparison) : Prop := {
  cmp_refl : forall a, cmp a a = Eq;
  cmp_eq : forall a b, cmp a b = Eq -> a = b;
  cmp_antisym : forall a b, cmp b a = CompOpp (cmp a b);
  cmp_trans : forall a b c, cmp a b = Lt -> cmp b c = Lt -> cmp a c = Lt
}.

Definition cell_lt (a b : cell) : Prop := cell_compare a b = Lt.

Section Order.
Context {A K : Type}.
Variable key : A -> K.
Variable cmp : K -> K -> comparison.

(** [a] may stand before [b] in a frame sorted in the given direction. *)
Definition in_order (ascending : bool) (a b : nat * A) : Prop :=
  directed cmp ascending (key (snd a)) (key (snd b)) <> Gt.

(** The rows whose key is [k]. *)
Definition keyed (k : K) (r : nat * A) : bool :=
  match cmp (key (snd r)) k with
  | Eq => true
  | _ => false
  end.

End Order.

(** The order as the specification words it: the flag turns the first
    key only, the other keys always ascend. *)
Definition primary_compare (ascending_primary : bool) (k1 k2 : list cell)
  : comparison :=
  match k1, k2 with
  | a :: k1', b :: k2' =>
      match directed cell_compare ascending_primary a b with
      | Eq => key_compare k1' k2'
      | c => c
      end
  | _, _ => key_compare k1 k2
  end.

Definition sort_values_primary {A : Type} (key : A -> list cell)
           (ascending_primary : bool) (df : frame A) : frame A :=
  sort_values key (primary_compare ascending_primary) true df.


(** The groups of a frame, as [view] lists them. *)
Definition groups_of (c : column) (sorted : data_frame) : list data_frame :=
  map (fun k => filter (has_key (cell_at c) k) sorted)
      (group_keys (cell_at c) sorted).

(** A group [g] yielded from the rows [sub] of a slice, for the sort
    keys [cs], the flag and the grouping column [c]: it is ordered by
    the whole key tuple in the direction of the flag, and its rows of
    one key tuple stand as they stand in [sub]. *)
Definition flag_sorted (cs : list column) (ascending : bool) (c : column)
           (sub g : data_frame) : Prop :=
  StronglySorted (in_order (row_key cs) key_compare ascending) g
  /\ exists k0,
      forall k,
        filter (keyed (row_key cs) key_compare k) g
        = filter (keyed (row_key cs) key_compare k)
                 (filter (has_key (cell_at c) k0) sub).

(** ** Graphs *)

(** Every end of an edge is a node. *)
Definition well_formed (G : Graph) : Prop :=
  forall e, In e (edges G) -> In (fst e) (nodes G) /\ In (snd e) (nodes G).

Section Closure.
Variable G : Graph.

(** Every neighbour of a marked node is marked or waits in the level. *)
Definition frontier (seen level : list nat) : Prop :=
  forall u w, In u seen -> In w (neighbors G u) -> In w seen \/ In w level.

Definition closed (S : list nat) : Prop :=
  forall u w, In u S -> In w (neighbors G u) -> In w S.

Definition unseen (seen : list nat) : nat :=
  List.length (filter (fun n => negb (mem n seen)) (nodes G)).

End Closure.

(** The edges one row adds: the chain through its enclosing rows, and
    the edge from the first to the last of them. *)
Definition row_edges (df : data_frame) (row : Row.t) : list (nat * nat) :=
  let idx := labels (filter (enclosing row) df) in
  combine idx (tl idx) ++ [(hd 0%nat idx, last idx (hd 0%nat idx))].

(** The nodes of the graph: the labels of the frame, each once, in row
    order. *)
Definition frame_nodes (df : data_frame) : list nat :=
  nodes (fold_left (fun G r => add_node (fst r) G) df empty_graph).

(** ** Traces *)

(** [got[0]] when [got] is [None]. *)
Definition none_subscript : exn :=
  TypeError "'NoneType' object is not subscriptable".

(** What [yield from g] still passes on once the groups of the first
    slice are out: nothing if that was the only slice; else the [None]
    of the next [got = yield], and the [TypeError] of [got[0]]. *)
Definition after_slice (rest : list (list nat)) : trace :=
  match rest with
  | [] => ([], Exhausted)
  | _ :: _ => ([None], Failed none_subscript)
  end.


(** ** Sample trees and catalogs *)

(** A catalog is loaded by walking a tree; the examples read their
    metadata from this reader: every path opens and has 5 frames of
    100 by 100 pixels, but the paths that contain ["bad"] or end in
    [".txt"], for which it raises [RuntimeError]. *)
Definition sample_reader (name : string) : result (Z * Z * Z) :=
  match index 0 "bad" name, index 0 ".txt" name with
  | None, None => ret (5, 100, 100)
  | _, _ => raise (RuntimeError "cannot read metadata")
  end.

Definition sample_walk : list walk_entry :=
  [mkEntry "scan/" ["x_2_y_0_z_0"]
           ["x_0_y_0_z_0.tif"; "notes.txt"; "x_1_y_0_z_0_bad.tif";
            "0_90_0.tif"];
   mkEntry "scan/x_2_y_0_z_0" [] ["frame0.raw"]].

(** A tree whose only file is no tile. *)
Definition barren_walk : list walk_entry :=
  [mkEntry "barren/" [] ["notes.txt"]].

(** The tree of [two_deep]: a directory given as ["deep/"] with two tile
    files. *)
Definition two_deep_walk : list walk_entry :=
  [mkEntry "deep/" [] ["x_0_y_0_z_10.tif"; "x_0_y_0_z_0.tif"]].

(** Two tiles of depth ranges [0, 5) and [10, 15). *)
Definition two_deep : list Tile.t :=
  [Tile.mk 0 0 10 5 100 100 "deep/x_0_y_0_z_10.tif";
   Tile.mk 0 0 0 5 100 100 "deep/x_0_y_0_z_0.tif"].

(** Three tiles of depth range [0, 10), in the order of discovery. *)
Definition three_level : list Tile.t :=
  [Tile.mk 1 0 0 10 100 100 "x_1_y_0_z_0.tif";
   Tile.mk 0 0 0 10 100 100 "x_0_y_0_z_0.tif";
   Tile.mk 0 90 0 10 100 100 "x_0_y_90_z_0.tif"].


(** Two tiles of one row: [X = 0] and [X = 1], both at [Y = 0]. *)
Definition one_row : list Tile.t :=
  [Tile.mk 0 0 0 10 100 100 "x_0_y_0_z_0.tif";
   Tile.mk 1 0 0 10 100 100 "x_1_y_0_z_0.tif"].

(** Two tiles stacked along Y, and a single tile. *)
Definition stacked : list Tile.t :=
  [Tile.mk 0 0 0 10 100 100 "x_0_y_0_z_0.tif";
   Tile.mk 0 90 0 10 100 100 "x_0_y_90_z_0.tif"].

Definition single : list Tile.t :=
  [Tile.mk 0 0 0 10 50 50 "x_0_y_0_z_0.tif"].

(* ================================================================== *)
(** * Vocabulary of the further properties *)

(** ** The parser *)

(** The classes of the capturing groups of a pattern, in order. *)
Fixpoint cap_classes (p : list Re.node) : list Re.cclass :=
  match p with
  | [] => []
  | Re.CapPlus cl :: p' => cl :: cap_classes p'
  | _ :: p' => cap_classes p'
  end.

(** A string that does not begin with a decimal digit. *)
Definition not_digit_led (q : list ascii) : Prop :=
  match q with
  | [] => True
  | c :: _ => Re.is_digit c = false
  end.

(** ** Loading *)

Section Aborts.

Variable InputFile : string -> result (Z * Z * Z).

(** The exception, if any, with which a candidate aborts the load: its
    name parses, and the metadata read raises outside the handled
    classes. *)
Definition abort_of (name : string) : option exn :=
  match parse_file_name name with
  | inl _ => None
  | inr _ =>
      match InputFile name with
      | inl e => if caught e then None else Some e
      | inr _ => None
      end
  end.

(** The first abort among candidates, in the order they are tried. *)
Fixpoint first_abort (names : list string) : option exn :=
  match names with
  | [] => None
  | name :: names' =>
      match abort_of name with
      | Some e => Some e
      | None => first_abort names'
      end
  end.

End Aborts.

(** [a] may stand before [b] in the table: ascending [(Z, Y, X)]. *)
Definition zyx_le (a b : nat * Row.t) : Prop :=
  Row.Z (snd a) < Row.Z (snd b)
  \/ (Row.Z (snd a) = Row.Z (snd b)
      /\ (Row.Y (snd a) < Row.Y (snd b)
          \/ (Row.Y (snd a) = Row.Y (snd b)
              /\ Row.X (snd a) <= Row.X (snd b)))).

(** The rows at the coordinates [(x, y, z)]. *)
Definition at_xyz (x y z : Z) (r : nat * Row.t) : bool :=
  (Z.eqb (Row.X (snd r)) x && Z.eqb (Row.Y (snd r)) y
   && Z.eqb (Row.Z (snd r)) z)%bool.

(** A reader for which one file cannot be opened at all. *)
Definition locked_reader (name : string) : result (Z * Z * Z) :=
  match index 0 "locked" name with
  | Some _ => raise (OSError "permission denied")
  | None => sample_reader name
  end.

(** The walk of ["data"], a directory with two tile files and a
    subdirectory named as a tile that holds one more. *)
Definition plain_root_walk : list walk_entry :=
  [mkEntry "data" ["x_5_y_5_z_5"] ["x_0_y_0_z_0.tif"; "x_1_y_0_z_0.tif"];
   mkEntry "data/x_5_y_5_z_5" [] ["x_2_y_0_z_0.tif"]].

(** ** Slices *)

(** [v] and [w] are joined by a path of the graph. *)
Inductive connected (G : Graph) (v : nat) : nat -> Prop :=
| connected_here : connected G v v
| connected_step u w :
    connected G v u -> In w (neighbors G u) -> connected G v w.

(** The labels of the rows that enclose [row]: the index of the [view]
    that [slices] takes for it. *)
Definition enclosers (df : data_frame) (row : Row.t) : list nat :=
  labels (filter (enclosing row) df).

(** Two tiles that both enclose some tile of the catalog. *)
Definition co_enclosers (df : data_frame) (a b : nat) : Prop :=
  exists t, In t df /\ In a (enclosers df (snd t))
            /\ In b (enclosers df (snd t)).

(** Tiles joined by a chain of tiles of which each two neighbours are
    co-enclosers. *)
Inductive chained (df : data_frame) (a : nat) : nat -> Prop :=
| chained_here : chained df a a
| chained_step b c :
    chained df a b -> co_enclosers df b c -> chained df a c.

(** The depth ranges [[Z, Z_end)] of two rows have a frame in common. *)
Definition share_a_frame (r1 r2 : Row.t) : Prop :=
  exists z, Row.Z r1 <= z < Row.Z_end r1 /\ Row.Z r2 <= z < Row.Z_end r2.

(** The nodes of [G] that a component holds, in the order of [G]. *)
Definition held_nodes (G : Graph) (c : list nat) : list nat :=
  filter (fun n => mem n c) (nodes G).

(** A set of nodes that holds the whole class of each member. *)
Definition class_closed (G : Graph) (seen : list nat) : Prop :=
  forall x y, In x seen -> connected G x y -> In y seen.

(** The graph that [slices] builds of a catalog. *)
Definition tile_graph (df : data_frame) : Graph :=
  mkGraph (frame_nodes df) (flat_map (fun r => row_edges df (snd r)) df).

(** Two labels are in one of the slices. *)
Definition same_slice (ss : list (list nat)) (a b : nat) : Prop :=
  exists s, In s ss /\ In a s /\ In b s.

(** ** The generators *)

(** A consumer that keeps the protocol of [tiles_along_dir]: it starts
    the generator with [next], answers every [None] by sending the
    tuple [got], and collects the groups until the generator ends.  [v]
    is what it sends next; [None] is out of fuel. *)
Fixpoint converse (fuel : nat) (df : data_frame) (got : got_t)
         (st : gen_state) (v : option got_t)
  : option (list data_frame * ending) :=
  match fuel with
  | O => None
  | S fuel' =>
      match send df st v with
      | Yielded None st' => converse fuel' df got st' (Some got)
      | Yielded (Some g) st' =>
          match converse fuel' df got st' None with
          | Some (gs, e) => Some (g :: gs, e)
          | None => None
          end
      | Stopped => Some ([], Exhausted)
      | Raised e => Some ([], Failed e)
      end
  end.

(** The groups of each slice, slice by slice. *)
Definition views (df : data_frame) (got : got_t)
           (ss : list (list nat)) (gss : list (list data_frame)) : Prop :=
  Forall2 (fun s gs => view df s got = inr gs) ss gss.

(** [a] may stand before [b] in a group of tiles to be stitched along
    one axis: by [Z], then by the coordinate [along], in the direction
    of the flag. *)
Definition along_le (along : Row.t -> Z) (ascending : bool)
           (a b : nat * Row.t) : Prop :=
  if ascending
  then Row.Z (snd a) < Row.Z (snd b)
       \/ (Row.Z (snd a) = Row.Z (snd b) /\ along (snd a) <= along (snd b))
  else Row.Z (snd b) < Row.Z (snd a)
       \/ (Row.Z (snd b) = Row.Z (snd a) /\ along (snd b) <= along (snd a)).

(** What [full_height] raises on a catalog. *)
Definition full_height_error (generator_stop : bool) (df : data_frame)
  : exn :=
  match df with
  | _ :: _ => KeyError "Ys"
  | [] =>
      if generator_stop
      then RuntimeError "generator raised StopIteration"
      else ValueError "max() arg is an empty sequence"
  end.

(** ** Names with one [x_], one [y_] and one [z_] *)

(** Somewhere in [s], [a] is followed at once by [b]. *)
Fixpoint follows (a b : ascii) (s : list ascii) : bool :=
  match s with
  | [] => false
  | c :: s' =>
      match s' with
      | [] => false
      | d :: _ => (Ascii.eqb c a && Ascii.eqb d b) || follows a b s'
      end
  end.

(* ================================================================== *)
(** * Properties *)

(** ** The parser *)

Module ReFacts.
Import Re.

Lemma star_result {R : Type} (P : R -> Prop) cl (k : list ascii -> option R) :
  (forall s r, k s = Some r -> P r) ->
  forall s r, star cl k s = Some r -> P r.
Proof.
  intros Hk s; induction s as [|c s IH]; intros r H; simpl in H.
  - eauto.
  - destruct (cclass_matches cl c); [|eauto].
    destruct (star cl k s) eqn:E.
    + inversion H; subst; eauto.
    + eauto.
Qed.

Lemma star_cap_result {R : Type} (P : R -> Prop) cl
      (k : list ascii -> list ascii -> option R) :
  (forall g s r, k g s = Some r -> P r) ->
  forall s taken r, star_cap cl k taken s = Some r -> P r.
Proof.
  intros Hk s; induction s as [|c s IH]; intros taken r H; simpl in H.
  - eauto.
  - destruct (cclass_matches cl c); [|eauto].
    destruct (star_cap cl k (taken ++ [c]) s) eqn:E.
    + inversion H; subst; eauto.
    + eauto.
Qed.

(** A match returns one capture for each group of the pattern. *)
Lemma match_here_groups p :
  forall caps s caps',
    match_here p caps s = Some caps' ->
    List.length caps' = (List.length caps + group_count p)%nat.
Proof.
  induction p as [|n p IH]; intros caps s caps' H; simpl in H.
  - inversion H; subst. unfold group_count; simpl; lia.
  - unfold group_count in *; simpl.
    destruct n as [cl|cl|cl]; simpl.
    + destruct s as [|c s]; [discriminate|].
      destruct (cclass_matches cl c); [|discriminate].
      apply IH in H; lia.
    + eapply (star_result
                (fun r => List.length r
                          = (List.length caps
                             + list_sum (map captures p))%nat));
        [|exact H].
      intros s' r Hr. apply IH in Hr; lia.
    + destruct s as [|c s]; [discriminate|].
      destruct (cclass_matches cl c); [|discriminate].
      eapply (star_cap_result
                (fun r => List.length r
                          = (List.length caps
                             + S (list_sum (map captures p)))%nat));
        [|exact H].
      intros g s' r Hr.
      apply IH in Hr. rewrite length_app in Hr; simpl in Hr. lia.
Qed.

Lemma search_from_groups p :
  forall s caps, search_from p s = Some caps ->
                 List.length caps = group_count p.
Proof.
  intros s; induction s as [|c s IH]; intros caps H; simpl in H.
  - destruct (match_here p [] []) eqn:E; [|discriminate].
    inversion H; subst. now apply match_here_groups in E.
  - destruct (match_here p [] (c :: s)) eqn:E.
    + inversion H; subst. now apply match_here_groups in E.
    + auto.
Qed.

Lemma search_groups p s caps :
  search p s = Some caps -> List.length caps = group_count (body p).
Proof.
  unfold search. destruct (anchored p).
  - intros H. now apply match_here_groups in H.
  - apply search_from_groups.
Qed.
(** What the two greedy loops return was returned by the continuation
    on some split of the input after a run of the class. *)
Lemma star_sound {R : Type} cl (k : list ascii -> option R) :
  forall s r, star cl k s = Some r ->
              exists a b, s = a ++ b /\ of_class cl a /\ k b = Some r.
Proof.
  intros s; induction s as [|c s IH]; intros r H; simpl in H.
  - exists [], []. repeat split; [constructor|assumption].
  - destruct (cclass_matches cl c) eqn:M.
    + destruct (star cl k s) as [r'|] eqn:E.
      * inversion H; subst r'. destruct (IH r eq_refl) as (a & b & -> & Fa & K).
        exists (c :: a), b. repeat split; [constructor; assumption|assumption].
      * exists [], (c :: s). repeat split; [constructor|assumption].
    + exists [], (c :: s). repeat split; [constructor|assumption].
Qed.

Lemma star_cap_sound {R : Type} cl (k : list ascii -> list ascii -> option R) :
  forall s taken r, star_cap cl k taken s = Some r ->
    exists a b, s = a ++ b /\ of_class cl a /\ k (taken ++ a) b = Some r.
Proof.
  assert (stop : forall s taken r, k taken s = Some r ->
            exists a b, s = a ++ b /\ of_class cl a
                        /\ k (taken ++ a) b = Some r).
  { intros s taken r H. exists [], s. rewrite (app_nil_r taken).
    split; [reflexivity|]. split; [constructor|assumption]. }
  intros s; induction s as [|c s IH]; intros taken r H; simpl in H.
  - now apply stop.
  - destruct (cclass_matches cl c) eqn:M; [|now apply stop].
    destruct (star_cap cl k (taken ++ [c]) s) as [r'|] eqn:E;
      [|now apply stop].
    inversion H; subst r'.
    destruct (IH _ r E) as (a & b & -> & Fa & K).
    exists (c :: a), b. rewrite <- app_assoc in K.
    split; [reflexivity|]. split; [constructor; assumption|assumption].
Qed.

(** If the continuation succeeds after some run of the class, so does
    the greedy loop (perhaps after a longer run). *)
Lemma star_complete {R : Type} cl (k : list ascii -> option R) a b :
  of_class cl a -> k b <> None -> star cl k (a ++ b) <> None.
Proof.
  intros Fa K. induction Fa as [|c a M Fa IH]; simpl.
  - destruct b as [|c b]; [assumption|]. simpl.
    destruct (cclass_matches cl c); [|assumption].
    destruct (star cl k b); [discriminate|assumption].
  - rewrite M. destruct (star cl k (a ++ b)); [discriminate|contradiction].
Qed.

Lemma star_cap_complete {R : Type} cl
      (k : list ascii -> list ascii -> option R) a b :
  of_class cl a ->
  forall taken, k (taken ++ a) b <> None ->
                star_cap cl k taken (a ++ b) <> None.
Proof.
  intros Fa. induction Fa as [|c a M Fa IH]; intros taken K; simpl.
  - rewrite app_nil_r in K. destruct b as [|c b]; [assumption|]. simpl.
    destruct (cclass_matches cl c); [|assumption].
    destruct (star_cap cl k (taken ++ [c]) b); [discriminate|assumption].
  - rewrite M.
    specialize (IH (taken ++ [c])). rewrite <- app_assoc in IH.
    specialize (IH K).
    destruct (star_cap cl k (taken ++ [c]) (a ++ b));
      [discriminate|contradiction].
Qed.

(** The matcher succeeds exactly on the strings the items accept. *)
Lemma match_here_sound p :
  forall caps s caps', match_here p caps s = Some caps' -> accepts p s.
Proof.
  induction p as [|n p IH]; intros caps s caps' H; [exact I|].
  destruct n as [cl|cl|cl]; simpl in H |- *.
  - destruct s as [|c s]; [discriminate|].
    destruct (cclass_matches cl c) eqn:M; [|discriminate].
    exists c, s. eauto.
  - apply star_sound in H. destruct H as (a & b & -> & Fa & K).
    exists a, b. eauto.
  - destruct s as [|c s]; [discriminate|].
    destruct (cclass_matches cl c) eqn:M; [|discriminate].
    apply star_cap_sound in H. destruct H as (a & b & -> & Fa & K).
    exists (c :: a), b. repeat split.
    + discriminate.
    + constructor; assumption.
    + eauto.
Qed.

Lemma match_here_complete p :
  forall s, accepts p s -> forall caps, match_here p caps s <> None.
Proof.
  induction p as [|n p IH]; intros s H caps; [discriminate|].
  destruct n as [cl|cl|cl]; simpl in H |- *.
  - destruct H as (c & s' & -> & M & H). rewrite M. now apply IH.
  - destruct H as (a & b & -> & Fa & H).
    apply star_complete; [assumption|]. now apply IH.
  - destruct H as (a & b & -> & Ha & Fa & H).
    destruct a as [|c a]; [congruence|]. inversion Fa; subst.
    simpl. rewrite H2.
    apply star_cap_complete; [assumption|]. now apply IH.
Qed.

Lemma of_class_dot a : of_class Dot a <-> one_line a.
Proof.
  unfold of_class, one_line. rewrite !Forall_forall.
  split; intros H c Hc; specialize (H c Hc); simpl in *.
  - intros ->. discriminate.
  - apply negb_true_iff, Ascii.eqb_neq. assumption.
Qed.

Ltac break :=
  repeat match goal with
         | H : exists _, _ |- _ => destruct H
         | H : _ /\ _ |- _ => destruct H
         | H : Ascii.eqb _ _ = true |- _ => apply Ascii.eqb_eq in H
         | H : of_class Dot _ |- _ => apply of_class_dot in H
         end.

(** The two patterns of [parse_file_name], by the shape of what they
    accept. *)
Lemma accepts_triple s : accepts (body pattern_triple) s <-> triple_named s.
Proof.
  unfold triple_named, digits. cbn. split.
  - intros H. break. subst. do 4 eexists. split; [reflexivity|].
    unfold of_class in *. cbn in *. tauto.
  - intros (d1 & d2 & d3 & q & -> & (N1 & F1) & (N2 & F2) & (N3 & F3)).
    exists d1. eexists. split; [reflexivity|]. split; [assumption|].
    split; [assumption|]. do 2 eexists. split; [reflexivity|].
    split; [apply Ascii.eqb_refl|].
    exists d2. eexists. split; [reflexivity|]. split; [assumption|].
    split; [assumption|]. do 2 eexists. split; [reflexivity|].
    split; [apply Ascii.eqb_refl|].
    exists d3, q. auto.
Qed.

Lemma accepts_xyz s : accepts (body pattern_xyz) s <-> xyz_named s.
Proof.
  unfold xyz_named, digits. cbn. split.
  - intros H. break. subst.
    do 7 eexists. split; [reflexivity|].
    unfold of_class in *. cbn in *. tauto.
  - intros (p & dx & m1 & dy & m2 & dz & q & -> & (N1 & F1) & (N2 & F2)
            & (N3 & F3) & L0 & L1 & L2).
    apply of_class_dot in L0, L1, L2.
    exists p. eexists. split; [reflexivity|]. split; [assumption|].
    do 2 eexists. split; [reflexivity|]. split; [apply Ascii.eqb_refl|].
    do 2 eexists. split; [reflexivity|]. split; [apply Ascii.eqb_refl|].
    exists dx. eexists. split; [reflexivity|]. split; [assumption|].
    split; [assumption|].
    exists m1. eexists. split; [reflexivity|]. split; [assumption|].
    do 2 eexists. split; [reflexivity|]. split; [apply Ascii.eqb_refl|].
    do 2 eexists. split; [reflexivity|]. split; [apply Ascii.eqb_refl|].
    exists dy. eexists. split; [reflexivity|]. split; [assumption|].
    split; [assumption|].
    exists m2. eexists. split; [reflexivity|]. split; [assumption|].
    do 2 eexists. split; [reflexivity|]. split; [apply Ascii.eqb_refl|].
    do 2 eexists. split; [reflexivity|]. split; [apply Ascii.eqb_refl|].
    exists dz. eexists. split; [reflexivity|]. split; [assumption|].
    split; [assumption|].
    exists [], q. split; [reflexivity|]. split; [constructor|exact I].
Qed.

(** An anchored search succeeds exactly on the strings its pattern
    accepts. *)
Lemma search_accepts (p : pattern) (s : string) :
  anchored p = true ->
  search p s <> None <-> accepts (body p) (list_ascii_of_string s).
Proof.
  intros Ha. unfold search. rewrite Ha. split.
  - destruct (match_here (body p) [] (list_ascii_of_string s)) eqn:E;
      [|congruence].
    intros _. now apply match_here_sound in E.
  - intros H. now apply match_here_complete.
Qed.

End ReFacts.

(** A name that parses gives exactly three fields. *)
Lemma parse_file_name_fields name fields :
  parse_file_name name = inr fields -> List.length fields = 3%nat.
Proof.
  unfold parse_file_name.
  destruct (Re.search pattern_xyz (basename name)) as [caps|] eqn:E1.
  - intros H; inversion H; subst. rewrite length_map.
    now apply ReFacts.search_groups in E1.
  - destruct (Re.search pattern_triple (basename name)) as [caps|] eqn:E2.
    + intros H; inversion H; subst. rewrite length_map.
      now apply ReFacts.search_groups in E2.
    + discriminate.
Qed.

(** A name that does not parse raises [ValueError] with the base name in
    its message. *)
Lemma parse_file_name_error name e :
  parse_file_name name = inl e ->
  e = ValueError ("Invalid name " ++ basename name)%string.
Proof.
  unfold parse_file_name.
  destruct (Re.search pattern_xyz (basename name)); [discriminate|].
  destruct (Re.search pattern_triple (basename name)); [discriminate|].
  intros H; now inversion H.
Qed.

(** A name parses exactly when its base name has one of the two
    shapes. *)
Lemma parse_file_name_shape name :
  let b := list_ascii_of_string (basename name) in
  (xyz_named b \/ triple_named b ->
   exists fields, parse_file_name name = inr fields)
  /\ (~ xyz_named b -> ~ triple_named b ->
      parse_file_name name
      = inl (ValueError ("Invalid name " ++ basename name)%string)).
Proof.
  cbv zeta. unfold parse_file_name.
  pose proof (ReFacts.search_accepts pattern_xyz (basename name) eq_refl)
    as HA.
  pose proof (ReFacts.search_accepts pattern_triple (basename name) eq_refl)
    as HB.
  rewrite ReFacts.accepts_xyz in HA. rewrite ReFacts.accepts_triple in HB.
  destruct (Re.search pattern_xyz (basename name)) as [ca|].
  - split; [eauto|]. intros N _. exfalso. apply N, HA. discriminate.
  - destruct (Re.search pattern_triple (basename name)) as [cb|].
    + split; [eauto|]. intros _ N. exfalso. apply N, HB. discriminate.
    + split; [|reflexivity].
      intros [H|H]; [apply HA in H|apply HB in H]; congruence.
Qed.

(** C7. [parse_file_name] maps ["img_x_005_y_010_z_020.tif"] to
    [(5, 10, 20)] through the pattern with [x_], [y_], [z_], maps
    ["005_010_020_extra.tif"] to [(5, 10, 20)] through the pattern of three
    leading integers (the first pattern does not match it), and raises the
    parse error carrying the base name for every name whose base name
    matches neither pattern, ["not_a_tile.tif"] among them: whether
    matching is read as the search of the two regular expressions or as
    the shape of the base name. *)
Theorem parse_file_name_patterns :
  (Re.search pattern_xyz "img_x_005_y_010_z_020.tif"
   = Some (map list_ascii_of_string ["005"; "010"; "020"])
   /\ parse_file_name "img_x_005_y_010_z_020.tif" = inr [5; 10; 20])
  /\ (Re.search pattern_xyz "005_010_020_extra.tif" = None
      /\ Re.search pattern_triple "005_010_020_extra.tif"
         = Some (map list_ascii_of_string ["005"; "010"; "020"])
      /\ parse_file_name "005_010_020_extra.tif" = inr [5; 10; 20])
  /\ (forall name,
         Re.search pattern_xyz (basename name) = None ->
         Re.search pattern_triple (basename name) = None ->
         parse_file_name name
         = inl (ValueError ("Invalid name " ++ basename name)%string))
  /\ (forall name,
         ~ xyz_named (list_ascii_of_string (basename name)) ->
         ~ triple_named (list_ascii_of_string (basename name)) ->
         parse_file_name name
         = inl (ValueError ("Invalid name " ++ basename name)%string))
  /\ parse_file_name "not_a_tile.tif"
     = inl (ValueError "Invalid name not_a_tile.tif").
Proof.
  repeat split; try reflexivity.
  - intros name HA HB. unfold parse_file_name. now rewrite HA, HB.
  - intros name. apply parse_file_name_shape.
Qed.

Lemma parse_file_name_patterns_witness :
  parse_file_name "some/dir/not_a_tile.tif"
  = inl (ValueError "Invalid name not_a_tile.tif").
Proof.
  exact (proj1 (proj2 (proj2 parse_file_name_patterns))
               "some/dir/not_a_tile.tif" eq_refl eq_refl).
Defined.

(* ================================================================== *)
(** ** Loading *)

Lemma data_of_cons (t : Tile.t) (rest : list cell) :
  data_of (cells_of_tile t ++ rest)
  = let d := data_of rest in
    mkColumns (CInt (Tile.X t) :: data_X d) (CInt (Tile.Y t) :: data_Y d)
              (CInt (Tile.Z t) :: data_Z d)
              (CInt (Tile.nfrms t) :: data_nfrms d)
              (CInt (Tile.ysize t) :: data_ysize d)
              (CInt (Tile.xsize t) :: data_xsize d)
              (CStr (Tile.filename t) :: data_filename d).
Proof. reflexivity. Qed.

(** Stride-7 slicing of a list made of whole tiles gives the columns. *)
Lemma data_of_tiles (ts : list Tile.t) :
  data_of (List.concat (map cells_of_tile ts))
  = mkColumns (map (fun t => CInt (Tile.X t)) ts)
              (map (fun t => CInt (Tile.Y t)) ts)
              (map (fun t => CInt (Tile.Z t)) ts)
              (map (fun t => CInt (Tile.nfrms t)) ts)
              (map (fun t => CInt (Tile.ysize t)) ts)
              (map (fun t => CInt (Tile.xsize t)) ts)
              (map (fun t => CStr (Tile.filename t)) ts).
Proof.
  induction ts as [|t ts IH]; [reflexivity|].
  cbn [map List.concat]. rewrite data_of_cons, IH. reflexivity.
Qed.

Lemma zip_columns_tiles (ts : list Tile.t) :
  zip_columns (map (fun t => CInt (Tile.X t)) ts)
              (map (fun t => CInt (Tile.Y t)) ts)
              (map (fun t => CInt (Tile.Z t)) ts)
              (map (fun t => CInt (Tile.nfrms t)) ts)
              (map (fun t => CInt (Tile.ysize t)) ts)
              (map (fun t => CInt (Tile.xsize t)) ts)
              (map (fun t => CStr (Tile.filename t)) ts)
  = inr ts.
Proof.
  induction ts as [|t ts IH]; [reflexivity|].
  cbn [map zip_columns tile_of_cells bind ret]. rewrite IH.
  destruct t; reflexivity.
Qed.

(** Decoding a flat list made of whole tiles gives back these tiles, one
    record each, numbered from 0. *)
Lemma DataFrame_of_tiles (ts : list Tile.t) :
  DataFrame (data_of (List.concat (map cells_of_tile ts)))
  = inr (combine (seq 0 (List.length ts)) ts).
Proof.
  rewrite data_of_tiles. unfold DataFrame, same_length.
  cbn [data_X data_Y data_Z data_nfrms data_ysize data_xsize data_filename].
  rewrite !length_map, Nat.eqb_refl. cbn [andb].
  rewrite zip_columns_tiles. reflexivity.
Qed.

Lemma length_tiles_cells (ts : list Tile.t) :
  List.length (List.concat (map cells_of_tile ts)) = (7 * List.length ts)%nat.
Proof.
  induction ts as [|t ts IH]; [reflexivity|].
  cbn [map List.concat]. rewrite length_app, IH. simpl. lia.
Qed.

Section LoadFacts.

Variable InputFile : string -> result (Z * Z * Z).

(** The handled classes never leave [parse_and_append]. *)
Lemma parse_and_append_uncaught name st e :
  parse_and_append InputFile name st = inl e -> caught e = false.
Proof.
  unfold parse_and_append.
  destruct (parse_file_name name) as [e1|fields]; cbn [bind].
  - destruct (caught e1) eqn:C; [discriminate|].
    intros H; inversion H; now subst.
  - destruct (InputFile name) as [e2|[[n ys] xs]]; cbn [bind ret].
    + destruct (caught e2) eqn:C; [discriminate|].
      intros H; inversion H; now subst.
    + discriminate.
Qed.

(** A candidate adds its seven cells or nothing. *)
Lemma parse_and_append_extend name st st' :
  parse_and_append InputFile name st = inr st' ->
  st' = extend InputFile [name] st.
Proof.
  unfold extend, survivors, complaints. cbn [flat_map].
  rewrite !app_nil_r.
  unfold parse_and_append, survivor, complaint, candidate_tile.
  destruct (parse_file_name name) as [e1|fields] eqn:P; cbn [bind].
  - destruct (caught e1); [|discriminate].
    intros H; inversion H; subst. cbn. now rewrite app_nil_r.
  - destruct (InputFile name) as [e2|[[n ys] xs]]; cbn [bind ret].
    + destruct (caught e2); [|discriminate].
      intros H; inversion H; subst. cbn. now rewrite app_nil_r.
    + intros H; inversion H; subst.
      apply parse_file_name_fields in P.
      destruct fields as [|x [|y [|z [|w fields]]]]; try discriminate.
      cbn. now rewrite !app_nil_r.
Qed.

Lemma extend_app names1 names2 st :
  extend InputFile names2 (extend InputFile names1 st)
  = extend InputFile (names1 ++ names2) st.
Proof.
  unfold extend, survivors, complaints; cbn.
  rewrite !flat_map_app, map_app, concat_app, <- !app_assoc. reflexivity.
Qed.

Lemma extend_nil st : extend InputFile [] st = st.
Proof. destruct st; unfold extend; cbn. now rewrite !app_nil_r. Qed.

Lemma load_files_extend root files :
  forall st st',
    load_files InputFile root files st = inr st' ->
    st' = extend InputFile (map (path_join root) files) st.
Proof.
  induction files as [|f files IH]; intros st st' H; cbn in H.
  - inversion H; subst. now rewrite extend_nil.
  - destruct (parse_and_append InputFile (path_join root f) st)
      as [e|st1] eqn:E.
    + apply parse_and_append_uncaught in E. rewrite E in H. discriminate.
    + apply parse_and_append_extend in E. subst st1.
      apply IH in H. subst st'. cbn [map].
      now rewrite extend_app.
Qed.

(** A directory whose path has a base name is one candidate, and its
    files are passed over, whether or not the base name parses. *)
Lemma load_entry_named_root entry st :
  String.eqb (basename (w_root entry)) "" = false ->
  load_entry InputFile entry st
  = parse_and_append InputFile (w_root entry) st.
Proof.
  intros Hb. unfold load_entry. rewrite Hb.
  destruct (parse_and_append InputFile (w_root entry) st) as [e|st'] eqn:E;
    [|reflexivity].
  apply parse_and_append_uncaught in E. now rewrite E.
Qed.

Lemma load_entry_extend entry st st' :
  load_entry InputFile entry st = inr st' ->
  st' = extend InputFile (entry_candidates entry) st.
Proof.
  unfold entry_candidates.
  destruct (String.eqb (basename (w_root entry)) "") eqn:Hb.
  - unfold load_entry. rewrite Hb. apply load_files_extend.
  - rewrite (load_entry_named_root _ _ Hb). apply parse_and_append_extend.
Qed.

Lemma load_walk_extend walk :
  forall st st',
    load_walk InputFile walk st = inr st' ->
    st' = extend InputFile (candidates walk) st.
Proof.
  induction walk as [|entry walk IH]; intros st st' H; cbn in H.
  - inversion H; subst. now rewrite extend_nil.
  - destruct (load_entry InputFile entry st) as [e|st1] eqn:E;
      cbn [bind] in H; [discriminate|].
    apply load_entry_extend in E. subst st1.
    apply IH in H. subst st'. cbn [candidates flat_map].
    now rewrite extend_app.
Qed.

(** *** When the metadata reader fails only with handled classes *)

Lemma parse_and_append_total name st :
  reader_handled InputFile ->
  parse_and_append InputFile name st = inr (extend InputFile [name] st).
Proof.
  intros HR.
  destruct (parse_and_append InputFile name st) as [e|st'] eqn:E.
  - exfalso. pose proof (parse_and_append_uncaught _ _ _ E) as U.
    unfold parse_and_append in E.
    destruct (parse_file_name name) as [e1|fields] eqn:P; cbn [bind] in E.
    + apply parse_file_name_error in P. subst e1. cbn in E. discriminate.
    + destruct (InputFile name) as [e2|[[n ys] xs]] eqn:I;
        cbn [bind ret] in E; [|discriminate].
      rewrite (HR _ _ I) in E. discriminate.
  - now rewrite (parse_and_append_extend _ _ _ E).
Qed.

Lemma load_files_total root files :
  reader_handled InputFile ->
  forall st, load_files InputFile root files st
             = inr (extend InputFile (map (path_join root) files) st).
Proof.
  intros HR. induction files as [|f files IH]; intros st; cbn.
  - now rewrite extend_nil.
  - rewrite (parse_and_append_total _ _ HR), IH, extend_app. reflexivity.
Qed.

Lemma load_walk_total walk :
  reader_handled InputFile ->
  forall st, load_walk InputFile walk st
             = inr (extend InputFile (candidates walk) st).
Proof.
  intros HR. induction walk as [|entry walk IH]; intros st; cbn.
  - now rewrite extend_nil.
  - assert (E : load_entry InputFile entry st
                = inr (extend InputFile (entry_candidates entry) st)).
    { unfold entry_candidates.
      destruct (String.eqb (basename (w_root entry)) "") eqn:Hb.
      - unfold load_entry. rewrite Hb. now apply load_files_total.
      - rewrite (load_entry_named_root _ _ Hb).
        now apply parse_and_append_total. }
    rewrite E. cbn [bind]. rewrite IH, extend_app. reflexivity.
Qed.

Lemma frame_of_tiles ts :
  frame_of_flist (List.concat (map cells_of_tile ts)) = inr (table_of ts).
Proof.
  unfold frame_of_flist. rewrite DataFrame_of_tiles. reflexivity.
Qed.

End LoadFacts.

Lemma sample_reader_handled : reader_handled sample_reader.
Proof.
  intros name e. unfold sample_reader.
  destruct (index 0 "bad" name), (index 0 ".txt" name);
    intros H; inversion H; reflexivity.
Defined.

(** C8. When the metadata reader fails only with the handled classes,
    [load_dir] never aborts: it returns the table of the candidates whose
    parse and metadata read both succeed, each from its own candidate
    alone, and logs one line for each other candidate.  A failing
    candidate is left out and logged, and the candidates before and after
    it give the records they give without it. *)
Theorem load_dir_skips_failures
        (InputFile : string -> result (Z * Z * Z)) (walk : list walk_entry) :
  reader_handled InputFile ->
  load_dir InputFile walk
  = inr (table_of (survivors InputFile (candidates walk)),
         complaints InputFile (candidates walk))
  /\ forall before bad after e,
      candidates walk = before ++ bad :: after ->
      candidate_tile InputFile bad = inl e ->
      survivors InputFile (candidates walk)
      = survivors InputFile (before ++ after)
      /\ complaints InputFile (candidates walk)
         = complaints InputFile before
             ++ args0 e :: complaints InputFile after.
Proof.
  intros HR. split.
  - unfold load_dir. rewrite (load_walk_total _ _ HR). cbn [bind].
    unfold extend; cbn [flist logged app].
    rewrite frame_of_tiles. reflexivity.
  - intros before bad after e Hc Hbad. rewrite Hc.
    unfold survivors, complaints.
    rewrite !flat_map_app. cbn [flat_map].
    unfold survivor at 2, complaint at 2. rewrite Hbad. split; reflexivity.
Qed.

Lemma load_dir_skips_failures_witness :
  load_dir sample_reader sample_walk
  = inr (table_of (survivors sample_reader (candidates sample_walk)),
         complaints sample_reader (candidates sample_walk))
  /\ complaints sample_reader (candidates sample_walk)
     = ["Invalid name notes.txt"; "cannot read metadata"].
Proof.
  split.
  - exact (proj1 (load_dir_skips_failures sample_reader sample_walk
                                          sample_reader_handled)).
  - reflexivity.
Defined.

(** C3 (the code at the failing input).  The tree is a directory
    ["data"] that holds the tile file ["x_1_y_2_z_3.tif"].  The base name
    ["data"] does not parse; [parse_and_append] logs that itself and
    returns, the [continue] that follows is taken, and the file, which
    would have given a record, is never tried: the catalog is empty.
    Only a root written with a trailing separator, whose base name is
    empty, has its files tried. *)
Theorem load_dir_passes_over_files :
  candidate_tile sample_reader "data/x_1_y_2_z_3.tif"
  = inr (Tile.mk 1 2 3 5 100 100 "data/x_1_y_2_z_3.tif")
  /\ candidates [mkEntry "data" [] ["x_1_y_2_z_3.tif"]] = ["data"]
  /\ load_dir sample_reader [mkEntry "data" [] ["x_1_y_2_z_3.tif"]]
     = inr ([], ["Invalid name data"])
  /\ load_dir sample_reader [mkEntry "data/" [] ["x_1_y_2_z_3.tif"]]
     = inr (table_of [Tile.mk 1 2 3 5 100 100 "data/x_1_y_2_z_3.tif"], []).
Proof. repeat split; vm_compute; reflexivity. Qed.

(** C10. [parse_and_append] extends the flat list by the seven elements
    of its candidate or not at all, and not at all when the parse
    succeeds and the metadata read fails; so after the walk the flat list
    is the concatenation of whole records, its length is seven times
    their number, and the stride-7 decoding gives back exactly these
    records, one row each. *)
Theorem flist_whole_records
        (InputFile : string -> result (Z * Z * Z)) (walk : list walk_entry)
        (st : load_state) :
  load_walk InputFile walk (mkLoad [] []) = inr st ->
  let ts := survivors InputFile (candidates walk) in
  flist st = List.concat (map cells_of_tile ts)
  /\ List.length (flist st) = (7 * List.length ts)%nat
  /\ DataFrame (data_of (flist st))
     = inr (combine (seq 0 (List.length ts)) ts)
  /\ (forall name st0 st1,
         parse_and_append InputFile name st0 = inr st1 ->
         flist st1 = flist st0
         \/ exists t, candidate_tile InputFile name = inr t
                      /\ flist st1 = flist st0 ++ cells_of_tile t)
  /\ (forall name st0 fields e,
         parse_file_name name = inr fields ->
         InputFile name = inl e ->
         caught e = true ->
         parse_and_append InputFile name st0
         = inr (log_error (args0 e) st0)).
Proof.
  intros H ts. apply load_walk_extend in H. subst st.
  unfold extend; cbn [flist app]. fold ts.
  repeat split.
  - apply length_tiles_cells.
  - apply DataFrame_of_tiles.
  - intros name st0 st1 E. apply parse_and_append_extend in E. subst st1.
    unfold extend, survivors; cbn [flist flat_map]. rewrite app_nil_r.
    unfold survivor. destruct (candidate_tile InputFile name) as [e|t].
    + left. cbn. now rewrite app_nil_r.
    + right. exists t. split; reflexivity.
  - intros name st0 fields e P I C. unfold parse_and_append.
    rewrite P; cbn [bind]. rewrite I; cbn [bind]. now rewrite C.
Qed.

Lemma flist_whole_records_witness :
  exists st,
    load_walk sample_reader sample_walk (mkLoad [] []) = inr st
    /\ List.length (flist st) = 21%nat
    /\ DataFrame (data_of (flist st))
       = inr (combine (seq 0 3)
                      (survivors sample_reader (candidates sample_walk))).
Proof.
  eexists. split; [vm_compute; reflexivity|].
  pose proof (flist_whole_records sample_reader sample_walk _ eq_refl) as H.
  cbv zeta in H. destruct H as (_ & HL & HD & _).
  split; [exact HL | exact HD].
Defined.

(* ================================================================== *)
(** ** The order of cells and of key tuples *)

Lemma ascii_compare_refl (a : ascii) : Ascii.compare a a = Eq.
Proof. unfold Ascii.compare. apply N.compare_refl. Qed.

Lemma ascii_compare_trans (a b c : ascii) :
  Ascii.compare a b = Lt -> Ascii.compare b c = Lt -> Ascii.compare a c = Lt.
Proof.
  unfold Ascii.compare. rewrite !N.compare_lt_iff. apply N.lt_trans.
Qed.

Lemma string_compare_refl (s : string) : String.compare s s = Eq.
Proof.
  induction s as [|c s IH]; simpl; [reflexivity|].
  now rewrite ascii_compare_refl.
Qed.

Lemma string_compare_trans (s1 : string) :
  forall s2 s3,
    String.compare s1 s2 = Lt -> String.compare s2 s3 = Lt ->
    String.compare s1 s3 = Lt.
Proof.
  induction s1 as [|c1 s1 IH]; intros [|c2 s2] [|c3 s3]; simpl;
    try discriminate; try reflexivity.
  destruct (Ascii.compare c1 c2) eqn:E12; try discriminate;
    destruct (Ascii.compare c2 c3) eqn:E23; try discriminate; intros H1 H2.
  - apply Ascii.compare_eq_iff in E12, E23. subst.
    rewrite ascii_compare_refl. eauto.
  - apply Ascii.compare_eq_iff in E12. subst. now rewrite E23.
  - apply Ascii.compare_eq_iff in E23. subst. now rewrite E12.
  - now rewrite (ascii_compare_trans _ _ _ E12 E23).
Qed.

#[export] Instance cell_order : CompareOrder cell_compare.
Proof.
  split.
  - intros [x|x]; simpl; [apply Z.compare_refl | apply string_compare_refl].
  - intros [x|x] [y|y]; simpl; try discriminate; intros H.
    + apply Z.compare_eq in H. now subst.
    + apply String.compare_eq_iff in H. now subst.
  - intros [x|x] [y|y]; simpl; try reflexivity.
    + apply Z.compare_antisym.
    + apply String.compare_antisym.
  - intros [x|x] [y|y] [z|z]; simpl; try discriminate; try reflexivity.
    + rewrite !Z.compare_lt_iff. apply Z.lt_trans.
    + apply string_compare_trans.
Qed.

#[export] Instance key_order : CompareOrder key_compare.
Proof.
  split.
  - intros a; induction a as [|x a IH]; simpl; [reflexivity|].
    now rewrite (cmp_refl (cmp := cell_compare)).
  - intros a; induction a as [|x a IH]; intros [|y b]; simpl;
      try discriminate; [reflexivity|].
    destruct (cell_compare x y) eqn:E; try discriminate.
    intros H. apply cmp_eq in E. apply IH in H. now subst.
  - intros a; induction a as [|x a IH]; intros [|y b]; simpl;
      try reflexivity.
    rewrite (cmp_antisym (cmp := cell_compare) x y).
    destruct (cell_compare x y); simpl; auto.
  - intros a; induction a as [|x a IH]; intros [|y b] [|z c]; simpl;
      try discriminate; try reflexivity.
    destruct (cell_compare x y) eqn:E12; try discriminate;
      destruct (cell_compare y z) eqn:E23; try discriminate; intros H1 H2.
    + apply cmp_eq in E12, E23. subst.
      rewrite (cmp_refl (cmp := cell_compare)). eauto.
    + apply cmp_eq in E12. subst. now rewrite E23.
    + apply cmp_eq in E23. subst. now rewrite E12.
    + now rewrite (cmp_trans _ _ _ E12 E23).
Qed.

(* ================================================================== *)
(** ** [sort_values]: permutation, order, stability *)


Section SortFacts.
Context {A K : Type}.
Variable key : A -> K.
Variable cmp : K -> K -> comparison.
Context {ord : CompareOrder cmp}.

Lemma directed_flip ascending a b :
  directed cmp ascending b a = CompOpp (directed cmp ascending a b).
Proof. destruct ascending; simpl; apply cmp_antisym. Qed.

Lemma directed_trans ascending a b c :
  directed cmp ascending a b <> Gt -> directed cmp ascending b c <> Gt ->
  directed cmp ascending a c <> Gt.
Proof.
  assert (G : forall x y z, cmp x y <> Gt -> cmp y z <> Gt -> cmp x z <> Gt).
  { intros x y z Hxy Hyz.
    destruct (cmp x y) eqn:E1; [| |congruence].
    - apply cmp_eq in E1. now subst.
    - destruct (cmp y z) eqn:E2; [| |congruence].
      + apply cmp_eq in E2. subst. congruence.
      + rewrite (cmp_trans _ _ _ E1 E2). discriminate. }
  destruct ascending; simpl; eauto.
Qed.

Lemma insert_row_perm ascending x l :
  Permutation (insert_row key cmp ascending x l) (x :: l).
Proof.
  induction l as [|y l IH]; simpl; [reflexivity|].
  destruct (directed cmp ascending (key (snd x)) (key (snd y)));
    try reflexivity.
  rewrite IH. apply perm_swap.
Qed.

Lemma sort_values_perm ascending df :
  Permutation (sort_values key cmp ascending df) df.
Proof.
  induction df as [|x df IH]; simpl; [reflexivity|].
  rewrite insert_row_perm. now constructor.
Qed.

Lemma insert_row_sorted ascending x l :
  StronglySorted (in_order key cmp ascending) l ->
  StronglySorted (in_order key cmp ascending)
                 (insert_row key cmp ascending x l).
Proof.
  induction 1 as [|y l Hs IH Hy]; simpl.
  - repeat constructor.
  - destruct (directed cmp ascending (key (snd x)) (key (snd y))) eqn:E.
    + constructor; [now constructor|]. constructor.
      * unfold in_order. now rewrite E.
      * eapply Forall_impl; [|exact Hy]. intros z Hz.
        eapply directed_trans; [|exact Hz]. now rewrite E.
    + constructor; [now constructor|]. constructor.
      * unfold in_order. now rewrite E.
      * eapply Forall_impl; [|exact Hy]. intros z Hz.
        eapply directed_trans; [|exact Hz]. now rewrite E.
    + constructor; [exact IH|].
      eapply Permutation_Forall;
        [symmetry; apply insert_row_perm|].
      constructor; [|exact Hy].
      unfold in_order. rewrite directed_flip, E. discriminate.
Qed.

Lemma sort_values_sorted ascending df :
  StronglySorted (in_order key cmp ascending)
                 (sort_values key cmp ascending df).
Proof.
  induction df as [|x df IH]; simpl; [constructor|].
  now apply insert_row_sorted.
Qed.

Lemma insert_row_keyed ascending k x l :
  filter (keyed key cmp k) (insert_row key cmp ascending x l)
  = filter (keyed key cmp k) (x :: l).
Proof.
  induction l as [|y l IH]; [reflexivity|].
  cbn [insert_row].
  destruct (directed cmp ascending (key (snd x)) (key (snd y))) eqn:E;
    try reflexivity.
  cbn [filter] in *. rewrite IH.
  destruct (keyed key cmp k x) eqn:Kx, (keyed key cmp k y) eqn:Ky;
    try reflexivity.
  exfalso. unfold keyed in Kx, Ky.
  destruct (cmp (key (snd x)) k) eqn:Ex; try discriminate.
  destruct (cmp (key (snd y)) k) eqn:Ey; try discriminate.
  apply cmp_eq in Ex, Ey. rewrite Ex, Ey in E.
  destruct ascending; simpl in E; rewrite cmp_refl in E; discriminate.
Qed.

(** The sort is stable: the rows of one key keep their order. *)
Lemma sort_values_stable ascending k df :
  filter (keyed key cmp k) (sort_values key cmp ascending df)
  = filter (keyed key cmp k) df.
Proof.
  induction df as [|x df IH]; [reflexivity|].
  cbn [sort_values fold_right]. rewrite insert_row_keyed.
  cbn [filter]. fold (sort_values key cmp ascending df). now rewrite IH.
Qed.

End SortFacts.

(* ================================================================== *)
(** ** [groupby]: the group keys *)

Lemma cell_lt_irrefl a : ~ cell_lt a a.
Proof. unfold cell_lt. rewrite cmp_refl. discriminate. Qed.


Lemma insert_key_in k k' l :
  In k' (insert_key k l) <-> k' = k \/ In k' l.
Proof.
  induction l as [|y l IH]; simpl.
  - intuition.
  - destruct (cell_compare k y) eqn:E; simpl.
    + apply cmp_eq in E. subst. intuition.
    + intuition.
    + rewrite IH. intuition.
Qed.

Lemma insert_key_sorted k l :
  StronglySorted cell_lt l -> StronglySorted cell_lt (insert_key k l).
Proof.
  induction 1 as [|y l Hs IH Hy]; simpl.
  - repeat constructor.
  - destruct (cell_compare k y) eqn:E.
    + now constructor.
    + constructor; [now constructor|]. constructor; [exact E|].
      eapply Forall_impl; [|exact Hy]. intros z Hz.
      exact (cmp_trans _ _ _ E Hz).
    + constructor; [exact IH|].
      apply Forall_forall. intros z Hz. apply insert_key_in in Hz.
      destruct Hz as [->|Hz].
      * unfold cell_lt. rewrite cmp_antisym, E. reflexivity.
      * rewrite Forall_forall in Hy. now apply Hy.
Qed.


Section GroupFacts.
Context {A : Type}.
Variable key : A -> cell.

Lemma group_keys_in (df : frame A) k :
  In k (group_keys key df) <-> exists r, In r df /\ key (snd r) = k.
Proof.
  unfold group_keys. induction df as [|x df IH]; simpl.
  - split; [tauto|]. intros (r & [] & _).
  - rewrite insert_key_in, IH. split.
    + intros [->|(r & Hr & E)]; eauto.
    + intros (r & [->|Hr] & E); eauto.
Qed.

Lemma group_keys_sorted (df : frame A) :
  StronglySorted cell_lt (group_keys key df).
Proof.
  unfold group_keys. induction df as [|x df IH]; simpl.
  - constructor.
  - now apply insert_key_sorted.
Qed.


Lemma group_keys_length (df : frame A) :
  (List.length (group_keys key df) <= List.length df)%nat.
Proof.
  unfold group_keys. induction df as [|x df IH]; simpl; [lia|].
  assert (G : forall k l, (List.length (insert_key k l)
                           <= S (List.length l))%nat).
  { intros k l. induction l as [|y l IHl]; simpl; [lia|].
    destruct (cell_compare k y); simpl; lia. }
  specialize (G (key (snd x)) (fold_right insert_key []
                                 (map (fun r => key (snd r)) df))).
  lia.
Qed.

Lemma group_keys_nonempty (df : frame A) :
  df <> [] -> group_keys key df <> [].
Proof.
  destruct df as [|x df]; [congruence|]. intros _ E.
  assert (H : In (key (snd x)) (group_keys key (x :: df))).
  { apply group_keys_in. exists x. simpl; auto. }
  rewrite E in H. destruct H.
Qed.

End GroupFacts.

(* ================================================================== *)
(** ** Graphs: nodes, breadth-first search, components *)

Lemma mem_In n l : mem n l = true <-> In n l.
Proof.
  unfold mem. rewrite existsb_exists. split.
  - intros (x & Hx & E). apply Nat.eqb_eq in E. now subst.
  - intros H. exists n. split; [assumption|apply Nat.eqb_refl].
Qed.

Lemma mem_false n l : mem n l = false <-> ~ In n l.
Proof.
  rewrite <- mem_In. destruct (mem n l); split; congruence.
Qed.

Lemma neighbors_in G v w :
  In w (neighbors G v) <->
  exists e, In e (edges G)
            /\ ((fst e = v /\ snd e = w) \/ (snd e = v /\ fst e = w)).
Proof.
  unfold neighbors. rewrite in_flat_map. split.
  - intros (e & He & Hw). exists e. split; [assumption|].
    destruct (Nat.eqb (fst e) v) eqn:E1.
    + apply Nat.eqb_eq in E1. destruct Hw as [<-|[]]. auto.
    + destruct (Nat.eqb (snd e) v) eqn:E2; [|destruct Hw].
      apply Nat.eqb_eq in E2. destruct Hw as [<-|[]]. auto.
  - intros (e & He & [[E1 E2]|[E1 E2]]); exists e; (split; [assumption|]).
    + subst. rewrite Nat.eqb_refl. simpl; auto.
    + subst. destruct (Nat.eqb (fst e) (snd e)) eqn:E.
      * apply Nat.eqb_eq in E. rewrite E. simpl; auto.
      * rewrite Nat.eqb_refl. simpl; auto.
Qed.

Lemma neighbors_nodes G v w :
  well_formed G -> In w (neighbors G v) -> In w (nodes G).
Proof.
  intros WF H. apply neighbors_in in H.
  destruct H as (e & He & [[_ <-]|[_ <-]]); now apply WF.
Qed.

Lemma add_node_nodes n G m :
  In m (nodes (add_node n G)) <-> m = n \/ In m (nodes G).
Proof.
  unfold add_node. destruct (mem n (nodes G)) eqn:E; simpl.
  - apply mem_In in E. split; [auto|]. intros [->|]; auto.
  - rewrite in_app_iff. simpl. intuition.
Qed.

Lemma add_node_present n G : In n (nodes G) -> add_node n G = G.
Proof. intros H. unfold add_node. apply mem_In in H. now rewrite H. Qed.

Lemma add_node_edges n G : edges (add_node n G) = edges G.
Proof. unfold add_node. now destruct (mem n (nodes G)). Qed.

Lemma add_edge_present u v G :
  In u (nodes G) -> In v (nodes G) ->
  add_edge u v G = mkGraph (nodes G) (edges G ++ [(u, v)]).
Proof.
  intros Hu Hv. unfold add_edge.
  now rewrite (add_node_present u G Hu), (add_node_present v G Hv).
Qed.

Lemma add_edges_from_present pairs :
  forall G,
    (forall e, In e pairs -> In (fst e) (nodes G) /\ In (snd e) (nodes G)) ->
    add_edges_from pairs G = mkGraph (nodes G) (edges G ++ pairs).
Proof.
  induction pairs as [|[u v] pairs IH]; intros G H; simpl.
  - rewrite app_nil_r. now destruct G.
  - destruct (H (u, v) (or_introl eq_refl)) as [Hu Hv]. simpl in Hu, Hv.
    unfold add_edges_from in *. simpl.
    rewrite (add_edge_present u v G Hu Hv), IH.
    + simpl. now rewrite <- app_assoc.
    + intros e He. simpl. apply H. now right.
Qed.

Section Search.
Variable G : Graph.
Hypothesis WF : well_formed G.

Lemma visit_level_facts level :
  forall seen next seen' next',
    visit_level G level seen next = (seen', next') ->
    incl seen seen' /\ incl level seen' /\ incl next next'
    /\ (forall u, In u seen' ->
                  In u seen \/ (In u level /\ incl (neighbors G u) next'))
    /\ (forall w, In w next' ->
                  In w next \/ exists u, In u level /\ In w (neighbors G u))
    /\ ((seen' = seen /\ next' = next)
        \/ exists v, In v level /\ ~ In v seen /\ In v seen').
Proof.
  induction level as [|v level IH]; intros seen next seen' next' H;
    simpl in H.
  - inversion H; subst. repeat split; try apply incl_refl; auto.
    intros u [].
  - destruct (mem v seen) eqn:E.
    + apply mem_In in E. apply IH in H.
      destruct H as (H1 & H2 & H3 & H4 & H5 & H6).
      repeat split; auto.
      * intros x [->|Hx]; auto.
      * intros u Hu. destruct (H4 u Hu) as [|[? ?]]; simpl; auto.
      * intros w Hw. destruct (H5 w Hw) as [|(u & ? & ?)]; simpl; eauto.
      * destruct H6 as [|(x & ? & ? & ?)]; simpl; eauto 6.
    + apply mem_false in E. apply IH in H.
      destruct H as (H1 & H2 & H3 & H4 & H5 & H6).
      assert (Hv : In v seen') by (apply H1, in_or_app; simpl; auto).
      repeat split.
      * intros x Hx. apply H1, in_or_app. auto.
      * intros x [->|Hx]; auto.
      * intros x Hx. apply H3, in_or_app. auto.
      * intros u Hu. destruct (H4 u Hu) as [Hs|[? ?]]; simpl; auto.
        apply in_app_or in Hs. destruct Hs as [|[->|[]]]; auto.
        right. split; auto. intros w Hw. apply H3, in_or_app. auto.
      * intros w Hw. destruct (H5 w Hw) as [Hn|(u & ? & ?)]; simpl; eauto.
        apply in_app_or in Hn. destruct Hn; eauto.
      * right. exists v. simpl; auto.
Qed.

Lemma unseen_decreases seen seen' v :
  incl seen seen' -> In v (nodes G) -> ~ In v seen -> In v seen' ->
  (unseen G seen' < unseen G seen)%nat.
Proof.
  unfold unseen. intros Hi Hn Hs Hs'.
  induction (nodes G) as [|n l IH]; [destruct Hn|].
  assert (Hle : forall l0,
             (List.length (filter (fun n => negb (mem n seen')) l0)
              <= List.length (filter (fun n => negb (mem n seen)) l0))%nat).
  { intros l0. induction l0 as [|m l0 IHl]; simpl; [lia|].
    destruct (mem m seen) eqn:E1.
    - apply mem_In in E1. apply Hi, mem_In in E1. rewrite E1. simpl. lia.
    - destruct (mem m seen'); simpl; lia. }
  simpl. destruct Hn as [->|Hn].
  - apply mem_false in Hs. apply mem_In in Hs'. rewrite Hs, Hs'. simpl.
    specialize (Hle l). lia.
  - specialize (IH Hn).
    destruct (mem n seen) eqn:E1.
    + apply mem_In in E1. apply Hi, mem_In in E1. rewrite E1. simpl. lia.
    + destruct (mem n seen'); simpl; lia.
Qed.

(** With enough fuel the search ends with a set closed under
    [neighbors] that holds what was marked and what was waiting. *)
Lemma plain_bfs_closed fuel :
  forall seen level,
    incl level (nodes G) -> frontier G seen level ->
    (unseen G seen < fuel)%nat ->
    let R := plain_bfs fuel G seen level in
    closed G R /\ incl seen R /\ incl level R.
Proof.
  induction fuel as [|fuel IH]; intros seen level Hl Hf Hm; [lia|].
  cbn zeta. destruct level as [|v level].
  - simpl. repeat split; try apply incl_refl; [|intros x []].
    intros u w Hu Hw. destruct (Hf u w Hu Hw) as [|[]]; assumption.
  - cbn [plain_bfs].
    destruct (visit_level G (v :: level) seen []) as [seen' next] eqn:E.
    apply visit_level_facts in E.
    destruct E as (H1 & H2 & _ & H4 & H5 & H6).
    assert (Hf' : frontier G seen' next).
    { intros u w Hu Hw. destruct (H4 u Hu) as [Hs|[_ Hn]].
      - destruct (Hf u w Hs Hw) as [|]; auto.
      - right. now apply Hn. }
    destruct H6 as [[-> ->]|(x & Hx & Hns & Hs')].
    + assert (R : plain_bfs fuel G seen [] = seen)
        by (destruct fuel; reflexivity).
      rewrite R. repeat split; auto using incl_refl.
      intros u w Hu Hw. destruct (Hf' u w Hu Hw) as [|[]]; assumption.
    + assert (Hnext : incl next (nodes G)).
      { intros w Hw. destruct (H5 w Hw) as [[]|(u & _ & Hu)].
        eapply neighbors_nodes; eauto. }
      assert (Hm' : (unseen G seen' < fuel)%nat).
      { pose proof (unseen_decreases seen seen' x H1 (Hl x Hx) Hns Hs').
        lia. }
      destruct (IH seen' next Hnext Hf' Hm') as (C & I1 & I2).
      repeat split; auto.
      * intros y Hy. auto.
      * intros y Hy. auto.
Qed.

Lemma component_of_closed v :
  In v (nodes G) ->
  closed G (component_of G v) /\ In v (component_of G v).
Proof.
  intros Hv. unfold component_of.
  destruct (plain_bfs_closed (S (List.length (nodes G))) [] [v])
    as (C & _ & I).
  - intros x [->|[]]. assumption.
  - intros u w [].
  - unfold unseen.
    pose proof (filter_length_le (fun n => negb (mem n [])) (nodes G)).
    lia.
  - split; [exact C|]. apply I. simpl; auto.
Qed.

(** A chain of edges from a member of a closed set stays inside it. *)
Lemma closed_chain (S : list nat) (l : list nat) :
  closed G S ->
  (forall a b, In (a, b) (combine l (tl l)) -> In (a, b) (edges G)) ->
  forall first, hd_error l = Some first -> In first S -> incl l S.
Proof.
  intros C. induction l as [|a l IH]; intros He first Hh Hf.
  - intros x [].
  - simpl in Hh. inversion Hh; subst a.
    intros x [<-|Hx]; [assumption|].
    destruct l as [|b l]; [destruct Hx|].
    assert (Hb : In b S).
    { apply (C first b Hf). apply neighbors_in.
      exists (first, b). split; [|simpl; auto].
      apply He. simpl; auto. }
    apply (IH (fun a' b' H => He a' b' (or_intror H)) b eq_refl Hb x Hx).
Qed.

Lemma components_from_covered vs :
  forall seen, incl vs seen -> components_from G vs seen = [].
Proof.
  induction vs as [|v vs IH]; intros seen H; simpl; [reflexivity|].
  assert (E : mem v seen = true) by (apply mem_In, H; simpl; auto).
  rewrite E. apply IH. intros x Hx. apply H. now right.
Qed.

End Search.

(* ================================================================== *)
(** ** The slice graph *)

Lemma enclosing_self l row : enclosing row (l, row) = true.
Proof.
  unfold enclosing. simpl. rewrite Z.leb_refl, Z.geb_leb, Z.leb_refl.
  reflexivity.
Qed.

Lemma labels_in {A : Type} (df : frame A) r : In r df -> In (fst r) (labels df).
Proof. intros H. unfold labels. now apply in_map. Qed.

Lemma labels_filter_incl {A : Type} (f : nat * A -> bool) (df : frame A) :
  incl (labels (filter f df)) (labels df).
Proof.
  intros x Hx. unfold labels in *. apply in_map_iff in Hx.
  destruct Hx as (r & <- & Hr). apply filter_In in Hr.
  apply in_map. tauto.
Qed.

Lemma in_combine_tl (l : list nat) a b :
  In (a, b) (combine l (tl l)) -> In a l /\ In b l.
Proof.
  intros H. split.
  - eapply in_combine_l; eauto.
  - apply in_combine_r in H. destruct l; [destruct H|]. now right.
Qed.

Lemma last_in (l : list nat) d : l <> [] -> In (last l d) l.
Proof.
  induction l as [|a l IH]; [congruence|]. intros _.
  destruct l as [|b l]; [simpl; auto|].
  right. apply IH. discriminate.
Qed.

Lemma link_row_present df l row G :
  In (l, row) df -> incl (labels df) (nodes G) ->
  link_row df row G
  = inr (mkGraph (nodes G) (edges G ++ row_edges df row)).
Proof.
  intros Hin Hn. unfold link_row, row_edges.
  set (idx := labels (filter (enclosing row) df)).
  assert (Hidx : incl idx (nodes G)).
  { intros x Hx. apply Hn. eapply labels_filter_incl; eauto. }
  assert (Hne : idx <> []).
  { intros E.
    assert (In l idx).
    { unfold idx. apply (labels_in _ (l, row)). apply filter_In.
      split; [assumption|apply enclosing_self]. }
    rewrite E in H. destruct H. }
  rewrite add_edges_from_present.
  - destruct idx as [|first rest] eqn:E; [congruence|].
    rewrite add_edge_present.
    + simpl. now rewrite <- app_assoc.
    + simpl. apply Hidx; simpl; auto.
    + simpl nodes. apply Hidx. apply last_in. discriminate.
  - intros [a b] H. apply in_combine_tl in H. simpl. split; apply Hidx; tauto.
Qed.

Lemma link_rows_present df rows :
  forall G,
    incl rows df -> incl (labels df) (nodes G) ->
    link_rows df rows G
    = inr (mkGraph (nodes G)
                   (edges G
                      ++ flat_map (fun r => row_edges df (snd r)) rows)).
Proof.
  induction rows as [|[l row] rows IH]; intros G Hr Hn; simpl.
  - rewrite app_nil_r. now destruct G.
  - rewrite (link_row_present df l row G); auto.
    + cbn [bind]. rewrite IH.
      * simpl. now rewrite <- app_assoc.
      * intros x Hx. apply Hr. now right.
      * exact Hn.
    + apply Hr. simpl; auto.
Qed.

Lemma add_nodes_facts (df : data_frame) :
  forall G,
    let G' := fold_left (fun G r => add_node (fst r) G) df G in
    edges G' = edges G
    /\ (forall n, In n (nodes G') <-> In n (nodes G) \/ In n (labels df))
    /\ (List.length (nodes G')
        <= List.length (nodes G) + List.length df)%nat
    /\ (NoDup (nodes G ++ labels df) -> nodes G' = nodes G ++ labels df).
Proof.
  induction df as [|[l row] df IH]; intros G; cbn zeta; simpl.
  - repeat split; try tauto; try lia.
    now rewrite app_nil_r.
  - destruct (IH (add_node l G)) as (E & N & L & D). cbn zeta in *.
    repeat split.
    + now rewrite E, add_node_edges.
    + rewrite N, add_node_nodes. intuition congruence.
    + rewrite N, add_node_nodes. intuition congruence.
    + assert (List.length (nodes (add_node l G))
              <= S (List.length (nodes G)))%nat.
      { unfold add_node. destruct (mem l (nodes G)); simpl; [lia|].
        rewrite length_app. simpl. lia. }
      lia.
    + intros ND.
      assert (Hl : mem l (nodes G) = false).
      { apply mem_false. intros Hl.
        apply NoDup_remove_2 in ND. apply ND. apply in_or_app. auto. }
      assert (En : nodes (add_node l G) = nodes G ++ [l]).
      { unfold add_node. now rewrite Hl. }
      rewrite D; rewrite En, <- app_assoc; [reflexivity|exact ND].
Qed.

Lemma frame_nodes_labels df n : In n (frame_nodes df) <-> In n (labels df).
Proof.
  unfold frame_nodes.
  destruct (add_nodes_facts df empty_graph) as (_ & N & _).
  cbn zeta in N. rewrite N. simpl. tauto.
Qed.

Lemma frame_nodes_length df :
  (List.length (frame_nodes df) <= List.length df)%nat.
Proof.
  unfold frame_nodes.
  destruct (add_nodes_facts df empty_graph) as (_ & _ & L & _).
  cbn zeta in L. simpl in L. exact L.
Qed.

Lemma frame_nodes_NoDup df : NoDup (labels df) -> frame_nodes df = labels df.
Proof.
  unfold frame_nodes. intros ND.
  destruct (add_nodes_facts df empty_graph) as (_ & _ & _ & D).
  now apply D.
Qed.

(** [slices] builds its graph without raising. *)
Lemma slice_graph_total df :
  slice_graph df
  = inr (mkGraph (frame_nodes df)
                 (flat_map (fun r => row_edges df (snd r)) df)).
Proof.
  unfold slice_graph.
  set (G0 := fold_left (fun G r => add_node (fst r) G) df empty_graph).
  destruct (add_nodes_facts df empty_graph) as (E & N & _). cbn zeta in *.
  fold G0 in E, N.
  rewrite link_rows_present.
  - rewrite E. reflexivity.
  - apply incl_refl.
  - intros n Hn. apply N. now right.
Qed.

Lemma slice_graph_well_formed df :
  well_formed (mkGraph (frame_nodes df)
                       (flat_map (fun r => row_edges df (snd r)) df)).
Proof.
  intros [a b] He. simpl in *. apply in_flat_map in He.
  destruct He as ([l row] & Hr & He). simpl in He.
  unfold row_edges in He.
  set (idx := labels (filter (enclosing row) df)) in *.
  assert (Hne : idx <> []).
  { intros E.
    assert (In l idx).
    { unfold idx. apply (labels_in _ (l, row)). apply filter_In.
      split; [assumption|apply enclosing_self]. }
    rewrite E in H. destruct H. }
  assert (Hidx : forall x, In x idx -> In x (frame_nodes df)).
  { intros x Hx. apply frame_nodes_labels.
    eapply labels_filter_incl; eauto. }
  apply in_app_or in He. destruct He as [He|[He|[]]].
  - apply in_combine_tl in He. split; apply Hidx; tauto.
  - inversion He; subst. split; apply Hidx.
    + destruct idx; [congruence|simpl; auto].
    + apply last_in. assumption.
Qed.

Lemma slices_total df :
  slices df
  = inr (connected_component_subgraphs
           (mkGraph (frame_nodes df)
                    (flat_map (fun r => row_edges df (snd r)) df))).
Proof. unfold slices. now rewrite slice_graph_total. Qed.

Lemma filter_all {A : Type} (f : A -> bool) (l : list A) :
  (forall x, In x l -> f x = true) -> filter f l = l.
Proof.
  induction l as [|a l IH]; intros H; simpl; [reflexivity|].
  rewrite (H a (or_introl eq_refl)), IH; [reflexivity|].
  intros x Hx. apply H. now right.
Qed.

(** Tiles that all have one depth range make one slice. *)
Lemma slices_same_range (df : data_frame) (z z_end : Z) :
  df <> [] ->
  NoDup (labels df) ->
  (forall r, In r df -> Row.Z (snd r) = z /\ Row.Z_end (snd r) = z_end) ->
  slices df = inr [labels df].
Proof.
  intros Hne ND Hz. rewrite slices_total.
  set (G := mkGraph (frame_nodes df)
                    (flat_map (fun r => row_edges df (snd r)) df)).
  pose proof (slice_graph_well_formed df) as WF. fold G in WF.
  assert (Hnodes : nodes G = labels df) by (apply frame_nodes_NoDup, ND).
  assert (Hview : forall r, In r df -> filter (enclosing (snd r)) df = df).
  { intros r Hr. apply filter_all. intros u Hu. unfold enclosing.
    destruct (Hz r Hr) as [-> ->]. destruct (Hz u Hu) as [-> ->].
    rewrite Z.leb_refl, Z.geb_leb, Z.leb_refl. reflexivity. }
  destruct df as [|r0 df']; [congruence|].
  set (df := r0 :: df') in *.
  assert (Hchain : forall a b,
             In (a, b) (combine (labels df) (tl (labels df))) ->
             In (a, b) (edges G)).
  { intros a b H. unfold G. cbn [edges]. apply in_flat_map.
    exists r0. split; [left; reflexivity|].
    unfold row_edges. rewrite (Hview r0) by (simpl; auto).
    apply in_or_app. now left. }
  destruct (component_of_closed G WF (fst r0)) as [C Hv].
  { rewrite Hnodes. simpl; auto. }
  assert (Hall : incl (labels df) (component_of G (fst r0))).
  { apply (closed_chain G _ _ C Hchain (fst r0)); [reflexivity|exact Hv]. }
  unfold connected_component_subgraphs. rewrite Hnodes.
  change (labels df) with (fst r0 :: labels df') at 2.
  cbn [components_from mem existsb].
  rewrite components_from_covered.
  - cbn [map]. rewrite filter_all; [reflexivity|].
    intros x Hx. apply mem_In. now apply Hall.
  - intros x Hx. apply Hall. now right.
Qed.

Lemma two_loops_components (l1 l2 : nat) :
  l1 <> l2 ->
  connected_component_subgraphs (mkGraph [l1; l2] [(l1, l1); (l2, l2)])
  = [[l1]; [l2]].
Proof.
  intros Hl.
  assert (E12 : Nat.eqb l1 l2 = false) by now apply Nat.eqb_neq.
  assert (E21 : Nat.eqb l2 l1 = false) by (apply Nat.eqb_neq; congruence).
  unfold connected_component_subgraphs, component_of.
  repeat (progress (cbn; rewrite ?Nat.eqb_refl, ?E12, ?E21)).
  reflexivity.
Qed.

(** Two tiles whose depth ranges are not empty and do not meet make two
    slices of one tile. *)
Lemma slices_disjoint_pair (l1 l2 : nat) (r1 r2 : Row.t) :
  l1 <> l2 ->
  Row.Z r1 < Row.Z_end r1 ->
  Row.Z r2 < Row.Z_end r2 ->
  Row.Z_end r1 <= Row.Z r2 \/ Row.Z_end r2 <= Row.Z r1 ->
  slices [(l1, r1); (l2, r2)] = inr [[l1]; [l2]].
Proof.
  intros Hl H1 H2 Hd.
  assert (F1 : enclosing r1 (l2, r2) = false).
  { unfold enclosing. simpl. rewrite Z.geb_leb.
    apply andb_false_iff. rewrite !Z.leb_gt. lia. }
  assert (F2 : enclosing r2 (l1, r1) = false).
  { unfold enclosing. simpl. rewrite Z.geb_leb.
    apply andb_false_iff. rewrite !Z.leb_gt. lia. }
  rewrite slices_total, frame_nodes_NoDup.
  - cbn [flat_map snd]. unfold row_edges. cbn [filter].
    rewrite !enclosing_self, F1, F2.
    cbn [labels map fst snd tl combine app hd last].
    now rewrite two_loops_components.
  - cbn. repeat constructor; simpl; intuition.
Qed.

(** The labels of a loaded catalog are [0 .. n-1] in some order. *)
Lemma fst_combine {A B : Type} (l : list A) :
  forall l' : list B, List.length l = List.length l' ->
                      map fst (combine l l') = l.
Proof.
  induction l as [|a l IH]; intros [|b l'] H; simpl in *;
    try discriminate; [reflexivity|].
  f_equal. apply IH. congruence.
Qed.

Lemma table_of_labels (ts : list Tile.t) :
  Permutation (labels (table_of ts)) (seq 0 (List.length ts)).
Proof.
  unfold table_of, labels. rewrite map_map. cbn [fst].
  rewrite (Permutation_map fst (sort_values_perm key_ZYX key_compare true _)).
  rewrite fst_combine; [reflexivity|]. now rewrite length_seq.
Qed.

Lemma table_of_NoDup (ts : list Tile.t) : NoDup (labels (table_of ts)).
Proof.
  eapply Permutation_NoDup; [symmetry; apply table_of_labels|].
  apply seq_NoDup.
Qed.

Lemma table_of_length (ts : list Tile.t) :
  List.length (table_of ts) = List.length ts.
Proof.
  unfold table_of. rewrite length_map.
  rewrite (Permutation_length (sort_values_perm key_ZYX key_compare true _)).
  rewrite length_combine, length_seq. lia.
Qed.

(** C6. In a catalog of [N >= 1] tiles that all have the same [Z] and the
    same [Z_end], [slices] yields exactly one component, and it holds all
    [N] indices; in a catalog of two tiles whose depth ranges (not empty)
    do not meet, such as [0, 5) and [10, 15), [slices] yields two
    components of one tile each. *)
Theorem slices_by_depth_range :
  (forall (df : data_frame) (z z_end : Z),
      df <> [] ->
      NoDup (labels df) ->
      (forall r, In r df -> Row.Z (snd r) = z /\ Row.Z_end (snd r) = z_end) ->
      slices df = inr [labels df])
  /\ (forall (l1 l2 : nat) (r1 r2 : Row.t),
         l1 <> l2 ->
         Row.Z r1 < Row.Z_end r1 ->
         Row.Z r2 < Row.Z_end r2 ->
         Row.Z_end r1 <= Row.Z r2 \/ Row.Z_end r2 <= Row.Z r1 ->
         slices [(l1, r1); (l2, r2)] = inr [[l1]; [l2]]).
Proof.
  split.
  - exact slices_same_range.
  - exact slices_disjoint_pair.
Qed.

Lemma slices_by_depth_range_witness :
  slices (table_of three_level) = inr [[1%nat; 0%nat; 2%nat]]
  /\ slices (table_of two_deep) = inr [[1%nat]; [0%nat]].
Proof.
  split.
  - refine (proj1 slices_by_depth_range (table_of three_level) 0 10 _ _ _).
    + discriminate.
    + apply table_of_NoDup.
    + intros r Hr. vm_compute in Hr.
      destruct Hr as [<-|[<-|[<-|[]]]]; split; reflexivity.
  - refine (proj2 slices_by_depth_range 1%nat 0%nat
                  (add_Z_end (Tile.mk 0 0 0 5 100 100 "deep/x_0_y_0_z_0.tif"))
                  (add_Z_end (Tile.mk 0 0 10 5 100 100 "deep/x_0_y_0_z_10.tif"))
                  _ _ _ _).
    + discriminate.
    + reflexivity.
    + reflexivity.
    + left. discriminate.
Defined.

(* ================================================================== *)
(** ** The generators *)

Lemma yield_from_groups df rest gs :
  forall fuel,
    (List.length gs + 2 <= fuel)%nat ->
    yield_from fuel df (GenGroups gs rest)
    = Some (map Some gs ++ fst (after_slice rest), snd (after_slice rest)).
Proof.
  induction gs as [|g gs IH]; intros fuel Hf.
  - destruct fuel as [|[|fuel]]; simpl in Hf; try lia.
    destruct rest as [|s rest]; reflexivity.
  - destruct fuel as [|fuel]; simpl in Hf; [lia|].
    cbn [yield_from send next_group]. rewrite IH by lia. reflexivity.
Qed.

Lemma drive_no_slice generator_stop fuel df got :
  slices df = inr [] ->
  drive generator_stop fuel df got
  = Some (stop_iteration_escapes generator_stop).
Proof. intros H. unfold drive. cbn [send]. rewrite H. reflexivity. Qed.

(** The trace of [tiles_along_X] and [tiles_along_Y] when there is a
    slice: the groups of the first slice, and [after_slice]. *)
Lemma drive_first_slice generator_stop fuel df got s rest gs :
  slices df = inr (s :: rest) ->
  view df s got = inr gs ->
  rest <> [] \/ gs <> [] ->
  (List.length gs + 1 <= fuel)%nat ->
  drive generator_stop fuel df got
  = Some (map Some gs ++ fst (after_slice rest), snd (after_slice rest)).
Proof.
  intros Hs Hv Hne Hf. unfold drive. cbn [send]. rewrite Hs.
  cbn [next_slice send]. rewrite Hv.
  destruct gs as [|g gs]; cbn [next_group].
  - destruct rest as [|s' rest]; [destruct Hne; congruence|].
    cbn [next_slice]. destruct fuel as [|fuel]; [simpl in Hf; lia|].
    reflexivity.
  - rewrite yield_from_groups by (simpl in Hf; lia). reflexivity.
Qed.

(** *** The slices of a frame and the rows they select *)

Lemma slices_within df ss s :
  slices df = inr ss -> In s ss ->
  incl s (labels df) /\ (List.length s <= List.length df)%nat.
Proof.
  rewrite slices_total. intros H Hs. inversion H; subst ss; clear H.
  unfold connected_component_subgraphs in Hs. apply in_map_iff in Hs.
  destruct Hs as (c & <- & _). cbn [nodes]. split.
  - intros x Hx. apply filter_In in Hx. apply frame_nodes_labels. tauto.
  - pose proof (filter_length_le (fun n => mem n c) (frame_nodes df)).
    pose proof (frame_nodes_length df). lia.
Qed.

Lemma slices_first df :
  df <> [] ->
  exists s rest, slices df = inr (s :: rest) /\ s <> [].
Proof.
  intros Hne. rewrite slices_total.
  set (G := mkGraph (frame_nodes df)
                    (flat_map (fun r => row_edges df (snd r)) df)).
  pose proof (slice_graph_well_formed df) as WF. fold G in WF.
  destruct (frame_nodes df) as [|v vs] eqn:En.
  - exfalso. destruct df as [|r df]; [congruence|].
    assert (H : In (fst r) (frame_nodes (r :: df))).
    { apply frame_nodes_labels. simpl; auto. }
    rewrite En in H. destruct H.
  - assert (Hv : In v (component_of G v)).
    { apply component_of_closed; [exact WF|]. unfold G; simpl; auto. }
    unfold connected_component_subgraphs. cbn [nodes G].
    cbn [components_from mem existsb map].
    eexists _, _. split; [reflexivity|].
    cbn [filter]. apply mem_In in Hv. rewrite Hv. discriminate.
Qed.

Lemma loc_total {A : Type} (df : frame A) (s : list nat) :
  incl s (labels df) ->
  exists sub, loc df s = inr sub /\ List.length sub = List.length s.
Proof.
  induction s as [|l s IH]; intros H; simpl.
  - exists []. split; reflexivity.
  - destruct IH as (sub & E & L); [intros x Hx; apply H; now right|].
    destruct (find (fun r => Nat.eqb (fst r) l) df) as [r|] eqn:F.
    + rewrite E. exists (r :: sub). split; [reflexivity|]. simpl; lia.
    + exfalso. assert (Hl : In l (labels df)) by (apply H; simpl; auto).
      unfold labels in Hl. apply in_map_iff in Hl.
      destruct Hl as (r & <- & Hr).
      apply (find_none _ _ F) in Hr. rewrite Nat.eqb_refl in Hr.
      discriminate.
Qed.

Lemma resolve_known names cs :
  resolve names = inr cs ->
  Forall2 (fun n c => column_of_name n = Some c) names cs.
Proof.
  revert cs. induction names as [|n names IH]; intros cs H; simpl in H.
  - inversion H. constructor.
  - destruct (column_of_name n) as [c|] eqn:E; [|discriminate].
    destruct (resolve names) as [e|cs'] eqn:R; [discriminate|].
    inversion H; subst. constructor; auto.
Qed.

Lemma groupby_groups c sorted :
  map snd (groupby (cell_at c) sorted) = groups_of c sorted.
Proof. unfold groupby, groups_of. rewrite map_map. reflexivity. Qed.

(** [view] succeeds when the labels and the column names are known, and
    then lists the groups of the sorted rows of the slice. *)
Lemma view_known df s by_ ascending group_key sub cs c :
  loc df s = inr sub ->
  resolve by_ = inr cs ->
  column_of_name group_key = Some c ->
  view df s (by_, ascending, group_key)
  = inr (groups_of c (sort_values (row_key cs) key_compare ascending sub)).
Proof.
  intros L R C. unfold view. rewrite L, R. cbn [bind]. rewrite C.
  now rewrite groupby_groups.
Qed.

Lemma view_inv df s by_ ascending group_key gs :
  view df s (by_, ascending, group_key) = inr gs ->
  exists sub cs c,
    loc df s = inr sub /\ resolve by_ = inr cs
    /\ column_of_name group_key = Some c
    /\ gs = groups_of c (sort_values (row_key cs) key_compare ascending sub).
Proof.
  unfold view.
  destruct (loc df s) as [e|sub]; cbn [bind]; [discriminate|].
  destruct (resolve by_) as [e|cs]; cbn [bind]; [discriminate|].
  destruct (column_of_name group_key) as [c|]; [|discriminate].
  intros H. inversion H. rewrite groupby_groups.
  exists sub, cs, c. auto.
Qed.

Lemma groups_of_length c sorted :
  (List.length (groups_of c sorted) <= List.length sorted)%nat.
Proof.
  unfold groups_of. rewrite length_map. apply group_keys_length.
Qed.

Lemma groups_of_nonempty c sorted : sorted <> [] -> groups_of c sorted <> [].
Proof.
  intros H E. apply (group_keys_nonempty (cell_at c)) in H.
  unfold groups_of in E. apply map_eq_nil in E. contradiction.
Qed.

Lemma sort_values_length {A K : Type} (key : A -> K) cmp ascending
      (df : frame A) :
  List.length (sort_values key cmp ascending df) = List.length df.
Proof.
  induction df as [|x df IH]; [reflexivity|].
  cbn [sort_values fold_right].
  fold (sort_values key cmp ascending df).
  assert (G : forall l, List.length (insert_row key cmp ascending x l)
                        = S (List.length l)).
  { intros l. induction l as [|y l IHl]; simpl; [reflexivity|].
    destruct (directed cmp ascending (key (snd x)) (key (snd y)));
      simpl; auto. }
  rewrite G, IH. reflexivity.
Qed.

(** The two drivers send names the frame has. *)
Lemma view_of_slice df ss s ascending by_ group_key cs c :
  slices df = inr ss -> In s ss ->
  resolve by_ = inr cs -> column_of_name group_key = Some c ->
  exists sub,
    loc df s = inr sub /\ List.length sub = List.length s
    /\ view df s (by_, ascending, group_key)
       = inr (groups_of c (sort_values (row_key cs) key_compare
                                       ascending sub)).
Proof.
  intros Hs Hin R C.
  destruct (slices_within df ss s Hs Hin) as [Hi _].
  destruct (loc_total df s Hi) as (sub & L & Len).
  exists sub. repeat split; auto. now apply view_known.
Qed.

(** The whole trace of a driver, for every catalog: nothing but the end
    for the empty catalog; else the groups of the first slice and what
    follows them. *)
Lemma drive_trace generator_stop df by_ ascending group_key cs c :
  resolve by_ = inr cs ->
  column_of_name group_key = Some c ->
  (df = []
   /\ drive generator_stop (enough df) df (by_, ascending, group_key)
      = Some (stop_iteration_escapes generator_stop))
  \/ (exists s rest sub,
         slices df = inr (s :: rest)
         /\ loc df s = inr sub /\ sub <> []
         /\ drive generator_stop (enough df) df (by_, ascending, group_key)
            = Some (map Some
                        (groups_of c (sort_values (row_key cs) key_compare
                                                  ascending sub))
                      ++ fst (after_slice rest),
                    snd (after_slice rest))).
Proof.
  intros R C. destruct df as [|r df'].
  - left. split; [reflexivity|]. now apply drive_no_slice.
  - right. set (df := r :: df').
    destruct (slices_first df) as (s & rest & Hs & Hne); [discriminate|].
    destruct (view_of_slice df _ s ascending by_ group_key cs c Hs
                            (or_introl eq_refl) R C)
      as (sub & L & Len & V).
    assert (Hsub : sub <> []).
    { intros ->. destruct s; [congruence|discriminate]. }
    exists s, rest, sub. repeat split; auto.
    apply (drive_first_slice _ _ _ _ s rest _ Hs V).
    + right. apply groups_of_nonempty. intros E.
      apply (f_equal (@List.length _)) in E.
      rewrite sort_values_length in E. destruct sub; [congruence|].
      discriminate.
    + pose proof (groups_of_length c (sort_values (row_key cs) key_compare
                                                  ascending sub)) as G.
      rewrite sort_values_length in G.
      destruct (slices_within df _ s Hs (or_introl eq_refl)) as [_ B].
      unfold enough. lia.
Qed.

(** With two slices or more, a driver yields the groups of the first
    slice, then [None], then raises [TypeError]; the groups of the other
    slices never come. *)
Lemma drive_more_slices generator_stop df by_ ascending group_key cs c
      s s' rest :
  resolve by_ = inr cs ->
  column_of_name group_key = Some c ->
  slices df = inr (s :: s' :: rest) ->
  exists sub,
    loc df s = inr sub
    /\ drive generator_stop (enough df) df (by_, ascending, group_key)
       = Some (map Some
                   (groups_of c (sort_values (row_key cs) key_compare
                                             ascending sub))
                 ++ [None],
               Failed none_subscript).
Proof.
  intros R C Hs.
  destruct (drive_trace generator_stop df by_ ascending group_key cs c R C)
    as [[-> _]|(s0 & rest0 & sub & Hs0 & L & _ & D)].
  - discriminate.
  - rewrite Hs in Hs0. inversion Hs0; subst s0 rest0.
    exists sub. split; [assumption|]. exact D.
Qed.

(** With one slice, a driver yields its groups and ends. *)
Lemma drive_one_slice generator_stop df by_ ascending group_key cs c s :
  resolve by_ = inr cs ->
  column_of_name group_key = Some c ->
  slices df = inr [s] ->
  exists sub,
    loc df s = inr sub
    /\ drive generator_stop (enough df) df (by_, ascending, group_key)
       = Some (map Some
                   (groups_of c (sort_values (row_key cs) key_compare
                                             ascending sub)),
               Exhausted).
Proof.
  intros R C Hs.
  destruct (drive_trace generator_stop df by_ ascending group_key cs c R C)
    as [[-> _]|(s0 & rest0 & sub & Hs0 & L & _ & D)].
  - discriminate.
  - rewrite Hs in Hs0. inversion Hs0; subst s0 rest0.
    exists sub. split; [assumption|]. rewrite D. cbn. now rewrite app_nil_r.
Qed.

(** The fuel the drivers give [yield from] is enough: they always have
    a trace. *)
Lemma tiles_along_total generator_stop df ascending :
  tiles_along_X generator_stop df ascending <> None
  /\ tiles_along_Y generator_stop df ascending <> None.
Proof.
  unfold tiles_along_X, tiles_along_Y. split.
  - destruct (drive_trace generator_stop df ["Z"; "X"; "Y"] ascending "Y"
                          [ColZ; ColX; ColY] ColY eq_refl eq_refl)
      as [[_ D]|(s & rest & sub & _ & _ & _ & D)]; rewrite D; discriminate.
  - destruct (drive_trace generator_stop df ["Z"; "Y"; "X"] ascending "X"
                          [ColZ; ColY; ColX] ColX eq_refl eq_refl)
      as [[_ D]|(s & rest & sub & _ & _ & _ & D)]; rewrite D; discriminate.
Qed.

(** *** [full_height] *)

Lemma numbers_ints {A : Type} (f : A -> Z) (l : list A) :
  numbers (map (fun r => CInt (f r)) l) = inr (map f l).
Proof.
  induction l as [|a l IH]; [reflexivity|].
  cbn [map numbers]. rewrite IH. reflexivity.
Qed.

(** On a group, the body of [gen()] raises [KeyError] at [group['Ys']]:
    the table has no such column. *)
Lemma column_height_Ys (group : data_frame) :
  column_height "Ys" (Some group) = inl (KeyError "Ys").
Proof.
  unfold column_height, getitem. cbn [column_of_name String.eqb Ascii.eqb
                                      Bool.eqb bind ret cell_at].
  rewrite (numbers_ints (fun r => Row.ysize (snd r))). reflexivity.
Qed.

(** For every catalog that is not empty, [full_height] raises
    [KeyError('Ys')] on the first group. *)
Lemma full_height_KeyError generator_stop (df : data_frame) ascending :
  df <> [] ->
  full_height generator_stop df ascending = Some (inl (KeyError "Ys")).
Proof.
  intros Hne. unfold full_height, full_height_on, tiles_along_Y.
  destruct (drive_trace generator_stop df ["Z"; "Y"; "X"] ascending "X"
                        [ColZ; ColY; ColX] ColX eq_refl eq_refl)
    as [[-> _]|(s & rest & sub & Hs & L & Hsub & D)]; [congruence|].
  rewrite D.
  destruct (groups_of ColX (sort_values (row_key [ColZ; ColY; ColX])
                                        key_compare ascending sub))
    as [|g gs] eqn:E.
  - exfalso. revert E. apply groups_of_nonempty. intros E.
    apply (f_equal (@List.length _)) in E.
    rewrite sort_values_length in E. destruct sub; [congruence|discriminate].
  - cbn [map app heights]. rewrite column_height_Ys. reflexivity.
Qed.

(* ================================================================== *)
(** ** Groups and the direction flag *)









(* ================================================================== *)
(** ** The sort and its one flag *)

(** C5 (as stated, refuted).  With the flag off, a sort that turns the
    first key [Z] only leaves the two tiles of [one_row] in ascending
    [X]; the code puts [X = 1] first, in the sorted frame and in the
    group [tiles_along_X] yields. *)
Lemma sort_flag_counterexample :
  let df := table_of one_row in
  let by_ := row_key [ColZ; ColX; ColY] in
  map (fun r => Row.X (snd r)) (sort_values_primary by_ false df) = [0; 1]
  /\ map (fun r => Row.X (snd r)) (sort_values by_ key_compare false df)
     = [1; 0]
  /\ forall generator_stop,
      exists g, tiles_along_X generator_stop df false
                = Some ([Some g], Exhausted)
                /\ map (fun r => Row.X (snd r)) g = [1; 0].
Proof.
  cbv zeta. repeat split; try reflexivity.
  intros [|]; eexists; split; vm_compute; reflexivity.
Qed.

Lemma compare3_le (za xa ya zb xb yb : Z) :
  key_compare [CInt za; CInt xa; CInt ya] [CInt zb; CInt xb; CInt yb] <> Gt
  <-> za < zb \/ (za = zb /\ (xa < xb \/ (xa = xb /\ ya <= yb))).
Proof.
  simpl.
  destruct (Z.compare_spec za zb); [|split; [lia|discriminate]|];
    [|split; [congruence|lia]].
  destruct (Z.compare_spec xa xb); [|split; [lia|discriminate]|];
    [|split; [congruence|lia]].
  destruct (Z.compare_spec ya yb); split; try lia; try discriminate;
    congruence.
Qed.

(* ================================================================== *)
(** ** Catalogs of several slices, and the empty catalog *)

(** C2 (the code at the failing input).  The catalog of [two_deep_walk]
    has two slices, of one tile each.  [tiles_along_X] and
    [tiles_along_Y] yield the one group of the first slice, then [None],
    the value of the second [got = yield], which is no group, and then
    raise [TypeError] at [got[0]]; the group of the second slice is never
    yielded. *)
Theorem tiles_along_two_slices :
  let df := table_of two_deep in
  load_dir sample_reader two_deep_walk = inr (df, [])
  /\ slices df = inr [[1%nat]; [0%nat]]
  /\ forall generator_stop ascending,
      exists g,
        map fst g = [1%nat]
        /\ tiles_along_X generator_stop df ascending
           = Some ([Some g; None], Failed none_subscript)
        /\ tiles_along_Y generator_stop df ascending
           = Some ([Some g; None], Failed none_subscript).
Proof.
  cbv zeta. split; [vm_compute; reflexivity|].
  split; [vm_compute; reflexivity|].
  intros [|] [|]; eexists; repeat split; vm_compute; reflexivity.
Qed.

(** C9 (as stated, refuted).  No tile survives in [barren_walk] and the
    catalog is the empty table; [full_height] raises instead of giving an
    empty result, under either rule for a [StopIteration] that escapes a
    generator, and under PEP 479 so do [tiles_along_X] and
    [tiles_along_Y]. *)
Lemma empty_catalog_counterexample :
  load_dir sample_reader barren_walk = inr ([], ["Invalid name notes.txt"])
  /\ full_height false [] true
     = Some (inl (ValueError "max() arg is an empty sequence"))
  /\ full_height true [] true
     = Some (inl (RuntimeError "generator raised StopIteration"))
  /\ tiles_along_X true [] true
     = Some ([], Failed (RuntimeError "generator raised StopIteration"))
  /\ tiles_along_Y true [] true
     = Some ([], Failed (RuntimeError "generator raised StopIteration")).
Proof. repeat split; vm_compute; reflexivity. Qed.

(** C9 (amended).  When no candidate survives, [load_dir] returns the
    empty table and [slices] yields nothing.  [tiles_along_X] and
    [tiles_along_Y] yield nothing; they end silently where an escaping
    [StopIteration] ends a generator, and raise [RuntimeError] under
    PEP 479.  [full_height] raises: [ValueError] from [max] of an empty
    sequence, or that [RuntimeError]. *)
Theorem empty_catalog_queries
        (InputFile : string -> result (Z * Z * Z)) (walk : list walk_entry) :
  reader_handled InputFile ->
  survivors InputFile (candidates walk) = [] ->
  load_dir InputFile walk = inr ([], complaints InputFile (candidates walk))
  /\ slices [] = inr []
  /\ (forall ascending,
         tiles_along_X false [] ascending = Some ([], Exhausted)
         /\ tiles_along_Y false [] ascending = Some ([], Exhausted)
         /\ tiles_along_X true [] ascending
            = Some ([], Failed (RuntimeError "generator raised StopIteration"))
         /\ tiles_along_Y true [] ascending
            = Some ([], Failed (RuntimeError "generator raised StopIteration")))
  /\ (forall ascending,
         full_height false [] ascending
         = Some (inl (ValueError "max() arg is an empty sequence"))
         /\ full_height true [] ascending
            = Some (inl (RuntimeError "generator raised StopIteration"))).
Proof.
  intros HR Hs. split; [|repeat split].
  unfold load_dir. rewrite (load_walk_total _ _ HR). cbn [bind].
  unfold extend; cbn [flist logged app]. rewrite Hs. reflexivity.
Qed.

Lemma empty_catalog_queries_witness :
  load_dir sample_reader barren_walk = inr ([], ["Invalid name notes.txt"])
  /\ slices [] = inr [].
Proof.
  destruct (empty_catalog_queries sample_reader barren_walk
                                  sample_reader_handled eq_refl)
    as (L & S & _).
  split; [exact L | exact S].
Defined.

(* ================================================================== *)
(** ** [full_height] at a column of tiles *)

Lemma groups_of_members c sorted g :
  In g (groups_of c sorted) -> g <> [].
Proof.
  unfold groups_of. intros H. apply in_map_iff in H.
  destruct H as (k & <- & Hk). apply group_keys_in in Hk.
  destruct Hk as (r & Hr & E). intros F.
  assert (Hin : In r (filter (has_key (cell_at c) k) sorted)).
  { apply filter_In. split; [assumption|].
    unfold has_key. rewrite E. now rewrite cmp_refl. }
  rewrite F in Hin. destruct Hin.
Qed.

(** C1 (the code at the failing input).  On the catalog of two tiles of
    [ysize = 100] stacked at [Y = 0] and [Y = 90], and on the catalog of
    one tile of [ysize = 50] at [Y = 0], [tiles_along_Y] yields one
    group that holds the tiles, and [full_height] raises [KeyError] on
    it: [group['ysize']] is read, and [group['Ys']] names a column the
    table does not have.  No height is returned. *)
Theorem full_height_missing_column :
  forall generator_stop ascending,
    (exists g,
        tiles_along_Y generator_stop (table_of stacked) ascending
        = Some ([Some g], Exhausted)
        /\ Permutation g (table_of stacked)
        /\ getitem g "ysize" = inr [CInt 100; CInt 100]
        /\ getitem g "Ys" = inl (KeyError "Ys")
        /\ full_height generator_stop (table_of stacked) ascending
           = Some (inl (KeyError "Ys")))
    /\ (exists g,
           tiles_along_Y generator_stop (table_of single) ascending
           = Some ([Some g], Exhausted)
           /\ Permutation g (table_of single)
           /\ getitem g "ysize" = inr [CInt 50]
           /\ getitem g "Ys" = inl (KeyError "Ys")
           /\ full_height generator_stop (table_of single) ascending
              = Some (inl (KeyError "Ys"))).
Proof.
  intros generator_stop ascending.
  destruct generator_stop, ascending;
    (split; eexists;
     (split; [vm_compute; reflexivity|]);
     (split;
      [vm_compute; first [apply Permutation_refl|apply perm_swap]
      |repeat split; vm_compute; reflexivity])).
Qed.

(* ================================================================== *)
(** * Further properties *)

(** ** The parser: what it accepts and what it returns *)

Lemma has_sep_basename (p : string) : has_sep (basename p) = false.
Proof.
  induction p as [|c p IH]; [reflexivity|]. simpl.
  destruct (has_sep p) eqn:E; [exact IH|].
  destruct (Ascii.eqb c slash) eqn:C; [exact E|].
  simpl. now rewrite C, E.
Qed.

Lemma basename_plain (p : string) : has_sep p = false -> basename p = p.
Proof.
  destruct p as [|c p]; [reflexivity|]. simpl.
  destruct (Ascii.eqb c slash); [discriminate|].
  intros E. now rewrite E.
Qed.

Lemma basename_idempotent (p : string) : basename (basename p) = basename p.
Proof. apply basename_plain, has_sep_basename. Qed.

Lemma has_sep_app (a b : string) :
  has_sep (a ++ b)%string = (has_sep a || has_sep b)%bool.
Proof.
  induction a as [|c a IH]; [reflexivity|]. simpl.
  destruct (Ascii.eqb c slash); [reflexivity|exact IH].
Qed.

(** What follows a separator that no later separator follows is the
    base name. *)
Lemma basename_after_sep (a f : string) :
  has_sep f = false -> basename (a ++ String slash f)%string = f.
Proof.
  intros Hf. induction a as [|c a IH]; simpl.
  - now rewrite Hf.
  - rewrite has_sep_app. simpl. rewrite orb_true_r. exact IH.
Qed.

Lemma ends_with_sep_split (a : string) :
  ends_with_sep a = true -> exists a', a = (a' ++ String slash "")%string.
Proof.
  induction a as [|c a IH]; [discriminate|]. simpl.
  destruct a as [|d a].
  - intros E. apply Ascii.eqb_eq in E. subst. now exists "".
  - intros E. destruct (IH E) as (a' & Ha). rewrite Ha.
    now exists (String c a').
Qed.

Lemma append_assoc (a b c : string) :
  ((a ++ b) ++ c = a ++ (b ++ c))%string.
Proof. induction a as [|x a IH]; simpl; [reflexivity|now rewrite IH]. Qed.

Lemma append_empty_r (a : string) : (a ++ "")%string = a.
Proof. induction a as [|x a IH]; simpl; [reflexivity|now rewrite IH]. Qed.

Lemma basename_path_join (root f : string) :
  has_sep f = false -> basename (path_join root f) = f.
Proof.
  intros Hf. unfold path_join. destruct f as [|c f].
  - destruct (String.eqb root "" || ends_with_sep root)%bool eqn:E.
    + apply orb_true_iff in E. destruct E as [E|E].
      * apply String.eqb_eq in E. now subst.
      * destruct (ends_with_sep_split _ E) as (a' & ->).
        now apply basename_after_sep.
    + now apply basename_after_sep.
  - assert (C : Ascii.eqb c slash = false).
    { simpl in Hf. destruct (Ascii.eqb c slash); [discriminate|reflexivity]. }
    rewrite C.
    destruct (String.eqb root "" || ends_with_sep root)%bool eqn:E.
    + apply orb_true_iff in E. destruct E as [E|E].
      * apply String.eqb_eq in E. subst.
        change ("" ++ String c f)%string with (String c f).
        now apply basename_plain.
      * destruct (ends_with_sep_split _ E) as (a' & ->).
        rewrite append_assoc. simpl. now apply basename_after_sep.
    + change (root ++ "/" ++ String c f)%string
        with (root ++ String slash (String c f))%string.
      now apply basename_after_sep.
Qed.

Lemma parse_file_name_basename (p : string) :
  parse_file_name (basename p) = parse_file_name p.
Proof. unfold parse_file_name. now rewrite basename_idempotent. Qed.

(** X1.  [parse_file_name] looks at the base name only: the name parses
    as its base name does, and a file [f] joined to any directory path
    parses as [f] alone, so that coordinates written in the names of the
    directories above a file never reach its record. *)
Theorem parse_file_name_ignores_directories :
  (forall p, parse_file_name p = parse_file_name (basename p))
  /\ (forall root f,
         has_sep f = false ->
         parse_file_name (path_join root f) = parse_file_name f).
Proof.
  split.
  - intros p. symmetry. apply parse_file_name_basename.
  - intros root f Hf.
    rewrite <- (parse_file_name_basename (path_join root f)).
    now rewrite basename_path_join.
Qed.

Lemma parse_file_name_ignores_directories_witness :
  parse_file_name (path_join "x_7_y_8_z_9" "x_1_y_2_z_3.tif")
  = parse_file_name "x_1_y_2_z_3.tif".
Proof.
  exact (proj2 parse_file_name_ignores_directories
               "x_7_y_8_z_9" "x_1_y_2_z_3.tif" eq_refl).
Defined.

(** Every capturing group of a match holds a run, not empty, of the
    characters of its class. *)
Lemma match_here_captures p :
  forall caps s caps',
    Re.match_here p caps s = Some caps' ->
    exists new,
      caps' = caps ++ new
      /\ Forall2 (fun cl g => g <> [] /\ of_class cl g) (cap_classes p) new.
Proof.
  induction p as [|n p IH]; intros caps s caps' H.
  - inversion H; subst. exists []. rewrite app_nil_r. split; constructor.
  - destruct n as [cl|cl|cl]; simpl in H.
    + destruct s as [|c s]; [discriminate|].
      destruct (Re.cclass_matches cl c); [|discriminate]. eauto.
    + apply ReFacts.star_sound in H. destruct H as (a & b & _ & _ & K). eauto.
    + destruct s as [|c s]; [discriminate|].
      destruct (Re.cclass_matches cl c) eqn:M; [|discriminate].
      apply ReFacts.star_cap_sound in H.
      destruct H as (a & b & _ & Fa & K).
      destruct (IH _ _ _ K) as (new & -> & F).
      exists (([c] ++ a) :: new). rewrite <- app_assoc. split; [reflexivity|].
      simpl. constructor; [|exact F].
      split; [discriminate|]. constructor; assumption.
Qed.

Lemma int_of_digits_nonneg (ds : list ascii) :
  of_class Re.Digit ds -> 0 <= int_of_digits ds.
Proof.
  unfold int_of_digits.
  assert (G : forall acc, 0 <= acc -> of_class Re.Digit ds ->
                          0 <= fold_left
                                 (fun a c =>
                                    10 * a + (Z.of_nat (nat_of_ascii c) - 48))
                                 ds acc).
  { induction ds as [|c ds IH]; intros acc Ha F; cbn [fold_left];
      [assumption|].
    inversion F as [|? ? Hc F']; subst. apply IH; [|assumption].
    simpl in Hc. unfold Re.is_digit in Hc.
    apply andb_true_iff in Hc. destruct Hc as [Hc _].
    apply Nat.leb_le in Hc. lia. }
  intros F. apply G; [lia|assumption].
Qed.

Lemma search_captures_digits (p : Re.pattern) (s : string) caps :
  Re.anchored p = true ->
  cap_classes (Re.body p) = [Re.Digit; Re.Digit; Re.Digit] ->
  Re.search p s = Some caps ->
  exists g1 g2 g3,
    caps = [g1; g2; g3]
    /\ of_class Re.Digit g1 /\ of_class Re.Digit g2 /\ of_class Re.Digit g3.
Proof.
  intros Ha Hc H. unfold Re.search in H. rewrite Ha in H.
  apply match_here_captures in H. destruct H as (new & -> & F).
  rewrite Hc in F.
  inversion F as [|? g1 ? l1 [_ F1] R1]; subst.
  inversion R1 as [|? g2 ? l2 [_ F2] R2]; subst.
  inversion R2 as [|? g3 ? l3 [_ F3] R3]; subst.
  inversion R3; subst. exists g1, g2, g3. auto.
Qed.

(** X2.  [parse_file_name] returns exactly when the base name has one of
    the two shapes, and what it returns is a list of exactly three
    integers, none of them negative. *)
Theorem parse_file_name_returns :
  forall name,
    ((exists fields, parse_file_name name = inr fields) <->
     xyz_named (list_ascii_of_string (basename name))
     \/ triple_named (list_ascii_of_string (basename name)))
    /\ (forall fields,
           parse_file_name name = inr fields ->
           exists x y z,
             fields = [x; y; z] /\ 0 <= x /\ 0 <= y /\ 0 <= z).
Proof.
  intros name. split.
  - destruct (parse_file_name_shape name) as [Hyes Hno]. cbv zeta in *.
    split; [|exact Hyes].
    intros (fields & Hf).
    pose proof (ReFacts.search_accepts pattern_xyz (basename name) eq_refl)
      as HA.
    pose proof (ReFacts.search_accepts pattern_triple (basename name)
                                       eq_refl) as HB.
    rewrite ReFacts.accepts_xyz in HA. rewrite ReFacts.accepts_triple in HB.
    unfold parse_file_name in Hf.
    destruct (Re.search pattern_xyz (basename name)) as [ca|].
    + left. apply HA. discriminate.
    + destruct (Re.search pattern_triple (basename name)) as [cb|].
      * right. apply HB. discriminate.
      * discriminate.
  - intros fields Hf. unfold parse_file_name in Hf.
    assert (G : forall p caps,
               Re.anchored p = true ->
               cap_classes (Re.body p) = [Re.Digit; Re.Digit; Re.Digit] ->
               Re.search p (basename name) = Some caps ->
               exists x y z,
                 map int_of_digits caps = [x; y; z]
                 /\ 0 <= x /\ 0 <= y /\ 0 <= z).
    { intros p caps Ha Hc Hs.
      destruct (search_captures_digits p _ caps Ha Hc Hs)
        as (g1 & g2 & g3 & -> & F1 & F2 & F3).
      exists (int_of_digits g1), (int_of_digits g2), (int_of_digits g3).
      repeat split; auto using int_of_digits_nonneg. }
    destruct (Re.search pattern_xyz (basename name)) as [ca|] eqn:EA.
    + inversion Hf; subst. now apply (G pattern_xyz).
    + destruct (Re.search pattern_triple (basename name)) as [cb|] eqn:EB;
        [|discriminate].
      inversion Hf; subst. now apply (G pattern_triple).
Qed.

Lemma parse_file_name_returns_witness :
  exists x y z,
    [5; 10; 20] = [x; y; z] /\ 0 <= x /\ 0 <= y /\ 0 <= z.
Proof.
  exact (proj2 (parse_file_name_returns "img_x_005_y_010_z_020.tif")
               [5; 10; 20] eq_refl).
Defined.

(** A greedy group that stops where its class stops keeps the whole run
    when the rest of the pattern matches there. *)
Lemma star_cap_greedy {R : Type} cl
      (k : list ascii -> list ascii -> option R) ds rest r :
  of_class cl ds ->
  match rest with
  | [] => True
  | c :: _ => Re.cclass_matches cl c = false
  end ->
  forall taken,
    k (taken ++ ds) rest = Some r ->
    Re.star_cap cl k taken (ds ++ rest) = Some r.
Proof.
  intros F B. induction F as [|c ds M F IH]; intros taken K.
  - rewrite app_nil_r in K. simpl. destruct rest as [|c rest]; [exact K|].
    simpl. now rewrite B.
  - simpl. rewrite M. rewrite (IH (taken ++ [c])); [reflexivity|].
    now rewrite <- app_assoc.
Qed.

Lemma capplus_greedy cl p caps ds rest r :
  ds <> [] -> of_class cl ds ->
  match rest with
  | [] => True
  | c :: _ => Re.cclass_matches cl c = false
  end ->
  Re.match_here p (caps ++ [ds]) rest = Some r ->
  Re.match_here (Re.CapPlus cl :: p) caps (ds ++ rest) = Some r.
Proof.
  intros Hne F B K. destruct ds as [|c ds]; [congruence|].
  inversion F as [|? ? M F']; subst. simpl. rewrite M.
  now apply star_cap_greedy.
Qed.

Lemma one_matches cl p caps c s r :
  Re.cclass_matches cl c = true ->
  Re.match_here p caps s = Some r ->
  Re.match_here (Re.One cl :: p) caps (c :: s) = Some r.
Proof. intros M K. simpl. now rewrite M. Qed.

(** X3.  A base name that begins with three runs of digits joined by
    underscores, the third run ending where the digits end, and that the
    pattern with [x_], [y_], [z_] does not match, parses to the values of
    these three runs. *)
Theorem parse_file_name_triple :
  forall name d1 d2 d3 q,
    list_ascii_of_string (basename name)
    = d1 ++ list_ascii_of_string "_" ++ d2
         ++ list_ascii_of_string "_" ++ d3 ++ q ->
    digits d1 -> digits d2 -> digits d3 ->
    not_digit_led q ->
    ~ xyz_named (list_ascii_of_string (basename name)) ->
    parse_file_name name
    = inr [int_of_digits d1; int_of_digits d2; int_of_digits d3].
Proof.
  intros name d1 d2 d3 q Hb [N1 F1] [N2 F2] [N3 F3] Hq Hx.
  unfold parse_file_name.
  destruct (Re.search pattern_xyz (basename name)) as [ca|] eqn:EA.
  - exfalso. apply Hx. apply ReFacts.accepts_xyz.
    apply (ReFacts.search_accepts pattern_xyz (basename name) eq_refl).
    rewrite EA. discriminate.
  - assert (ET : Re.search pattern_triple (basename name)
                 = Some [d1; d2; d3]).
    { unfold Re.search. cbn [Re.anchored pattern_triple Re.body].
      rewrite Hb. cbn [list_ascii_of_string app Re.lit map].
      apply (capplus_greedy Re.Digit _ [] d1);
        [exact N1|exact F1|reflexivity|].
      apply one_matches; [reflexivity|].
      apply (capplus_greedy Re.Digit _ [d1] d2);
        [exact N2|exact F2|reflexivity|].
      apply one_matches; [reflexivity|].
      apply (capplus_greedy Re.Digit _ [d1; d2] d3);
        [exact N3|exact F3| |reflexivity].
      destruct q; [exact I|exact Hq]. }
    rewrite ET. reflexivity.
Qed.

Lemma parse_file_name_triple_witness :
  parse_file_name "scan/005_010_020_extra.tif" = inr [5; 10; 20].
Proof.
  refine (parse_file_name_triple
            "scan/005_010_020_extra.tif"
            (list_ascii_of_string "005") (list_ascii_of_string "010")
            (list_ascii_of_string "020") (list_ascii_of_string "_extra.tif")
            eq_refl _ _ _ eq_refl _).
  - split; [discriminate|repeat constructor].
  - split; [discriminate|repeat constructor].
  - split; [discriminate|repeat constructor].
  - intros H. apply ReFacts.accepts_xyz in H.
    apply (ReFacts.match_here_complete _ _ H []).
    reflexivity.
Defined.

(** ** Loading: when it aborts, and what it builds *)

Section AbortFacts.

Variable InputFile : string -> result (Z * Z * Z).

Lemma parse_and_append_result name st :
  parse_and_append InputFile name st
  = match abort_of InputFile name with
    | Some e => inl e
    | None => inr (extend InputFile [name] st)
    end.
Proof.
  destruct (parse_and_append InputFile name st) as [e|st'] eqn:E.
  - unfold parse_and_append in E. unfold abort_of.
    destruct (parse_file_name name) as [e1|fields] eqn:P; cbn [bind] in E.
    + apply parse_file_name_error in P. subst e1. discriminate.
    + destruct (InputFile name) as [e2|[[n ys] xs]]; cbn [bind ret] in E;
        [|discriminate].
      destruct (caught e2); [discriminate|]. now inversion E.
  - pose proof (parse_and_append_extend _ _ _ _ E) as ->.
    unfold parse_and_append in E. unfold abort_of.
    destruct (parse_file_name name) as [e1|fields]; cbn [bind] in E;
      [reflexivity|].
    destruct (InputFile name) as [e2|[[n ys] xs]]; cbn [bind ret] in E;
      [|reflexivity].
    destruct (caught e2); [reflexivity|discriminate].
Qed.

Lemma first_abort_app names1 names2 :
  first_abort InputFile (names1 ++ names2)
  = match first_abort InputFile names1 with
    | Some e => Some e
    | None => first_abort InputFile names2
    end.
Proof.
  induction names1 as [|n names1 IH]; [reflexivity|]. simpl.
  destruct (abort_of InputFile n); [reflexivity|exact IH].
Qed.

Lemma load_files_result root files :
  forall st,
    load_files InputFile root files st
    = match first_abort InputFile (map (path_join root) files) with
      | Some e => inl e
      | None => inr (extend InputFile (map (path_join root) files) st)
      end.
Proof.
  induction files as [|f files IH]; intros st; cbn [load_files map].
  - cbn. now rewrite extend_nil.
  - rewrite parse_and_append_result. cbn [first_abort].
    destruct (abort_of InputFile (path_join root f)) as [e|] eqn:A.
    + unfold abort_of in A.
      destruct (parse_file_name (path_join root f)); [discriminate|].
      destruct (InputFile (path_join root f)) as [e2|]; [|discriminate].
      destruct (caught e2) eqn:C; [discriminate|].
      inversion A; subst. now rewrite C.
    + rewrite IH.
      destruct (first_abort InputFile (map (path_join root) files));
        [reflexivity|].
      now rewrite extend_app.
Qed.

Lemma load_entry_result entry st :
  load_entry InputFile entry st
  = match first_abort InputFile (entry_candidates entry) with
    | Some e => inl e
    | None => inr (extend InputFile (entry_candidates entry) st)
    end.
Proof.
  unfold entry_candidates.
  destruct (String.eqb (basename (w_root entry)) "") eqn:Hb.
  - unfold load_entry. rewrite Hb. apply load_files_result.
  - rewrite (load_entry_named_root _ _ _ Hb), parse_and_append_result.
    cbn [first_abort].
    now destruct (abort_of InputFile (w_root entry)).
Qed.

Lemma load_walk_result walk :
  forall st,
    load_walk InputFile walk st
    = match first_abort InputFile (candidates walk) with
      | Some e => inl e
      | None => inr (extend InputFile (candidates walk) st)
      end.
Proof.
  induction walk as [|entry walk IH]; intros st;
    cbn [load_walk candidates flat_map].
  - cbn. now rewrite extend_nil.
  - rewrite load_entry_result, first_abort_app.
    destruct (first_abort InputFile (entry_candidates entry));
      cbn [bind]; [reflexivity|].
    rewrite IH. fold (candidates walk).
    destruct (first_abort InputFile (candidates walk)); [reflexivity|].
    now rewrite extend_app.
Qed.

Lemma first_abort_origin names e :
  first_abort InputFile names = Some e ->
  caught e = false
  /\ exists name fields,
      In name names /\ parse_file_name name = inr fields
      /\ InputFile name = inl e.
Proof.
  induction names as [|n names IH]; [discriminate|]. cbn [first_abort].
  destruct (abort_of InputFile n) as [e'|] eqn:A.
  - intros H; inversion H; subst e'. unfold abort_of in A.
    destruct (parse_file_name n) as [|fields] eqn:P; [discriminate|].
    destruct (InputFile n) as [e2|] eqn:I; [|discriminate].
    destruct (caught e2) eqn:C; [discriminate|].
    inversion A; subst. split; [assumption|].
    exists n, fields. simpl; auto.
  - intros H. destruct (IH H) as (C & name & fields & Hin & P & I).
    split; [assumption|]. exists name, fields. simpl; auto.
Qed.

End AbortFacts.

(** X4.  For every metadata reader, [load_dir] either returns the table
    of the surviving candidates with the log of the others, or raises;
    it raises exactly the exception of the first candidate, in the order
    tried, whose name parses and whose metadata read raises outside
    [RuntimeError] and [ValueError].  Nothing else aborts a load: neither
    the decoding of the flat list nor the sort can fail. *)
Theorem load_dir_result
        (InputFile : string -> result (Z * Z * Z)) (walk : list walk_entry) :
  load_dir InputFile walk
  = match first_abort InputFile (candidates walk) with
    | Some e => inl e
    | None => inr (table_of (survivors InputFile (candidates walk)),
                   complaints InputFile (candidates walk))
    end
  /\ (forall e,
         load_dir InputFile walk = inl e ->
         caught e = false
         /\ exists name fields,
             In name (candidates walk)
             /\ parse_file_name name = inr fields
             /\ InputFile name = inl e).
Proof.
  assert (E : load_dir InputFile walk
              = match first_abort InputFile (candidates walk) with
                | Some e => inl e
                | None =>
                    inr (table_of (survivors InputFile (candidates walk)),
                         complaints InputFile (candidates walk))
                end).
  { unfold load_dir. rewrite load_walk_result.
    destruct (first_abort InputFile (candidates walk)); cbn [bind];
      [reflexivity|].
    unfold extend; cbn [flist logged app]. now rewrite frame_of_tiles. }
  split; [exact E|].
  intros e H. rewrite E in H.
  destruct (first_abort InputFile (candidates walk)) as [e'|] eqn:A;
    [|discriminate].
  inversion H; subst e'. now apply (first_abort_origin InputFile _ e).
Qed.

Lemma load_dir_result_witness :
  load_dir locked_reader
           [mkEntry "scan/" [] ["x_0_y_0_z_0.tif"; "x_1_y_0_z_0_locked.tif";
                                "x_2_y_0_z_0.tif"]]
  = inl (OSError "permission denied")
  /\ caught (OSError "permission denied") = false.
Proof.
  destruct (load_dir_result
              locked_reader
              [mkEntry "scan/" [] ["x_0_y_0_z_0.tif";
                                   "x_1_y_0_z_0_locked.tif";
                                   "x_2_y_0_z_0.tif"]]) as [E O].
  split; [exact E|]. exact (proj1 (O _ E)).
Defined.

Lemma in_combine_seq {A : Type} (ts : list A) :
  forall start l t,
    In (l, t) (combine (seq start (List.length ts)) ts)
    <-> (start <= l)%nat /\ nth_error ts (l - start) = Some t.
Proof.
  induction ts as [|a ts IH]; intros start l t; simpl.
  - split; [tauto|]. intros [_ H]. destruct (l - start)%nat; discriminate.
  - rewrite IH. split.
    + intros [E|[Hle Hn]].
      * inversion E; subst. rewrite Nat.sub_diag. auto.
      * split; [lia|].
        replace (l - start)%nat with (S (l - S start)) by lia. exact Hn.
    + intros [Hle Hn]. destruct (l - start)%nat as [|k] eqn:E.
      * left. inversion Hn; subst. f_equal. lia.
      * right. split; [lia|].
        replace (l - S start)%nat with k by lia. exact Hn.
Qed.

Lemma StronglySorted_map {A B : Type} (R : A -> A -> Prop)
      (R' : B -> B -> Prop) (f : A -> B) (l : list A) :
  (forall a b, R a b -> R' (f a) (f b)) ->
  StronglySorted R l -> StronglySorted R' (map f l).
Proof.
  intros H. induction 1 as [|a l S IH F]; simpl; constructor; auto.
  apply Forall_map. eapply Forall_impl; [|exact F]. auto.
Qed.

Lemma StronglySorted_filter {A : Type} (R : A -> A -> Prop)
      (keep : A -> bool) (l : list A) :
  StronglySorted R l -> StronglySorted R (filter keep l).
Proof.
  induction 1 as [|a l S IH F]; simpl; [constructor|].
  destruct (keep a); [|exact IH]. constructor; [exact IH|].
  apply Forall_forall. intros x Hx. apply filter_In in Hx.
  rewrite Forall_forall in F. apply F. tauto.
Qed.

Lemma filter_map_swap {A B : Type} (f : A -> B) (keep : B -> bool)
      (l : list A) :
  filter keep (map f l) = map f (filter (fun a => keep (f a)) l).
Proof.
  induction l as [|a l IH]; simpl; [reflexivity|].
  destruct (keep (f a)); simpl; now rewrite IH.
Qed.

Lemma seq_ascending len : forall start, StronglySorted lt (seq start len).
Proof.
  induction len as [|len IH]; intros start; simpl; constructor; auto.
  apply Forall_forall. intros x Hx. apply in_seq in Hx. lia.
Qed.

Lemma at_xyz_keyed x y z (r : nat * Tile.t) :
  at_xyz x y z (fst r, add_Z_end (snd r))
  = keyed key_ZYX key_compare [CInt z; CInt y; CInt x] r.
Proof.
  unfold at_xyz, keyed, key_ZYX. destruct r as [l t]. simpl.
  destruct (Z.compare_spec (Tile.Z t) z) as [Ez|Ez|Ez];
    destruct (Z.compare_spec (Tile.Y t) y) as [Ey|Ey|Ey];
    destruct (Z.compare_spec (Tile.X t) x) as [Ex|Ex|Ex];
    repeat match goal with
           | |- context [Z.eqb ?a ?b] =>
               destruct (Z.eqb_spec a b); try lia
           end; reflexivity.
Qed.

Lemma sorted_labels_filter {A : Type} (keep : nat * A -> bool)
      (l : frame A) :
  StronglySorted lt (map fst l) ->
  StronglySorted lt (map fst (filter keep l)).
Proof.
  induction l as [|a l IH]; simpl; intros S; [constructor|].
  inversion S as [|? ? S' F]; subst.
  destruct (keep a); [|auto]. simpl. constructor; [auto|].
  apply Forall_forall. intros x Hx. apply in_map_iff in Hx.
  destruct Hx as (r & <- & Hr). apply filter_In in Hr.
  rewrite Forall_forall in F. apply F. apply in_map. tauto.
Qed.

Section TableFacts.

Variable ts : list Tile.t.

Lemma table_of_sorted : StronglySorted zyx_le (table_of ts).
Proof.
  unfold table_of.
  apply (StronglySorted_map (in_order key_ZYX key_compare true)).
  - intros a b H. unfold zyx_le. cbn [snd add_Z_end Row.Z Row.Y Row.X].
    apply compare3_le. exact H.
  - apply sort_values_sorted. exact key_order.
Qed.

Lemma table_of_rows l r :
  In (l, r) (table_of ts)
  <-> exists t, nth_error ts l = Some t /\ r = add_Z_end t.
Proof.
  unfold table_of. rewrite in_map_iff. split.
  - intros ([l' t] & E & H). inversion E; subst.
    apply (Permutation_in _ (sort_values_perm key_ZYX key_compare true _))
      in H.
    apply in_combine_seq in H. rewrite Nat.sub_0_r in H.
    exists t. tauto.
  - intros (t & Hn & ->). exists (l, t). split; [reflexivity|].
    apply (Permutation_in
             _ (Permutation_sym
                  (sort_values_perm key_ZYX key_compare true _))).
    apply in_combine_seq. rewrite Nat.sub_0_r. split; [lia|exact Hn].
Qed.

Lemma table_of_ties x y z :
  StronglySorted lt (labels (filter (at_xyz x y z) (table_of ts))).
Proof.
  unfold table_of, labels.
  rewrite filter_map_swap, map_map. cbn [fst].
  rewrite (filter_ext _ _ (at_xyz_keyed x y z)).
  rewrite sort_values_stable by exact key_order.
  apply sorted_labels_filter.
  rewrite fst_combine by now rewrite length_seq.
  apply seq_ascending.
Qed.

End TableFacts.

Lemma load_dir_table InputFile walk df log :
  load_dir InputFile walk = inr (df, log) ->
  df = table_of (survivors InputFile (candidates walk))
  /\ log = complaints InputFile (candidates walk).
Proof.
  unfold load_dir. rewrite load_walk_result.
  destruct (first_abort InputFile (candidates walk)); cbn [bind];
    [discriminate|].
  unfold extend; cbn [flist logged app]. rewrite frame_of_tiles. cbn.
  intros H; inversion H; auto.
Qed.

(** X5.  The table [load_dir] returns is sorted by ascending
    [(Z, Y, X)], tiles at the same coordinates standing in the order they
    were discovered.  The index label of a row is the discovery rank of
    its tile among the surviving candidates, each rank from 0 labelling
    exactly one row, and the row carries [Z_end = Z + nfrms]. *)
Theorem load_dir_table_invariants
        (InputFile : string -> result (Z * Z * Z)) (walk : list walk_entry)
        (df : data_frame) (log : list string) :
  load_dir InputFile walk = inr (df, log) ->
  let ts := survivors InputFile (candidates walk) in
  StronglySorted zyx_le df
  /\ (forall x y z,
         StronglySorted lt (labels (filter (at_xyz x y z) df)))
  /\ (forall l r,
         In (l, r) df <->
         exists t, nth_error ts l = Some t /\ r = add_Z_end t)
  /\ Permutation (labels df) (seq 0 (List.length ts))
  /\ (forall r, In r df ->
                Row.Z_end (snd r) = Row.Z (snd r) + Row.nfrms (snd r)).
Proof.
  intros H ts. apply load_dir_table in H. destruct H as [-> _]. fold ts.
  split; [apply table_of_sorted|].
  split; [apply table_of_ties|].
  split; [apply table_of_rows|].
  split; [apply table_of_labels|].
  intros [l r] Hr. apply table_of_rows in Hr. destruct Hr as (t & _ & ->).
  reflexivity.
Qed.

Lemma load_dir_table_invariants_witness :
  exists df log,
    load_dir sample_reader sample_walk = inr (df, log)
    /\ StronglySorted zyx_le df
    /\ Permutation (labels df) [0%nat; 1%nat; 2%nat].
Proof.
  eexists _, _. split; [vm_compute; reflexivity|].
  pose proof (load_dir_table_invariants sample_reader sample_walk _ _
                                        eq_refl) as H.
  cbv zeta in H. destruct H as (S & _ & _ & P & _).
  split; [exact S|exact P].
Defined.

Lemma survivor_or_complaint InputFile (names : list string) :
  (List.length (survivors InputFile names)
   + List.length (complaints InputFile names))%nat
  = List.length names.
Proof.
  unfold survivors, complaints.
  induction names as [|n names IH]; [reflexivity|]. cbn [flat_map].
  rewrite !length_app. unfold survivor at 1, complaint at 1.
  destruct (candidate_tile InputFile n); simpl; lia.
Qed.

(** X6.  When [load_dir] returns, every path it handed to
    [parse_and_append] is accounted for exactly once: it is a row of the
    table or a line of the log, so the rows and the logged lines together
    are as many as the candidates. *)
Theorem load_dir_accounts_for_candidates
        (InputFile : string -> result (Z * Z * Z)) (walk : list walk_entry)
        (df : data_frame) (log : list string) :
  load_dir InputFile walk = inr (df, log) ->
  (List.length df + List.length log)%nat = List.length (candidates walk).
Proof.
  intros H. apply load_dir_table in H. destruct H as [-> ->].
  rewrite table_of_length. apply survivor_or_complaint.
Qed.

Lemma load_dir_accounts_for_candidates_witness :
  exists df log,
    load_dir sample_reader sample_walk = inr (df, log)
    /\ (List.length df + List.length log)%nat = 5%nat.
Proof.
  eexists _, _. split; [vm_compute; reflexivity|].
  exact (load_dir_accounts_for_candidates sample_reader sample_walk _ _
                                          eq_refl).
Defined.

Lemma load_dir_by_candidates InputFile walk walk' :
  candidates walk = candidates walk' ->
  load_dir InputFile walk = load_dir InputFile walk'.
Proof.
  intros E. unfold load_dir. now rewrite !load_walk_result, E.
Qed.

Lemma candidates_named_roots (walk : list walk_entry) :
  (forall entry, In entry walk ->
                 String.eqb (basename (w_root entry)) "" = false) ->
  candidates walk = map w_root walk.
Proof.
  induction walk as [|entry walk IH]; intros H; [reflexivity|].
  cbn [candidates flat_map map]. unfold entry_candidates at 1.
  rewrite (H entry (or_introl eq_refl)). cbn [app]. f_equal.
  apply IH. intros e He. apply H. now right.
Qed.

(** X7.  In a walk whose directory paths all have a base name, as in the
    walk of a root written without a trailing separator, [load_dir] hands
    only the directories themselves to [parse_and_append]: the catalog is
    the one of the same directories with no file in them, whatever files
    they hold. *)
Theorem load_dir_named_roots
        (InputFile : string -> result (Z * Z * Z)) (walk : list walk_entry) :
  (forall entry, In entry walk ->
                 String.eqb (basename (w_root entry)) "" = false) ->
  candidates walk = map w_root walk
  /\ load_dir InputFile walk
     = load_dir InputFile
                (map (fun entry => mkEntry (w_root entry) [] []) walk).
Proof.
  intros H. split; [now apply candidates_named_roots|].
  apply load_dir_by_candidates.
  rewrite !candidates_named_roots; auto.
  - rewrite map_map. reflexivity.
  - intros e He. apply in_map_iff in He. destruct He as (e0 & <- & He0).
    cbn [w_root]. now apply H.
Qed.

Lemma load_dir_named_roots_witness :
  candidates plain_root_walk = ["data"; "data/x_5_y_5_z_5"]
  /\ load_dir sample_reader plain_root_walk
     = inr (table_of [Tile.mk 5 5 5 5 100 100 "data/x_5_y_5_z_5"],
            ["Invalid name data"]).
Proof.
  destruct (load_dir_named_roots sample_reader plain_root_walk) as [C L].
  - intros entry [<-|[<-|[]]]; reflexivity.
  - split; [exact C|]. rewrite L. vm_compute. reflexivity.
Defined.

Lemma nth_error_app_left {A : Type} (l l' : list A) n a :
  nth_error l n = Some a -> nth_error (l ++ l') n = Some a.
Proof.
  intros H. rewrite nth_error_app1; [exact H|].
  apply nth_error_Some. congruence.
Qed.

(** X8.  Walking further never disturbs what was found: when the loads
    of a walk and of the same walk followed by more entries both return,
    every row of the first table is a row of the second, with the same
    index label, and the first log opens the second. *)
Theorem load_dir_extends
        (InputFile : string -> result (Z * Z * Z))
        (walk more : list walk_entry) (df df' : data_frame)
        (log log' : list string) :
  load_dir InputFile walk = inr (df, log) ->
  load_dir InputFile (walk ++ more) = inr (df', log') ->
  (forall l r, In (l, r) df -> In (l, r) df')
  /\ exists later, log' = log ++ later.
Proof.
  intros H H'. apply load_dir_table in H, H'.
  destruct H as [-> ->]. destruct H' as [-> ->].
  unfold candidates. rewrite flat_map_app.
  fold (candidates walk). fold (candidates more).
  unfold survivors, complaints. rewrite !flat_map_app. split.
  - intros l r Hr. apply table_of_rows in Hr. apply table_of_rows.
    destruct Hr as (t & Hn & ->). exists t. split; [|reflexivity].
    now apply nth_error_app_left.
  - eexists. reflexivity.
Qed.

Lemma load_dir_extends_witness :
  exists df df' log log',
    load_dir sample_reader barren_walk = inr (df, log)
    /\ load_dir sample_reader (barren_walk ++ two_deep_walk)
       = inr (df', log')
    /\ exists later, log' = log ++ later.
Proof.
  eexists _, _, _, _.
  split; [vm_compute; reflexivity|]. split; [vm_compute; reflexivity|].
  exact (proj2 (load_dir_extends sample_reader barren_walk two_deep_walk
                                 _ _ _ _ eq_refl eq_refl)).
Defined.

(* ================================================================== *)
(** ** Components are the classes of connection *)

Lemma neighbors_sym G v w : In w (neighbors G v) -> In v (neighbors G w).
Proof.
  rewrite !neighbors_in. intros (e & He & H). exists e. tauto.
Qed.

Lemma connected_trans G u v w :
  connected G u v -> connected G v w -> connected G u w.
Proof.
  intros H1 H2. induction H2; [assumption|].
  eapply connected_step; eauto.
Qed.

Lemma connected_sym G u v : connected G u v -> connected G v u.
Proof.
  intros H. induction H; [constructor|].
  eapply connected_trans; [|exact IHconnected].
  eapply connected_step; [constructor|]. now apply neighbors_sym.
Qed.

Lemma connected_nodes G v x :
  well_formed G -> In v (nodes G) -> connected G v x -> In x (nodes G).
Proof.
  intros WF Hv H. induction H; [assumption|].
  eapply neighbors_nodes; eauto.
Qed.

(** The search marks only nodes that a path joins to its source. *)
Lemma plain_bfs_sound G v fuel :
  forall seen level,
    (forall x, In x seen -> connected G v x) ->
    (forall x, In x level -> connected G v x) ->
    forall x, In x (plain_bfs fuel G seen level) -> connected G v x.
Proof.
  induction fuel as [|fuel IH]; intros seen level Hs Hl x; simpl;
    [apply Hs|].
  destruct level as [|a level]; [apply Hs|].
  destruct (visit_level G (a :: level) seen []) as [seen' next] eqn:E.
  destruct (visit_level_facts G _ _ _ _ _ E) as (_ & _ & _ & H4 & H5 & _).
  apply IH.
  - intros y Hy. destruct (H4 y Hy) as [|[? _]]; auto.
  - intros y Hy. destruct (H5 y Hy) as [[]|(u & Hu & Hw)].
    eapply connected_step; eauto.
Qed.

Section Components.

Variable G : Graph.
Hypothesis WF : well_formed G.

Lemma component_of_connected v x :
  In v (nodes G) -> In x (component_of G v) <-> connected G v x.
Proof.
  intros Hv. split.
  - apply plain_bfs_sound; [intros y []|intros y [<-|[]]; constructor].
  - intros H. destruct (component_of_closed G WF v Hv) as (C & I).
    induction H; [assumption|]. eapply C; eauto.
Qed.

Lemma held_nodes_in c x : In x (held_nodes G c) <-> In x (nodes G) /\ In x c.
Proof.
  unfold held_nodes. rewrite filter_In, mem_In. tauto.
Qed.

Lemma class_closed_app seen v :
  class_closed G seen -> In v (nodes G) ->
  class_closed G (seen ++ component_of G v).
Proof.
  intros W Hv x y Hx Hxy. apply in_app_iff. apply in_app_iff in Hx.
  destruct Hx as [Hx|Hx]; [left; eapply W; eauto|right].
  apply component_of_connected; [assumption|].
  apply component_of_connected in Hx; [|assumption].
  eapply connected_trans; eauto.
Qed.

Lemma class_closed_apart seen v x :
  class_closed G seen -> In v (nodes G) -> ~ In v seen ->
  In x (component_of G v) -> ~ In x seen.
Proof.
  intros W Hv Hn Hx Hs. apply Hn.
  apply component_of_connected in Hx; [|assumption].
  apply (W x v Hs). now apply connected_sym.
Qed.

(** Each component is the class of a node that no earlier one holds. *)
Lemma components_from_origin vs :
  forall seen c,
    incl vs (nodes G) ->
    In c (components_from G vs seen) ->
    exists v, In v vs /\ ~ In v seen /\ c = component_of G v.
Proof.
  induction vs as [|v vs IH]; intros seen c Hvs Hc; simpl in Hc;
    [destruct Hc|].
  assert (Hvs' : incl vs (nodes G)) by (intros y Hy; apply Hvs; now right).
  destruct (mem v seen) eqn:E.
  - destruct (IH seen c Hvs' Hc) as (u & Hu & Hn & Hcu).
    exists u. simpl; auto.
  - apply mem_false in E. destruct Hc as [<-|Hc].
    + exists v. simpl; auto.
    + destruct (IH _ c Hvs' Hc) as (u & Hu & Hn & Hcu).
      exists u. repeat split; [now right| |assumption].
      intros H. apply Hn. apply in_app_iff. now left.
Qed.

(** Every node is in a part, or was held before. *)
Lemma components_from_cover vs :
  forall seen x,
    incl vs (nodes G) -> In x vs ->
    In x seen
    \/ In x (List.concat (map (held_nodes G) (components_from G vs seen))).
Proof.
  induction vs as [|v vs IH]; intros seen x Hvs Hx; [destruct Hx|].
  assert (Hvs' : incl vs (nodes G)) by (intros y Hy; apply Hvs; now right).
  assert (Hv : In v (nodes G)) by (apply Hvs; now left).
  simpl. destruct (mem v seen) eqn:E.
  - destruct Hx as [<-|Hx]; [left; now apply mem_In|]. now apply IH.
  - cbn [map List.concat]. destruct Hx as [<-|Hx].
    + right. apply in_app_iff. left. apply held_nodes_in. split; [assumption|].
      now apply component_of_closed.
    + destruct (IH (seen ++ component_of G v) x Hvs' Hx) as [H|H].
      * apply in_app_iff in H. destruct H as [H|H]; [now left|right].
        apply in_app_iff. left. apply held_nodes_in. split; [|assumption].
        apply Hvs. now right.
      * right. apply in_app_iff. now right.
Qed.

(** The parts do not overlap, and hold nothing that was held before. *)
Lemma components_from_apart vs :
  forall seen,
    NoDup (nodes G) -> incl vs (nodes G) -> class_closed G seen ->
    NoDup (List.concat (map (held_nodes G) (components_from G vs seen)))
    /\ forall x,
        In x (List.concat (map (held_nodes G) (components_from G vs seen))) ->
        ~ In x seen.
Proof.
  intros seen ND. revert seen.
  induction vs as [|v vs IH]; intros seen Hvs W; simpl.
  - split; [constructor|intros x []].
  - assert (Hvs' : incl vs (nodes G))
      by (intros y Hy; apply Hvs; now right).
    assert (Hv : In v (nodes G)) by (apply Hvs; now left).
    destruct (mem v seen) eqn:E; [now apply IH|].
    apply mem_false in E. cbn [map List.concat].
    destruct (IH (seen ++ component_of G v) Hvs' (class_closed_app _ _ W Hv))
      as (N & A).
    split.
    + apply NoDup_app; [now apply NoDup_filter|assumption|].
      intros x Hx Hr. apply (A x Hr). apply in_app_iff. right.
      now apply held_nodes_in in Hx.
    + intros x Hx. apply in_app_iff in Hx. destruct Hx as [Hx|Hx].
      * apply held_nodes_in in Hx. eapply class_closed_apart; eauto. tauto.
      * intros Hs. apply (A x Hx). apply in_app_iff. now left.
Qed.

(** The components of a graph, as [connected_component_subgraphs] gives
    them, are the classes of connection of its nodes. *)
Lemma components_classes a b :
  In a (nodes G) ->
  (exists s, In s (connected_component_subgraphs G) /\ In a s /\ In b s)
  <-> connected G a b.
Proof.
  intros Ha. unfold connected_component_subgraphs. fold (held_nodes G). split.
  - intros (s & Hs & Has & Hbs). apply in_map_iff in Hs.
    destruct Hs as (c & <- & Hc).
    apply components_from_origin in Hc; [|apply incl_refl].
    destruct Hc as (v & Hv & _ & ->).
    apply held_nodes_in in Has. apply held_nodes_in in Hbs.
    destruct Has as [_ Has]. destruct Hbs as [_ Hbs].
    apply component_of_connected in Has; [|assumption].
    apply component_of_connected in Hbs; [|assumption].
    eapply connected_trans; [apply connected_sym|]; eauto.
  - intros Hab.
    destruct (components_from_cover (nodes G) [] a (incl_refl _) Ha)
      as [[]|H].
    apply in_concat in H. destruct H as (s & Hs & Has).
    exists s. repeat split; [assumption|assumption|].
    apply in_map_iff in Hs. destruct Hs as (c & <- & Hc).
    apply components_from_origin in Hc; [|apply incl_refl].
    destruct Hc as (v & Hv & _ & ->).
    apply held_nodes_in in Has. destruct Has as [_ Has].
    apply component_of_connected in Has; [|assumption].
    assert (Hvb : connected G v b) by (eapply connected_trans; eauto).
    apply held_nodes_in. split; [eapply connected_nodes; eauto|].
    now apply (proj2 (component_of_connected v b Hv)).
Qed.

(** They make a partition of the nodes into parts that are not empty. *)
Lemma components_partition :
  NoDup (nodes G) ->
  Permutation (List.concat (connected_component_subgraphs G)) (nodes G)
  /\ forall s, In s (connected_component_subgraphs G) -> s <> [].
Proof.
  intros ND. unfold connected_component_subgraphs. fold (held_nodes G). split.
  - apply NoDup_Permutation; [|assumption|].
    + apply (components_from_apart (nodes G) [] ND (incl_refl _)).
      intros x y [].
    + intros x. split.
      * intros H. apply in_concat in H. destruct H as (s & Hs & Hx).
        apply in_map_iff in Hs. destruct Hs as (c & <- & _).
        now apply held_nodes_in in Hx.
      * intros Hx.
        destruct (components_from_cover (nodes G) [] x (incl_refl _) Hx)
          as [[]|H].
        exact H.
  - intros s Hs. apply in_map_iff in Hs. destruct Hs as (c & <- & Hc).
    apply components_from_origin in Hc; [|apply incl_refl].
    destruct Hc as (v & Hv & _ & ->). intros E.
    assert (H : In v (held_nodes G (component_of G v))).
    { apply held_nodes_in. split; [assumption|].
      now apply component_of_closed. }
    rewrite E in H. destruct H.
Qed.

End Components.

(* ================================================================== *)
(** ** Slices are the chains of enclosure *)

Lemma enclosers_self df r : In r df -> In (fst r) (enclosers df (snd r)).
Proof.
  intros Hr. unfold enclosers. apply (labels_in _ r). apply filter_In.
  split; [assumption|]. destruct r as [l row]. apply enclosing_self.
Qed.

Lemma co_enclosers_sym df a b : co_enclosers df a b -> co_enclosers df b a.
Proof. intros (t & Ht & Ha & Hb). exists t. tauto. Qed.

Lemma row_edges_enclosers df r a b :
  In r df -> In (a, b) (row_edges df (snd r)) ->
  In a (enclosers df (snd r)) /\ In b (enclosers df (snd r)).
Proof.
  intros Hr He. pose proof (enclosers_self df r Hr) as Hs.
  unfold row_edges in He. fold (enclosers df (snd r)) in He.
  set (idx := enclosers df (snd r)) in *.
  apply in_app_or in He. destruct He as [He|[He|[]]].
  - now apply in_combine_tl.
  - inversion He; subst. split.
    + destruct idx; [destruct Hs|simpl; auto].
    + apply last_in. intros E. rewrite E in Hs. destruct Hs.
Qed.

Lemma tile_graph_edge df a b :
  In (a, b) (edges (tile_graph df)) -> co_enclosers df a b.
Proof.
  intros He. cbn [tile_graph edges] in He. apply in_flat_map in He.
  destruct He as (r & Hr & He). exists r. split; [assumption|].
  now apply row_edges_enclosers.
Qed.

Lemma connected_chained df a b :
  connected (tile_graph df) a b -> chained df a b.
Proof.
  intros H. induction H; [constructor|].
  eapply chained_step; [eassumption|].
  apply neighbors_in in H0. destruct H0 as ([x y] & He & H0). simpl in H0.
  destruct H0 as [[-> ->]|[-> ->]].
  - now apply tile_graph_edge.
  - now apply co_enclosers_sym, tile_graph_edge.
Qed.

Lemma co_enclosers_labels df a b :
  co_enclosers df a b -> In a (labels df) /\ In b (labels df).
Proof.
  intros (t & _ & Ha & Hb). split; eapply labels_filter_incl; eassumption.
Qed.

(** The enclosers of a row are all in the component of the first. *)
Lemma enclosers_component df r :
  In r df ->
  exists first,
    In first (labels df)
    /\ incl (enclosers df (snd r)) (component_of (tile_graph df) first).
Proof.
  intros Hr. pose proof (enclosers_self df r Hr) as Hs.
  pose proof (slice_graph_well_formed df) as WF.
  fold (tile_graph df) in WF.
  destruct (enclosers df (snd r)) as [|first idx] eqn:E; [destruct Hs|].
  assert (Hf : In first (labels df)).
  { apply (labels_filter_incl (enclosing (snd r))).
    fold (enclosers df (snd r)). rewrite E. simpl; auto. }
  exists first. split; [assumption|].
  destruct (component_of_closed (tile_graph df) WF first) as [C Hv].
  { apply frame_nodes_labels. assumption. }
  apply (closed_chain (tile_graph df) _ _ C) with (first := first);
    [|reflexivity|exact Hv].
  intros a b H. cbn [tile_graph edges]. apply in_flat_map.
  exists r. split; [assumption|].
  unfold row_edges. fold (enclosers df (snd r)). rewrite E.
  apply in_or_app. now left.
Qed.

Lemma co_enclosers_connected df a b :
  co_enclosers df a b -> connected (tile_graph df) a b.
Proof.
  intros (t & Ht & Ha & Hb).
  pose proof (slice_graph_well_formed df) as WF.
  fold (tile_graph df) in WF.
  destruct (enclosers_component df t Ht) as (first & Hf & Hin).
  assert (Hn : In first (nodes (tile_graph df)))
    by now apply frame_nodes_labels.
  apply Hin in Ha. apply Hin in Hb.
  apply (component_of_connected _ WF) in Ha; [|assumption].
  apply (component_of_connected _ WF) in Hb; [|assumption].
  eapply connected_trans; [apply connected_sym|]; eassumption.
Qed.

Lemma chained_connected df a b :
  chained df a b -> connected (tile_graph df) a b.
Proof.
  intros H. induction H; [constructor|].
  eapply connected_trans; [eassumption|].
  now apply co_enclosers_connected.
Qed.

Lemma slices_tile_graph df :
  slices df = inr (connected_component_subgraphs (tile_graph df)).
Proof. apply slices_total. Qed.

Lemma same_slice_chained df a b :
  In a (labels df) ->
  same_slice (connected_component_subgraphs (tile_graph df)) a b
  <-> chained df a b.
Proof.
  intros Ha. pose proof (slice_graph_well_formed df) as WF.
  fold (tile_graph df) in WF. unfold same_slice.
  rewrite (components_classes _ WF).
  - split; [apply connected_chained|apply chained_connected].
  - now apply frame_nodes_labels.
Qed.

Lemma slices_partition_of_labels df :
  NoDup (labels df) ->
  Permutation (List.concat (connected_component_subgraphs (tile_graph df)))
              (labels df)
  /\ forall s, In s (connected_component_subgraphs (tile_graph df)) ->
               s <> [].
Proof.
  intros ND. pose proof (slice_graph_well_formed df) as WF.
  fold (tile_graph df) in WF.
  assert (E : nodes (tile_graph df) = labels df)
    by now apply frame_nodes_NoDup.
  destruct (components_partition _ WF) as [P N].
  - now rewrite E.
  - rewrite E in P. now split.
Qed.

Lemma slices_pair (l1 l2 : nat) (r1 r2 : Row.t) :
  l1 <> l2 ->
  slices [(l1, r1); (l2, r2)]
  = inr (if (enclosing r1 (l2, r2) || enclosing r2 (l1, r1))%bool
         then [[l1; l2]] else [[l1]; [l2]]).
Proof.
  intros Hl.
  assert (E12 : Nat.eqb l1 l2 = false) by now apply Nat.eqb_neq.
  assert (E21 : Nat.eqb l2 l1 = false) by (apply Nat.eqb_neq; congruence).
  rewrite slices_total, frame_nodes_NoDup
    by (cbn; repeat constructor; simpl; intuition).
  cbn [flat_map snd]. unfold row_edges. cbn [filter].
  rewrite !enclosing_self.
  destruct (enclosing r1 (l2, r2)), (enclosing r2 (l1, r1));
    cbn [labels map fst snd tl combine app hd last orb];
    unfold connected_component_subgraphs, component_of;
    repeat (progress (cbn; rewrite ?Nat.eqb_refl, ?E12, ?E21));
    reflexivity.
Qed.

Lemma enclosing_spec row r :
  enclosing row r = true
  <-> Row.Z (snd r) <= Row.Z row /\ Row.Z_end row <= Row.Z_end (snd r).
Proof.
  unfold enclosing. rewrite andb_true_iff, Z.geb_leb, !Z.leb_le. tauto.
Qed.

(** X9. [slices] never fails and splits the catalog: on a catalog whose
    labels are distinct, the slices hold every label exactly once
    between them, and no slice is empty. *)
Theorem slices_partition (df : data_frame) :
  NoDup (labels df) ->
  exists ss,
    slices df = inr ss
    /\ Permutation (List.concat ss) (labels df)
    /\ (forall s, In s ss -> s <> []).
Proof.
  intros ND. eexists. split; [apply slices_tile_graph|].
  now apply slices_partition_of_labels.
Qed.

Lemma slices_partition_witness :
  exists ss,
    slices (table_of two_deep) = inr ss
    /\ Permutation (List.concat ss) (labels (table_of two_deep))
    /\ (forall s, In s ss -> s <> []).
Proof.
  apply (slices_partition (table_of two_deep)).
  vm_compute. repeat constructor; simpl; intuition discriminate.
Defined.

(** X10. Which tiles [slices] puts together: two tiles are in the same
    slice exactly when a chain of tiles leads from one to the other in
    which each two neighbours both enclose ([Z <= row.Z] and
    [Z_end >= row.Z_end]) some tile [row] of the catalog. *)
Theorem slices_follow_enclosure (df : data_frame) (a b : nat) :
  In a (labels df) ->
  exists ss,
    slices df = inr ss /\ (same_slice ss a b <-> chained df a b).
Proof.
  intros Ha. eexists. split; [apply slices_tile_graph|].
  now apply same_slice_chained.
Qed.

Lemma slices_follow_enclosure_witness :
  exists ss,
    slices (table_of three_level) = inr ss
    /\ (same_slice ss 1%nat 2%nat <-> chained (table_of three_level) 1 2).
Proof.
  apply (slices_follow_enclosure (table_of three_level) 1 2).
  vm_compute. auto.
Defined.

(** X11. A tile is in the slice of every tile whose depth range it
    encloses. *)
Theorem enclosed_tile_same_slice (df : data_frame) (ta tb : nat * Row.t) :
  In ta df -> In tb df ->
  Row.Z (snd ta) <= Row.Z (snd tb) ->
  Row.Z_end (snd tb) <= Row.Z_end (snd ta) ->
  exists ss, slices df = inr ss /\ same_slice ss (fst ta) (fst tb).
Proof.
  intros Ha Hb Hz Hze. eexists. split; [apply slices_tile_graph|].
  apply same_slice_chained; [now apply labels_in|].
  eapply chained_step; [constructor|].
  exists tb. repeat split; [assumption| |now apply enclosers_self].
  unfold enclosers. apply (labels_in _ ta). apply filter_In.
  split; [assumption|]. apply enclosing_spec. tauto.
Qed.

Lemma enclosed_tile_same_slice_witness :
  exists ss,
    slices [(0%nat, Row.mk 0 0 0 20 100 100 "a" 20);
            (1%nat, Row.mk 0 0 5 10 100 100 "b" 15)] = inr ss
    /\ same_slice ss 0%nat 1%nat.
Proof.
  apply (enclosed_tile_same_slice
           [(0%nat, Row.mk 0 0 0 20 100 100 "a" 20);
            (1%nat, Row.mk 0 0 5 10 100 100 "b" 15)]
           (0%nat, Row.mk 0 0 0 20 100 100 "a" 20)
           (1%nat, Row.mk 0 0 5 10 100 100 "b" 15)).
  - simpl; auto.
  - simpl; auto.
  - simpl. lia.
  - simpl. lia.
Defined.

(** X12. A catalog of two tiles is one slice when the depth range of one
    encloses that of the other, and two slices of one tile when neither
    does. *)
Theorem slices_of_two_tiles (l1 l2 : nat) (r1 r2 : Row.t) :
  l1 <> l2 ->
  slices [(l1, r1); (l2, r2)]
  = inr (if (enclosing r1 (l2, r2) || enclosing r2 (l1, r1))%bool
         then [[l1; l2]] else [[l1]; [l2]]).
Proof. apply slices_pair. Qed.

Lemma slices_of_two_tiles_witness :
  slices [(0%nat, Row.mk 0 0 0 20 100 100 "a" 20);
          (1%nat, Row.mk 0 0 5 10 100 100 "b" 15)]
  = inr [[0%nat; 1%nat]].
Proof.
  apply (slices_of_two_tiles 0 1 (Row.mk 0 0 0 20 100 100 "a" 20)
                             (Row.mk 0 0 5 10 100 100 "b" 15)).
  discriminate.
Defined.

(** X13. Sharing a frame is not enough: two tiles whose depth ranges
    overlap, but of which neither encloses the other, make two slices of
    one tile. *)
Theorem overlapping_tiles_two_slices (l1 l2 : nat) (r1 r2 : Row.t) :
  l1 <> l2 ->
  Row.Z r1 < Row.Z r2 ->
  Row.Z r2 < Row.Z_end r1 ->
  Row.Z_end r1 < Row.Z_end r2 ->
  share_a_frame r1 r2
  /\ slices [(l1, r1); (l2, r2)] = inr [[l1]; [l2]].
Proof.
  intros Hl H1 H2 H3. split.
  - exists (Row.Z r2). lia.
  - rewrite slices_pair by assumption.
    assert (F1 : enclosing r1 (l2, r2) = false).
    { destruct (enclosing r1 (l2, r2)) eqn:E; [|reflexivity].
      apply enclosing_spec in E. simpl in E. lia. }
    assert (F2 : enclosing r2 (l1, r1) = false).
    { destruct (enclosing r2 (l1, r1)) eqn:E; [|reflexivity].
      apply enclosing_spec in E. simpl in E. lia. }
    now rewrite F1, F2.
Qed.

Lemma overlapping_tiles_two_slices_witness :
  share_a_frame (Row.mk 0 0 0 10 100 100 "a" 10)
                (Row.mk 0 0 5 10 100 100 "b" 15)
  /\ slices [(0%nat, Row.mk 0 0 0 10 100 100 "a" 10);
             (1%nat, Row.mk 0 0 5 10 100 100 "b" 15)]
     = inr [[0%nat]; [1%nat]].
Proof.
  apply (overlapping_tiles_two_slices
           0 1 (Row.mk 0 0 0 10 100 100 "a" 10)
           (Row.mk 0 0 5 10 100 100 "b" 15)).
  - discriminate.
  - reflexivity.
  - reflexivity.
  - reflexivity.
Defined.

(* ================================================================== *)
(** ** [tiles_along_dir] under its protocol *)

Lemma converse_await fuel df got s rest gs :
  view df s got = inr gs ->
  converse fuel df got (GenAwait s rest) (Some got)
  = converse fuel df got (GenGroups gs rest) None.
Proof.
  intros V. destruct fuel as [|fuel]; [reflexivity|].
  cbn [converse send]. rewrite V. reflexivity.
Qed.

Lemma converse_start fuel df got ss :
  slices df = inr ss ->
  converse fuel df got GenStart None
  = converse fuel df got (GenGroups [] ss) None.
Proof.
  intros S. destruct fuel as [|fuel]; [reflexivity|].
  cbn [converse send next_group]. rewrite S. reflexivity.
Qed.

Lemma converse_groups df got ss gss :
  views df got ss gss ->
  forall gs fuel,
    (List.length gs + List.length ss + List.length (List.concat gss) + 1
     <= fuel)%nat ->
    converse fuel df got (GenGroups gs ss) None
    = Some (gs ++ List.concat gss, Exhausted).
Proof.
  intros V. induction V as [|s g_s ss gss Hv V IH].
  - induction gs as [|g gs IHg]; intros fuel Hf;
      (destruct fuel as [|fuel]; [simpl in Hf; lia|]).
    + reflexivity.
    + cbn [converse send next_group]. rewrite IHg by (simpl in *; lia).
      reflexivity.
  - induction gs as [|g gs IHg]; intros fuel Hf;
      (destruct fuel as [|fuel]; [simpl in Hf; lia|]).
    + cbn [converse send next_group next_slice].
      rewrite (converse_await _ _ _ _ _ _ Hv).
      rewrite IH; [reflexivity|].
      cbn [List.concat List.length] in Hf. rewrite length_app in Hf. lia.
    + cbn [converse send next_group]. rewrite IHg by (simpl in *; lia).
      reflexivity.
Qed.

Lemma views_exist df got ss :
  (forall s, In s ss -> exists gs, view df s got = inr gs) ->
  exists gss, views df got ss gss.
Proof.
  induction ss as [|s ss IH]; intros H.
  - exists []. constructor.
  - destruct (H s (or_introl eq_refl)) as (gs & Hg).
    destruct IH as (gss & Hgss); [intros x Hx; apply H; now right|].
    exists (gs :: gss). now constructor.
Qed.

Lemma views_of_slices df by_ ascending group_key cs c ss :
  resolve by_ = inr cs -> column_of_name group_key = Some c ->
  slices df = inr ss ->
  exists gss, views df (by_, ascending, group_key) ss gss.
Proof.
  intros R C S. apply views_exist. intros s Hs.
  destruct (view_of_slice df ss s ascending by_ group_key cs c S Hs R C)
    as (sub & _ & _ & V).
  eauto.
Qed.

(** X14. [tiles_along_dir] keeps its promise to a consumer that keeps
    the protocol: when the tuple names columns of the table and is sent
    at every [None], the generator yields the groups of every slice,
    slice after slice, and then ends without raising. *)
Theorem tiles_along_dir_protocol
        (df : data_frame) (by_ : list string) (ascending : bool)
        (group_key : string) (cs : list column) (c : column) :
  resolve by_ = inr cs ->
  column_of_name group_key = Some c ->
  exists ss gss,
    slices df = inr ss
    /\ views df (by_, ascending, group_key) ss gss
    /\ forall fuel,
        (List.length ss + List.length (List.concat gss) + 1 <= fuel)%nat ->
        converse fuel df (by_, ascending, group_key) GenStart None
        = Some (List.concat gss, Exhausted).
Proof.
  intros R C. pose proof (slices_tile_graph df) as S.
  destruct (views_of_slices df by_ ascending group_key cs c _ R C S)
    as (gss & V).
  eexists _, gss. split; [exact S|]. split; [exact V|].
  intros fuel Hf. rewrite (converse_start _ _ _ _ S).
  now rewrite (converse_groups _ _ _ _ V [] fuel Hf).
Qed.

Lemma tiles_along_dir_protocol_witness :
  exists ss gss,
    slices (table_of two_deep) = inr ss
    /\ views (table_of two_deep) (["Z"; "Y"; "X"], true, "X") ss gss
    /\ forall fuel,
        (List.length ss + List.length (List.concat gss) + 1 <= fuel)%nat ->
        converse fuel (table_of two_deep) (["Z"; "Y"; "X"], true, "X")
                 GenStart None
        = Some (List.concat gss, Exhausted).
Proof.
  apply (tiles_along_dir_protocol (table_of two_deep) ["Z"; "Y"; "X"] true
                                  "X" [ColZ; ColY; ColX] ColX).
  - reflexivity.
  - reflexivity.
Defined.

(* ================================================================== *)
(** ** The groups of a run hold every tile once *)

Lemma filter_either {A : Type} (p q : A -> bool) (l : list A) :
  (forall x, In x l -> p x = true -> q x = true -> False) ->
  Permutation (filter (fun x => (p x || q x)%bool) l)
              (filter p l ++ filter q l).
Proof.
  induction l as [|x l IH]; intros H; [reflexivity|].
  assert (IH' := IH (fun y Hy => H y (or_intror Hy))).
  cbn [filter]. destruct (p x) eqn:P, (q x) eqn:Q; cbn [orb app].
  - exfalso. apply (H x); simpl; auto.
  - now constructor.
  - now apply Permutation_cons_app.
  - exact IH'.
Qed.

Lemma keys_concat {A : Type} (key : A -> cell) (l : frame A) ks :
  StronglySorted cell_lt ks ->
  Permutation
    (List.concat (map (fun k => filter (has_key key k) l) ks))
    (filter (fun r => existsb (fun k => has_key key k r) ks) l).
Proof.
  induction 1 as [|k ks S IH F]; cbn [map List.concat existsb].
  - induction l as [|x l IHl]; [reflexivity|exact IHl].
  - rewrite filter_either.
    + now apply Permutation_app_head.
    + intros x _ P Q. apply existsb_exists in Q.
      destruct Q as (k' & Hk' & Q). unfold has_key in P, Q.
      destruct (cell_compare (key (snd x)) k) eqn:E1; try discriminate.
      destruct (cell_compare (key (snd x)) k') eqn:E2; try discriminate.
      apply cmp_eq in E1. apply cmp_eq in E2. subst k'.
      rewrite Forall_forall in F. apply (cell_lt_irrefl k).
      subst k. now apply F.
Qed.

Lemma groups_of_concat c (l : data_frame) :
  Permutation (List.concat (groups_of c l)) l.
Proof.
  unfold groups_of.
  rewrite (keys_concat (cell_at c) l _ (group_keys_sorted (cell_at c) l)).
  rewrite filter_all; [reflexivity|].
  intros r Hr. apply existsb_exists. exists (cell_at c (snd r)). split.
  - apply group_keys_in. eauto.
  - unfold has_key. now rewrite cmp_refl.
Qed.

Lemma loc_rows {A : Type} (df : frame A) s :
  forall sub, loc df s = inr sub -> labels sub = s /\ incl sub df.
Proof.
  induction s as [|l s IH]; intros sub H; simpl in H.
  - inversion H. split; [reflexivity|intros x []].
  - destruct (find (fun r => Nat.eqb (fst r) l) df) as [r|] eqn:F;
      [|discriminate].
    destruct (loc df s) as [e|rest]; [discriminate|]. inversion H; subst.
    destruct (IH rest eq_refl) as [L I].
    apply find_some in F. destruct F as [Hr E]. apply Nat.eqb_eq in E.
    split.
    + cbn. now rewrite E, <- L.
    + intros x [<-|Hx]; auto.
Qed.

Lemma loc_app {A : Type} (df : frame A) s1 s2 sub1 sub2 :
  loc df s1 = inr sub1 -> loc df s2 = inr sub2 ->
  loc df (s1 ++ s2) = inr (sub1 ++ sub2).
Proof.
  revert sub1. induction s1 as [|l s1 IH]; intros sub1 H1 H2; simpl in *.
  - inversion H1. exact H2.
  - destruct (find (fun r => Nat.eqb (fst r) l) df) as [r|];
      [|discriminate].
    destruct (loc df s1) as [e|rest]; [discriminate|]. inversion H1; subst.
    rewrite (IH rest eq_refl H2). reflexivity.
Qed.

Lemma loc_concat {A : Type} (df : frame A) ss subs :
  Forall2 (fun s sub => loc df s = inr sub) ss subs ->
  loc df (List.concat ss) = inr (List.concat subs).
Proof.
  induction 1 as [|s sub ss subs H _ IH]; [reflexivity|].
  cbn [List.concat]. now apply loc_app.
Qed.

Lemma labelled_once {A : Type} (df : frame A) a b :
  NoDup (labels df) -> In a df -> In b df -> fst a = fst b -> a = b.
Proof.
  unfold labels. induction df as [|x df IH]; intros ND Ha Hb E;
    [destruct Ha|].
  cbn [map] in ND. inversion ND as [|? ? Hn ND']; subst.
  destruct Ha as [<-|Ha], Hb as [<-|Hb]; auto.
  - exfalso. apply Hn. rewrite E. now apply in_map.
  - exfalso. apply Hn. rewrite <- E. now apply in_map.
Qed.

(** Selecting every label once gives every row once. *)
Lemma loc_all {A : Type} (df : frame A) ls sub :
  NoDup (labels df) -> Permutation ls (labels df) ->
  loc df ls = inr sub -> Permutation sub df.
Proof.
  intros ND P L. destruct (loc_rows df ls sub L) as [E I].
  assert (NDs : NoDup (labels sub)).
  { rewrite E. eapply Permutation_NoDup; [symmetry; exact P|exact ND]. }
  apply NoDup_Permutation.
  - eapply NoDup_map_inv. exact NDs.
  - eapply NoDup_map_inv. exact ND.
  - intros x. split; [apply I|]. intros Hx.
    assert (Hl : In (fst x) (labels sub)).
    { rewrite E. eapply Permutation_in; [symmetry; exact P|].
      now apply labels_in. }
    unfold labels in Hl. apply in_map_iff in Hl.
    destruct Hl as (r & Er & Hr).
    now rewrite <- (labelled_once df r x ND (I r Hr) Hx Er).
Qed.

Lemma concat_rearranged {A : Type} (xs ys : list (list A)) :
  Forall2 (@Permutation A) xs ys ->
  Permutation (List.concat xs) (List.concat ys).
Proof.
  induction 1 as [|x y xs ys P _ IH]; [reflexivity|].
  cbn [List.concat]. now apply Permutation_app.
Qed.

Lemma concat_twice {A : Type} (l : list (list (list A))) :
  List.concat (List.concat l) = List.concat (map (@List.concat A) l).
Proof.
  induction l as [|x l IH]; [reflexivity|].
  cbn [List.concat map]. now rewrite concat_app, IH.
Qed.

(** The groups of one slice hold the rows of the slice. *)
Lemma view_rows df s got gs :
  view df s got = inr gs ->
  exists sub,
    loc df s = inr sub
    /\ Permutation (List.concat gs) sub
    /\ forall g, In g gs -> g <> [].
Proof.
  destruct got as [[by_ ascending] group_key]. intros V.
  apply view_inv in V. destruct V as (sub & cs & c & L & _ & _ & ->).
  exists sub. split; [assumption|]. split.
  - rewrite groups_of_concat. apply sort_values_perm.
  - intros g. apply groups_of_members.
Qed.

Lemma views_rows df got ss gss :
  views df got ss gss ->
  exists subs,
    Forall2 (fun s sub => loc df s = inr sub) ss subs
    /\ Forall2 (@Permutation _) (map (@List.concat _) gss) subs
    /\ Forall2 (fun s gs => Permutation (labels (List.concat gs)) s) ss gss
    /\ forall gs g, In gs gss -> In g gs -> g <> [].
Proof.
  induction 1 as [|s gs ss gss V _ (subs & L & P & Q & N)].
  - exists []. repeat split; try constructor. intros gs g [].
  - destruct (view_rows df s got gs V) as (sub & Ls & Ps & Ns).
    exists (sub :: subs). repeat split.
    + now constructor.
    + cbn [map]. now constructor.
    + constructor; [|assumption].
      destruct (loc_rows df s sub Ls) as [<- _].
      unfold labels. now apply Permutation_map.
    + intros gs' g [<-|Hgs]; [apply Ns|now apply N].
Qed.

Lemma views_cover df got ss gss :
  NoDup (labels df) ->
  slices df = inr ss ->
  views df got ss gss ->
  Permutation (List.concat (List.concat gss)) df
  /\ Forall2 (fun s gs => Permutation (labels (List.concat gs)) s) ss gss
  /\ (forall gs g, In gs gss -> In g gs -> g <> []).
Proof.
  intros ND S V.
  destruct (views_rows df got ss gss V) as (subs & L & P & Q & N).
  split; [|split; assumption].
  assert (E : List.concat (List.concat gss)
              = List.concat (map (@List.concat _) gss))
    by apply concat_twice.
  rewrite E, (concat_rearranged _ _ P).
  apply (loc_all df (List.concat ss)); [assumption| |now apply loc_concat].
  rewrite slices_tile_graph in S. inversion S; subst ss.
  now apply slices_partition_of_labels.
Qed.

Lemma Forall2_in_right {A B : Type} (R : A -> B -> Prop) l l' y :
  Forall2 R l l' -> In y l' -> exists x, In x l /\ R x y.
Proof.
  induction 1 as [|a b l l' H _ IH]; intros Hy; [destruct Hy|].
  destruct Hy as [<-|Hy].
  - exists a. split; [now left|assumption].
  - destruct (IH Hy) as (x & Hx & Hr). exists x. split; [now right|exact Hr].
Qed.

Lemma concat_longer {A : Type} (l : list (list A)) :
  (forall x, In x l -> x <> []) ->
  (List.length l <= List.length (List.concat l))%nat.
Proof.
  induction l as [|x l IH]; intros H; [simpl; lia|].
  cbn [List.concat List.length]. rewrite length_app.
  assert (Hx : x <> []) by (apply H; now left).
  assert (IH' := IH (fun y Hy => H y (or_intror Hy))).
  destruct x; [congruence|]. simpl. lia.
Qed.

(** A run over a catalog of [n] tiles with distinct labels is over
    after at most [2 n + 1] resumptions. *)
Lemma run_bound df got ss gss :
  NoDup (labels df) ->
  slices df = inr ss ->
  views df got ss gss ->
  (List.length ss + List.length (List.concat gss) + 1
   <= 2 * List.length df + 1)%nat.
Proof.
  intros ND S V. destruct (views_cover _ _ _ _ ND S V) as (Pg & _ & Ng).
  rewrite slices_tile_graph in S. inversion S; subst ss.
  destruct (slices_partition_of_labels _ ND) as [P N].
  pose proof (concat_longer _ N) as B1.
  rewrite (Permutation_length P) in B1.
  unfold labels in B1. rewrite length_map in B1.
  assert (B2 : (List.length (List.concat gss) <= List.length df)%nat).
  { rewrite <- (Permutation_length Pg). apply concat_longer.
    intros g Hg. apply in_concat in Hg. destruct Hg as (gs & Hgs & Hg).
    now apply (Ng gs g). }
  lia.
Qed.

(** X15. Over a whole run of [tiles_along_dir] under its protocol, on a
    catalog with distinct labels and with a tuple that names columns of
    the table, every tile is yielded exactly once: the run ends without
    raising, the groups it has yielded are together a rearrangement of
    the rows of the table, no group is empty, and no group holds tiles
    of two slices. *)
Theorem tiles_along_dir_covers_catalog
        (df : data_frame) (by_ : list string) (ascending : bool)
        (group_key : string) (cs : list column) (c : column) :
  NoDup (labels df) ->
  resolve by_ = inr cs ->
  column_of_name group_key = Some c ->
  exists ss yielded,
    slices df = inr ss
    /\ (forall fuel,
           (2 * List.length df + 1 <= fuel)%nat ->
           converse fuel df (by_, ascending, group_key) GenStart None
           = Some (yielded, Exhausted))
    /\ Permutation (List.concat yielded) df
    /\ (forall g, In g yielded ->
                  g <> [] /\ exists s, In s ss /\ incl (labels g) s).
Proof.
  intros ND R C. pose proof (slices_tile_graph df) as S.
  destruct (views_of_slices df by_ ascending group_key cs c _ R C S)
    as (gss & V).
  destruct (views_cover _ _ _ _ ND S V) as (Pg & Q & Ng).
  pose proof (run_bound _ _ _ _ ND S V) as B.
  eexists _, (List.concat gss). split; [exact S|]. split; [|split].
  - intros fuel Hf. rewrite (converse_start _ _ _ _ S).
    apply (converse_groups _ _ _ _ V []). cbn [List.length]. lia.
  - exact Pg.
  - intros g Hg. apply in_concat in Hg. destruct Hg as (gs & Hgs & Hg).
    split; [now apply (Ng gs g)|].
    destruct (Forall2_in_right _ _ _ _ Q Hgs) as (s & Hs & P).
    exists s. split; [exact Hs|]. intros l Hl.
    apply (Permutation_in _ P). unfold labels in *.
    apply in_map_iff in Hl. destruct Hl as (r & <- & Hr).
    apply in_map. apply in_concat. eauto.
Qed.

Lemma tiles_along_dir_covers_catalog_witness :
  exists ss yielded,
    slices (table_of two_deep) = inr ss
    /\ (forall fuel,
           (2 * List.length (table_of two_deep) + 1 <= fuel)%nat ->
           converse fuel (table_of two_deep) (["Z"; "Y"; "X"], true, "X")
                    GenStart None
           = Some (yielded, Exhausted))
    /\ Permutation (List.concat yielded) (table_of two_deep)
    /\ (forall g, In g yielded ->
                  g <> [] /\ exists s, In s ss /\ incl (labels g) s).
Proof.
  apply (tiles_along_dir_covers_catalog
           (table_of two_deep) ["Z"; "Y"; "X"] true "X"
           [ColZ; ColY; ColX] ColX).
  - apply table_of_NoDup.
  - reflexivity.
  - reflexivity.
Defined.

(* ================================================================== *)
(** ** The one flag of the sort *)

Lemma filter_swap {A : Type} (f g : A -> bool) (l : list A) :
  filter f (filter g l) = filter g (filter f l).
Proof.
  induction l as [|x l IH]; [reflexivity|]. cbn [filter].
  destruct (f x) eqn:F, (g x) eqn:G; cbn [filter];
    rewrite ?F, ?G, IH; reflexivity.
Qed.

(** The groups of one slice, for the tuple sent. *)
Lemma view_flag_sorted df s by_ ascending group_key cs c gs :
  resolve by_ = inr cs ->
  column_of_name group_key = Some c ->
  view df s (by_, ascending, group_key) = inr gs ->
  exists sub,
    loc df s = inr sub
    /\ Permutation (List.concat gs) sub
    /\ forall g, In g gs -> flag_sorted cs ascending c sub g.
Proof.
  intros R C V. destruct (view_rows _ _ _ _ V) as (sub & L & P & _).
  exists sub. split; [exact L|]. split; [exact P|].
  apply view_inv in V. destruct V as (sub' & cs' & c' & L' & R' & C' & ->).
  rewrite L in L'. rewrite R in R'. rewrite C in C'.
  inversion L'; inversion R'; inversion C'; subst sub' cs' c'.
  intros g Hg. unfold groups_of in Hg. apply in_map_iff in Hg.
  destruct Hg as (k0 & <- & _). split.
  - apply StronglySorted_filter. apply sort_values_sorted.
    exact key_order.
  - exists k0. intros k.
    rewrite filter_swap, sort_values_stable by exact key_order.
    apply filter_swap.
Qed.

(** C5 (amended).  [tiles_along_dir] passes the one flag it is sent for
    the whole key list.  Run under its protocol with a tuple that names
    columns of the table, it yields the groups of every slice and ends;
    the groups of a slice rearrange the rows of the slice, and every
    group is ordered by the whole key tuple in the direction of the
    flag, every key ascending when it is on and every key descending
    when it is off, the rows of one key tuple keeping the order they
    had. *)
Theorem tiles_along_dir_one_flag :
  (forall (df : data_frame) (by_ : list string) (ascending : bool)
          (group_key : string) (cs : list column) (c : column),
      resolve by_ = inr cs ->
      column_of_name group_key = Some c ->
      exists ss gss,
        slices df = inr ss
        /\ (forall fuel,
               (List.length ss + List.length (List.concat gss) + 1
                <= fuel)%nat ->
               converse fuel df (by_, ascending, group_key) GenStart None
               = Some (List.concat gss, Exhausted))
        /\ Forall2 (fun s gs =>
                      exists sub,
                        loc df s = inr sub
                        /\ Permutation (List.concat gs) sub
                        /\ forall g, In g gs ->
                                     flag_sorted cs ascending c sub g)
                   ss gss)
  /\ (forall a b : nat * Row.t,
         in_order (row_key [ColZ; ColX; ColY]) key_compare true a b <->
         Row.Z (snd a) < Row.Z (snd b)
         \/ (Row.Z (snd a) = Row.Z (snd b)
             /\ (Row.X (snd a) < Row.X (snd b)
                 \/ (Row.X (snd a) = Row.X (snd b)
                     /\ Row.Y (snd a) <= Row.Y (snd b)))))
  /\ (forall a b : nat * Row.t,
         in_order (row_key [ColZ; ColX; ColY]) key_compare false a b <->
         Row.Z (snd b) < Row.Z (snd a)
         \/ (Row.Z (snd b) = Row.Z (snd a)
             /\ (Row.X (snd b) < Row.X (snd a)
                 \/ (Row.X (snd b) = Row.X (snd a)
                     /\ Row.Y (snd b) <= Row.Y (snd a))))).
Proof.
  split; [|split; intros a b; apply compare3_le].
  intros df by_ ascending group_key cs c R C.
  pose proof (slices_tile_graph df) as S.
  destruct (views_of_slices df by_ ascending group_key cs c _ R C S)
    as (gss & V).
  eexists _, gss. split; [exact S|]. split.
  - intros fuel Hf. rewrite (converse_start _ _ _ _ S).
    now apply (converse_groups _ _ _ _ V []).
  - unfold views in V. eapply Forall2_impl; [|exact V].
    intros s gs Hv. now apply (view_flag_sorted df s by_ ascending
                                                group_key cs c gs).
Qed.

Lemma tiles_along_dir_one_flag_witness :
  exists ss gss,
    slices (table_of one_row) = inr ss
    /\ (forall fuel,
           (List.length ss + List.length (List.concat gss) + 1
            <= fuel)%nat ->
           converse fuel (table_of one_row) (["Z"; "X"; "Y"], false, "Y")
                    GenStart None
           = Some (List.concat gss, Exhausted))
    /\ Forall2 (fun s gs =>
                  exists sub,
                    loc (table_of one_row) s = inr sub
                    /\ Permutation (List.concat gs) sub
                    /\ forall g, In g gs ->
                                 flag_sorted [ColZ; ColX; ColY] false ColY
                                             sub g)
               ss gss.
Proof.
  apply (proj1 tiles_along_dir_one_flag
               (table_of one_row) ["Z"; "X"; "Y"] false "Y"
               [ColZ; ColX; ColY] ColY).
  - reflexivity.
  - reflexivity.
Defined.

(* ================================================================== *)
(** ** The drivers on every catalog *)

Lemma slices_nil df : slices df = inr [] -> df = [].
Proof.
  intros S. destruct df as [|r df]; [reflexivity|].
  destruct (slices_first (r :: df)) as (s & rest & E & _); [discriminate|].
  rewrite S in E. discriminate.
Qed.

(** A driver yields the groups of the first slice and what follows. *)
Lemma drive_after generator_stop df by_ ascending group_key cs c s rest :
  resolve by_ = inr cs ->
  column_of_name group_key = Some c ->
  slices df = inr (s :: rest) ->
  exists gs,
    view df s (by_, ascending, group_key) = inr gs
    /\ drive generator_stop (enough df) df (by_, ascending, group_key)
       = Some (map Some gs ++ fst (after_slice rest),
               snd (after_slice rest)).
Proof.
  intros R C S.
  destruct (drive_trace generator_stop df by_ ascending group_key cs c R C)
    as [[-> _]|(s0 & rest0 & sub & S0 & L & _ & D)]; [discriminate|].
  rewrite S in S0. inversion S0; subst s0 rest0.
  eexists. split; [|exact D]. now apply view_known.
Qed.

(** X16. On every catalog that is not empty, [tiles_along_X] and
    [tiles_along_Y] yield the groups of the first slice only.  With one
    slice they end there; with more slices they go on to yield [None],
    which is no group, and raise [TypeError], so that the tiles of the
    other slices are never yielded. *)
Theorem drivers_stop_after_first_slice
        (generator_stop : bool) (df : data_frame) (ascending : bool)
        (s : list nat) (rest : list (list nat)) :
  slices df = inr (s :: rest) ->
  exists gx gy,
    view df s (["Z"; "X"; "Y"], ascending, "Y") = inr gx
    /\ view df s (["Z"; "Y"; "X"], ascending, "X") = inr gy
    /\ tiles_along_X generator_stop df ascending
       = Some (match rest with
               | [] => (map Some gx, Exhausted)
               | _ :: _ => (map Some gx ++ [None], Failed none_subscript)
               end)
    /\ tiles_along_Y generator_stop df ascending
       = Some (match rest with
               | [] => (map Some gy, Exhausted)
               | _ :: _ => (map Some gy ++ [None], Failed none_subscript)
               end).
Proof.
  intros S. unfold tiles_along_X, tiles_along_Y.
  destruct (drive_after generator_stop df ["Z"; "X"; "Y"] ascending "Y"
                        [ColZ; ColX; ColY] ColY s rest eq_refl eq_refl S)
    as (gx & Vx & Dx).
  destruct (drive_after generator_stop df ["Z"; "Y"; "X"] ascending "X"
                        [ColZ; ColY; ColX] ColX s rest eq_refl eq_refl S)
    as (gy & Vy & Dy).
  exists gx, gy. rewrite Dx, Dy.
  repeat split; try assumption;
    destruct rest; cbn [after_slice fst snd]; now rewrite ?app_nil_r.
Qed.

Lemma drivers_stop_after_first_slice_witness :
  exists gx gy,
    view (table_of two_deep) [1%nat] (["Z"; "X"; "Y"], true, "Y") = inr gx
    /\ view (table_of two_deep) [1%nat] (["Z"; "Y"; "X"], true, "X")
       = inr gy
    /\ tiles_along_X true (table_of two_deep) true
       = Some (map Some gx ++ [None], Failed none_subscript)
    /\ tiles_along_Y true (table_of two_deep) true
       = Some (map Some gy ++ [None], Failed none_subscript).
Proof.
  apply (drivers_stop_after_first_slice true (table_of two_deep) true
                                        [1%nat] [[0%nat]]).
  vm_compute. reflexivity.
Defined.

(* ================================================================== *)
(** ** The order inside a group *)

Lemma StronglySorted_among {A : Type} (R R' : A -> A -> Prop) (l : list A) :
  (forall a b, In a l -> In b l -> R a b -> R' a b) ->
  StronglySorted R l -> StronglySorted R' l.
Proof.
  intros H S. induction S as [|a l S IH F]; [constructor|].
  constructor.
  - apply IH. intros x y Hx Hy. apply H; now right.
  - rewrite Forall_forall in *. intros x Hx.
    apply H; [now left|now right|now apply F].
Qed.

Lemma in_order_along (cs : list column) (along : Row.t -> Z)
      (other : Row.t -> Z) ascending a b :
  (forall r, row_key cs r = [CInt (Row.Z r); CInt (along r);
                             CInt (other r)]) ->
  in_order (row_key cs) key_compare ascending a b ->
  along_le along ascending a b.
Proof.
  intros K. unfold in_order, directed, along_le. rewrite !K.
  destruct ascending; rewrite compare3_le; lia.
Qed.

Lemma group_of_view c cs ascending sub g :
  In g (groups_of c (sort_values (row_key cs) key_compare ascending sub)) ->
  (exists k, forall r, In r g -> cell_at c (snd r) = k)
  /\ StronglySorted (in_order (row_key cs) key_compare ascending) g
  /\ g <> [].
Proof.
  intros Hg. split; [|split; [|eapply groups_of_members; eauto]].
  - unfold groups_of in Hg. apply in_map_iff in Hg.
    destruct Hg as (k & <- & _). exists k. intros r Hr.
    apply filter_In in Hr. destruct Hr as [_ Hr]. unfold has_key in Hr.
    destruct (cell_compare (cell_at c (snd r)) k) eqn:E; try discriminate.
    now apply cmp_eq in E.
  - unfold groups_of in Hg. apply in_map_iff in Hg.
    destruct Hg as (k & <- & _). apply StronglySorted_filter.
    apply sort_values_sorted. exact key_order.
Qed.

Lemma drive_items generator_stop df by_ ascending group_key cs c items e g :
  resolve by_ = inr cs ->
  column_of_name group_key = Some c ->
  drive generator_stop (enough df) df (by_, ascending, group_key)
  = Some (items, e) ->
  In (Some g) items ->
  exists sub,
    In g (groups_of c (sort_values (row_key cs) key_compare ascending sub)).
Proof.
  intros R C D Hg.
  destruct (drive_trace generator_stop df by_ ascending group_key cs c R C)
    as [[-> D']|(s & rest & sub & _ & _ & _ & D')]; rewrite D' in D.
  - unfold stop_iteration_escapes in D.
    destruct generator_stop; inversion D; subst; destruct Hg.
  - inversion D; subst. exists sub. apply in_app_or in Hg.
    destruct Hg as [Hg|Hg].
    + apply in_map_iff in Hg. destruct Hg as (g' & E & Hg').
      inversion E; subst. exact Hg'.
    + destruct rest; simpl in Hg; [destruct Hg|].
      destruct Hg as [Hg|[]]. discriminate.
Qed.

(** X17. What the drivers yield: every group that [tiles_along_X]
    yields holds tiles of one [Y], ordered by [Z] and then [X] in the
    direction of the flag; every group that [tiles_along_Y] yields
    holds tiles of one [X], ordered by [Z] and then [Y]; and no group is
    empty. *)
Theorem drivers_groups_ordered
        (generator_stop : bool) (df : data_frame) (ascending : bool)
        (items : list item) (e : ending) (g : data_frame) :
  In (Some g) items ->
  (tiles_along_X generator_stop df ascending = Some (items, e) ->
   (exists y, forall r, In r g -> Row.Y (snd r) = y)
   /\ StronglySorted (along_le Row.X ascending) g
   /\ g <> [])
  /\ (tiles_along_Y generator_stop df ascending = Some (items, e) ->
      (exists x, forall r, In r g -> Row.X (snd r) = x)
      /\ StronglySorted (along_le Row.Y ascending) g
      /\ g <> []).
Proof.
  intros Hg. unfold tiles_along_X, tiles_along_Y. split; intros D.
  - destruct (drive_items generator_stop df ["Z"; "X"; "Y"] ascending "Y"
                          [ColZ; ColX; ColY] ColY items e g
                          eq_refl eq_refl D Hg) as (sub & Hin).
    apply group_of_view in Hin. destruct Hin as ((k & Hk) & S & N).
    repeat split; [|eapply StronglySorted_among; [|exact S]|exact N].
    + destruct g as [|r0 g]; [congruence|]. exists (Row.Y (snd r0)).
      intros r Hr. pose proof (Hk r Hr) as E1.
      pose proof (Hk r0 (or_introl eq_refl)) as E2.
      cbn [cell_at] in E1, E2. congruence.
    + intros a b _ _. now apply (in_order_along _ Row.X Row.Y).
  - destruct (drive_items generator_stop df ["Z"; "Y"; "X"] ascending "X"
                          [ColZ; ColY; ColX] ColX items e g
                          eq_refl eq_refl D Hg) as (sub & Hin).
    apply group_of_view in Hin. destruct Hin as ((k & Hk) & S & N).
    repeat split; [|eapply StronglySorted_among; [|exact S]|exact N].
    + destruct g as [|r0 g]; [congruence|]. exists (Row.X (snd r0)).
      intros r Hr. pose proof (Hk r Hr) as E1.
      pose proof (Hk r0 (or_introl eq_refl)) as E2.
      cbn [cell_at] in E1, E2. congruence.
    + intros a b _ _. now apply (in_order_along _ Row.Y Row.X).
Qed.

Lemma drivers_groups_ordered_witness :
  let g := table_of one_row in
  (exists y, forall r, In r g -> Row.Y (snd r) = y)
  /\ StronglySorted (along_le Row.X true) g
  /\ g <> [].
Proof.
  cbv zeta.
  apply (proj1 (drivers_groups_ordered
                  true (table_of one_row) true
                  [Some (table_of one_row)] Exhausted (table_of one_row)
                  (or_introl eq_refl))).
  vm_compute. reflexivity.
Defined.

(* ================================================================== *)
(** ** [full_height] on every catalog *)

(** X18. [full_height] never returns a height.  On every catalog that
    is not empty it raises [KeyError] at [group['Ys']], a column the
    table does not have; on the empty catalog it raises [ValueError]
    from [max], or the [RuntimeError] of PEP 479. *)
Theorem full_height_always_raises
        (generator_stop : bool) (df : data_frame) (ascending : bool) :
  full_height generator_stop df ascending
  = Some (inl (full_height_error generator_stop df)).
Proof.
  destruct df as [|r df].
  - destruct generator_stop; reflexivity.
  - apply full_height_KeyError. discriminate.
Qed.

(* ================================================================== *)
(** ** From the walk to the groups *)

(** X20. From the walk to the groups.  For every catalog that
    [load_dir] returns and every tuple that names columns of the table,
    [slices] splits the labels [0 .. n-1] between the slices, and a run
    of [tiles_along_dir] under its protocol ends without raising after
    at most [2 n + 1] resumptions, having yielded every tile of the
    catalog in exactly one group. *)
Theorem loaded_catalog_run
        (InputFile : string -> result (Z * Z * Z)) (walk : list walk_entry)
        (df : data_frame) (log : list string)
        (by_ : list string) (ascending : bool) (group_key : string)
        (cs : list column) (c : column) :
  load_dir InputFile walk = inr (df, log) ->
  resolve by_ = inr cs ->
  column_of_name group_key = Some c ->
  exists ss gss,
    slices df = inr ss
    /\ Permutation (List.concat ss) (seq 0 (List.length df))
    /\ views df (by_, ascending, group_key) ss gss
    /\ converse (2 * List.length df + 1) df (by_, ascending, group_key)
                GenStart None
       = Some (List.concat gss, Exhausted)
    /\ Permutation (List.concat (List.concat gss)) df.
Proof.
  intros L R C. apply load_dir_table in L. destruct L as [-> _].
  set (ts := survivors InputFile (candidates walk)).
  pose proof (table_of_NoDup ts) as ND.
  pose proof (slices_tile_graph (table_of ts)) as S.
  destruct (slices_partition_of_labels _ ND) as [P N].
  destruct (views_of_slices _ by_ ascending group_key cs c _ R C S)
    as (gss & V).
  destruct (views_cover _ _ _ _ ND S V) as (Pg & _ & Ng).
  eexists _, gss. split; [exact S|]. split; [|split; [exact V|split]].
  - rewrite P, table_of_length. apply table_of_labels.
  - rewrite (converse_start _ _ _ _ S).
    apply (converse_groups _ _ _ _ V []).
    pose proof (concat_longer _ N) as B1.
    rewrite (Permutation_length P) in B1.
    unfold labels in B1. rewrite length_map in B1.
    assert (B2 : (List.length (List.concat gss)
                  <= List.length (table_of ts))%nat).
    { rewrite <- (Permutation_length Pg). apply concat_longer.
      intros g Hg. apply in_concat in Hg. destruct Hg as (gs & Hgs & Hg).
      now apply (Ng gs g). }
    cbn [List.length]. lia.
  - exact Pg.
Qed.

Lemma loaded_catalog_run_witness :
  exists ss gss,
    slices (table_of two_deep) = inr ss
    /\ Permutation (List.concat ss)
                   (seq 0 (List.length (table_of two_deep)))
    /\ views (table_of two_deep) (["Z"; "Y"; "X"], true, "X") ss gss
    /\ converse (2 * List.length (table_of two_deep) + 1)
                (table_of two_deep) (["Z"; "Y"; "X"], true, "X")
                GenStart None
       = Some (List.concat gss, Exhausted)
    /\ Permutation (List.concat (List.concat gss)) (table_of two_deep).
Proof.
  apply (loaded_catalog_run sample_reader two_deep_walk
                            (table_of two_deep) []
                            ["Z"; "Y"; "X"] true "X" [ColZ; ColY; ColX] ColX).
  - vm_compute. reflexivity.
  - reflexivity.
  - reflexivity.
Defined.

(* ================================================================== *)
(** ** Names with one [x_], one [y_] and one [z_] *)

(** A greedy repetition gives way to a match of the rest further on. *)
Lemma star_skip {R : Type} cl (k : list ascii -> option R) s1 s2 r :
  of_class cl s1 ->
  Re.star cl k s2 = Some r ->
  Re.star cl k (s1 ++ s2) = Some r.
Proof.
  intros F K. induction F as [|c s1 M F IH]; [exact K|].
  cbn [app Re.star]. now rewrite M, IH.
Qed.

(** It takes nothing when the rest matches nowhere further on. *)
Lemma star_here {R : Type} cl (k : list ascii -> option R) s :
  (forall u1 u2, s = u1 ++ u2 -> u1 <> [] -> k u2 = None) ->
  Re.star cl k s = k s.
Proof.
  induction s as [|c s IH]; intros H; [reflexivity|].
  cbn [Re.star]. destruct (Re.cclass_matches cl c); [|reflexivity].
  rewrite IH.
  - rewrite (H [c] s eq_refl) by discriminate. reflexivity.
  - intros u1 u2 E Hu. apply (H (c :: u1) u2); [|discriminate].
    now rewrite E.
Qed.

Lemma star_always {R : Type} cl (r : R) s :
  Re.star cl (fun _ => Some r) s = Some r.
Proof.
  induction s as [|c s IH]; [reflexivity|].
  cbn [Re.star]. rewrite IH. now destruct (Re.cclass_matches cl c).
Qed.

Lemma follows_suffix a b u1 u2 :
  follows a b (u1 ++ u2) = false -> follows a b u2 = false.
Proof.
  induction u1 as [|c u1 IH]; intros H; [exact H|].
  apply IH. cbn [app follows] in H.
  destruct (u1 ++ u2) as [|d s]; [reflexivity|].
  now apply orb_false_iff in H.
Qed.

Lemma follows_head a b p caps s :
  follows a b s = false ->
  Re.match_here (Re.One (Re.Chr a) :: Re.One (Re.Chr b) :: p) caps s = None.
Proof.
  intros H. destruct s as [|c [|d s]]; cbn [Re.match_here Re.cclass_matches].
  - reflexivity.
  - now destruct (Ascii.eqb c a).
  - cbn [follows] in H. apply orb_false_iff in H. destruct H as [H _].
    destruct (Ascii.eqb c a); [|reflexivity].
    destruct (Ascii.eqb d b); [discriminate|reflexivity].
Qed.

(** [.*ab] followed by the items [p], on a line where [ab] occurs once
    from there on. *)
Lemma star_literal a b p caps pre t r :
  one_line pre ->
  follows a b (b :: t) = false ->
  Re.match_here p caps t = Some r ->
  Re.match_here (Re.Star Re.Dot :: Re.One (Re.Chr a) :: Re.One (Re.Chr b)
                          :: p) caps (pre ++ a :: b :: t)
  = Some r.
Proof.
  intros L F K. cbn [Re.match_here].
  apply star_skip; [now apply ReFacts.of_class_dot|].
  rewrite star_here.
  - cbn [Re.match_here Re.cclass_matches]. now rewrite !Ascii.eqb_refl.
  - intros u1 u2 E Hu. apply follows_head.
    destruct u1 as [|c u1]; [congruence|].
    cbn [app] in E. inversion E; subst c.
    apply (follows_suffix a b u1). now rewrite <- H1.
Qed.

Lemma digit_led_after (m rest : list ascii) c :
  not_digit_led m -> Re.is_digit c = false ->
  match m ++ c :: rest with
  | [] => True
  | c' :: _ => Re.cclass_matches Re.Digit c' = false
  end.
Proof.
  intros Hm Hc. destruct m as [|c' m]; [exact Hc|exact Hm].
Qed.

Lemma search_xyz pre d1 m1 d2 m2 d3 q :
  digits d1 -> digits d2 -> digits d3 ->
  one_line pre -> one_line m1 -> one_line m2 ->
  not_digit_led m1 -> not_digit_led m2 -> not_digit_led q ->
  let t3 := d3 ++ q in
  let t2 := d2 ++ m2 ++ list_ascii_of_string "z_" ++ t3 in
  let t1 := d1 ++ m1 ++ list_ascii_of_string "y_" ++ t2 in
  follows "x" "_" ("_"%char :: t1) = false ->
  follows "y" "_" ("_"%char :: t2) = false ->
  follows "z" "_" ("_"%char :: t3) = false ->
  Re.match_here (Re.body pattern_xyz) []
                (pre ++ list_ascii_of_string "x_" ++ t1)
  = Some [d1; d2; d3].
Proof.
  intros [N1 D1] [N2 D2] [N3 D3] Lp L1 L2 Q1 Q2 Q3 t3 t2 t1 F1 F2 F3.
  cbn [pattern_xyz Re.body app Re.lit map list_ascii_of_string].
  apply star_literal; [exact Lp|exact F1|].
  unfold t1. apply (capplus_greedy Re.Digit _ [] d1);
    [exact N1|exact D1|now apply digit_led_after|].
  cbn [app list_ascii_of_string].
  apply star_literal; [exact L1|exact F2|].
  unfold t2. apply (capplus_greedy Re.Digit _ [d1] d2);
    [exact N2|exact D2|now apply digit_led_after|].
  cbn [app list_ascii_of_string].
  apply star_literal; [exact L2|exact F3|].
  unfold t3. apply (capplus_greedy Re.Digit _ [d1; d2] d3);
    [exact N3|exact D3|destruct q; [exact I|exact Q3]|].
  cbn [app Re.match_here]. apply star_always.
Qed.

(** X21. A base name in which [x_<digits>], [y_<digits>] and
    [z_<digits>] follow each other on one line, each run of digits
    ending where the digits end, and in which [x_], [y_] and [z_] do not
    occur again further on, parses to the values of these three runs:
    [x], then [y], then [z]. *)
Theorem parse_file_name_xyz :
  forall name pre d1 m1 d2 m2 d3 q,
    let t3 := d3 ++ q in
    let t2 := d2 ++ m2 ++ list_ascii_of_string "z_" ++ t3 in
    let t1 := d1 ++ m1 ++ list_ascii_of_string "y_" ++ t2 in
    list_ascii_of_string (basename name)
    = pre ++ list_ascii_of_string "x_" ++ t1 ->
    digits d1 -> digits d2 -> digits d3 ->
    one_line pre -> one_line m1 -> one_line m2 ->
    not_digit_led m1 -> not_digit_led m2 -> not_digit_led q ->
    follows "x" "_" ("_"%char :: t1) = false ->
    follows "y" "_" ("_"%char :: t2) = false ->
    follows "z" "_" ("_"%char :: t3) = false ->
    parse_file_name name
    = inr [int_of_digits d1; int_of_digits d2; int_of_digits d3].
Proof.
  intros name pre d1 m1 d2 m2 d3 q t3 t2 t1 Hb H1 H2 H3 Lp L1 L2 Q1 Q2 Q3
         F1 F2 F3.
  unfold parse_file_name, Re.search.
  cbn [Re.anchored pattern_xyz]. rewrite Hb.
  change (Re.mkPattern true _) with pattern_xyz.
  pose proof (search_xyz pre d1 m1 d2 m2 d3 q H1 H2 H3 Lp L1 L2 Q1 Q2 Q3
                         F1 F2 F3) as E.
  cbv zeta in E. fold t3 t2 t1 in E.
  cbn [pattern_xyz Re.body] in E |- *. rewrite E. reflexivity.
Qed.

Lemma parse_file_name_xyz_witness :
  parse_file_name "scan/tile_x_12_y_3_z_400.tif" = inr [12; 3; 400].
Proof.
  refine (parse_file_name_xyz
            "scan/tile_x_12_y_3_z_400.tif"
            (list_ascii_of_string "tile_")
            (list_ascii_of_string "12") (list_ascii_of_string "_")
            (list_ascii_of_string "3") (list_ascii_of_string "_")
            (list_ascii_of_string "400") (list_ascii_of_string ".tif")
            eq_refl _ _ _ _ _ _ eq_refl eq_refl eq_refl
            eq_refl eq_refl eq_refl).
  - split; [discriminate|repeat constructor].
  - split; [discriminate|repeat constructor].
  - split; [discriminate|repeat constructor].
  - repeat constructor; discriminate.
  - repeat constructor; discriminate.
  - repeat constructor; discriminate.
Defined.

(* ================================================================== *)
(** ** The first slice *)

Lemma add_nodes_prefix (df : data_frame) :
  forall G,
  exists more,
    nodes (fold_left (fun G r => add_node (fst r) G) df G)
    = nodes G ++ more.
Proof.
  induction df as [|r df IH]; intros G; cbn [fold_left].
  - exists []. now rewrite app_nil_r.
  - destruct (IH (add_node (fst r) G)) as (more & E). rewrite E.
    unfold add_node. destruct (mem (fst r) (nodes G)); cbn [nodes].
    + now exists more.
    + exists (fst r :: more). now rewrite <- app_assoc.
Qed.

Lemma frame_nodes_head r df :
  exists more, frame_nodes (r :: df) = fst r :: more.
Proof.
  unfold frame_nodes. cbn [fold_left].
  destruct (add_nodes_prefix df (add_node (fst r) empty_graph))
    as (more & E).
  rewrite E. now exists more.
Qed.

(** X22. The slice that comes first is the slice of the first row of
    the table: it holds exactly the tiles that a chain of enclosures
    joins to that row. *)
Theorem first_slice_of_first_row (r : nat * Row.t) (df : data_frame) :
  exists s rest,
    slices (r :: df) = inr (s :: rest)
    /\ forall b, In b s <-> chained (r :: df) (fst r) b.
Proof.
  pose proof (slice_graph_well_formed (r :: df)) as WF.
  fold (tile_graph (r :: df)) in WF.
  rewrite slices_tile_graph. unfold connected_component_subgraphs.
  destruct (frame_nodes_head r df) as (more & E).
  change (frame_nodes (r :: df)) with (nodes (tile_graph (r :: df))) in E.
  assert (Hr : In (fst r) (nodes (tile_graph (r :: df)))).
  { rewrite E. now left. }
  set (G := tile_graph (r :: df)) in *.
  fold (held_nodes G). rewrite E.
  cbn [components_from mem existsb map].
  eexists _, _. split; [reflexivity|]. intros b.
  rewrite held_nodes_in.
  rewrite (component_of_connected _ WF) by exact Hr.
  split.
  - intros [_ H]. now apply connected_chained.
  - intros H. apply chained_connected in H. split; [|exact H].
    eapply (connected_nodes _ _ _ WF); [|exact H]. exact Hr.
Qed.
